(** * Repository-collaborator audit: permission reconciliation, paging and retry

    A shallow embedding of the decision logic of the GitHub organisation
    collaborator report, and the properties its design document states.

    Three programs of the repository are embedded:
    - the PowerShell report with team support (steps 1 to 13: REST paging,
      team expansion, direct-collaborator collection, the [rowsByKey] merge,
      enrichment and the final filter);
    - the older PowerShell report ([Get-GitHubOrgRepoCollaborators.ps1]),
      for its permission scan;
    - the JavaScript action ([index.js], last variant): [retryWithBackoff],
      the REST and cursor paging loops, [ssoEmail], [collabRole] and
      [mergeArrays].

    Conventions.  Network calls are out of the model: a transport is a
    function from the number of the call (or from the request's page or
    cursor) to what the call produces.  PowerShell hashtables are finite maps
    ([gmap]) on the lower-cased key, since [@{}] compares keys without case;
    the order in which a hashtable enumerates its keys is a parameter
    wherever the code depends on it. *)

From Stdlib Require Import ZArith Ascii String List Lia.
From stdpp Require Import base decidable option list strings gmap fin_maps.

Local Open Scope string_scope.
Local Open Scope list_scope.

(** ** Strings as PowerShell and JavaScript compare them *)

Module Str.

(** [Char.ToLower] on the ASCII range. *)
Definition lower_ascii (c : ascii) : ascii :=
  let n := nat_of_ascii c in
  if (65 <=? n)%nat && (n <=? 90)%nat then ascii_of_nat (n + 32) else c.

(** [$s.ToLower()]. *)
Fixpoint ToLower (s : string) : string :=
  match s with
  | EmptyString => EmptyString
  | String c t => String (lower_ascii c) (ToLower t)
  end.

(** PowerShell's [-eq] on two strings: equality up to case. *)
Definition ps_eq (a b : string) : bool :=
  bool_decide (ToLower a = ToLower b).

(** [Char.IsWhiteSpace] on the Latin-1 range. *)
Definition IsWhiteSpace (c : ascii) : bool :=
  let n := nat_of_ascii c in
  (n =? 32)%nat || ((9 <=? n)%nat && (n <=? 13)%nat)
  || (n =? 133)%nat || (n =? 160)%nat.

Fixpoint all_white (s : string) : bool :=
  match s with
  | EmptyString => true
  | String c t => IsWhiteSpace c && all_white t
  end.

(** [[string]::IsNullOrWhiteSpace($s)]; a string field that holds [$null]
    reads as the empty string. *)
Definition IsNullOrWhiteSpace (s : string) : bool := all_white s.

(** JavaScript's [s.includes(sub)]. *)
Fixpoint includes (s sub : string) : bool :=
  String.prefix sub s
  || match s with
     | EmptyString => false
     | String _ t => includes t sub
     end.

(** A name without [":"], the separator of the merge key. *)
Fixpoint colon_free (s : string) : bool :=
  match s with
  | EmptyString => true
  | String c t => negb (Ascii.eqb c ":"%char) && colon_free t
  end.

End Str.

(** ** Retry with exponential backoff *)

Module Retry.

(** What one invocation of the wrapped call produces. *)
Inductive Outcome (A E : Type) : Type :=
| Resolved (a : A)
| Rejected (e : E).
Arguments Resolved {A E} a.
Arguments Rejected {A E} e.

(** How the wrapper itself ends: it returns the call's value, rethrows an
    error, or leaves its loop without either (JavaScript then yields
    [undefined], PowerShell [$null]). *)
Inductive Completion (A E : Type) : Type :=
| Return (a : A)
| Throw (e : E)
| LoopExit.
Arguments Return {A E} a.
Arguments Throw {A E} e.
Arguments LoopExit {A E}.

(** A run: the backoff sleeps in milliseconds, oldest first, the number of
    invocations of the wrapped call, and the completion. *)
Record Run (A E : Type) : Type := mkRun {
  sleeps : list Z;
  calls : nat;
  completion : Completion A E
}.
Arguments mkRun {A E} sleeps calls completion.
Arguments sleeps {A E} r.
Arguments calls {A E} r.
Arguments completion {A E} r.

(** [sleep ms] before the rest of the run. *)
Definition after_sleep {A E} (ms : Z) (r : Run A E) : Run A E :=
  mkRun (ms :: sleeps r) (calls r) (completion r).

(** One more invocation before the rest of the run. *)
Definition after_call {A E} (r : Run A E) : Run A E :=
  mkRun (sleeps r) (S (calls r)) (completion r).

(** A JavaScript error: only [error.message] decides the control flow
    ([error.response.headers] is logged). *)
Record JsError : Type := mkJsError { message : string }.

Definition secondary_marker : string := "secondary rate limit".

Section JavaScript.
Context {A : Type}.
(** [fn]: the outcome of its [k]-th invocation, counted from 0. *)
Variable fn : nat -> Outcome A JsError.
Variables (retries delay : Z).

(** The body of [for (let i = 0; i < retries; i++)] in
    [retryWithBackoff], from iteration [i], with [todo] iterations left
    before [i < retries] fails. Iteration [i] makes invocation number
    [i] of [fn]. *)
Fixpoint retry_iter (todo : nat) (i : nat) : Run A JsError :=
  match todo with
  | O => mkRun [] 0 LoopExit
  | S todo' =>
      after_call
        match fn i with
        | Resolved a => mkRun [] 0 (Return a)
        | Rejected error =>
            if (Z.of_nat i =? retries - 1)%Z
               || negb (Str.includes (message error) secondary_marker)
            then mkRun [] 0 (Throw error)
            else after_sleep (delay * 2 ^ Z.of_nat i)%Z
                   (retry_iter todo' (S i))
        end
  end.

Definition retryWithBackoff : Run A JsError :=
  retry_iter (Z.to_nat retries) 0.
End JavaScript.

Section PowerShell.
Context {A E : Type}.
(** [Invoke-WebRequest]: the outcome of its [k]-th invocation. *)
Variable Invoke_WebRequest : nat -> Outcome A E.
Variables (RetryCount Delay : Z).

(** The body of [for ($i=0; $i -lt $RetryCount; $i++)] in
    [Invoke-GitHubREST] and [Invoke-GitHubGraphQL]: every error is
    caught, rethrown on the last iteration and slept on before.
    [Wait-IfRateLimited] only waits and is left out of the run. *)
Fixpoint rest_iter (todo : nat) (i : nat) : Run A E :=
  match todo with
  | O => mkRun [] 0 LoopExit
  | S todo' =>
      after_call
        match Invoke_WebRequest i with
        | Resolved a => mkRun [] 0 (Return a)
        | Rejected error =>
            if (Z.of_nat i =? RetryCount - 1)%Z
            then mkRun [] 0 (Throw error)
            else after_sleep (Delay * 2 ^ Z.of_nat i)%Z
                   (rest_iter todo' (S i))
        end
  end.

Definition Invoke_GitHubREST : Run A E :=
  rest_iter (Z.to_nat RetryCount) 0.
End PowerShell.

(** A rejection that [retryWithBackoff] takes for a secondary rate
    limit. *)
Definition secondary {A} (o : Outcome A JsError) : bool :=
  match o with
  | Rejected e => Str.includes (message e) secondary_marker
  | Resolved _ => false
  end.

Definition rejected {A E} (o : Outcome A E) : bool :=
  match o with
  | Rejected _ => true
  | Resolved _ => false
  end.

(** [r] after [k] earlier invocations that slept [sl]. *)
Definition resumed {A E} (sl : list Z) (k : nat) (r : Run A E) : Run A E :=
  mkRun (sl ++ sleeps r) (k + calls r) (completion r).

Definition delays (d : Z) (i k : nat) : list Z :=
  map (fun j => (d * 2 ^ Z.of_nat j)%Z) (seq i k).

(** A transport that is rate-limited [k] times and then answers [v]. *)
Definition limited_then {A} (k : nat) (v : A) (i : nat) : Outcome A JsError :=
  if (i <? k)%nat
  then Rejected (mkJsError "You have exceeded a secondary rate limit")
  else Resolved v.

(** A transport whose first invocation loses the connection. *)
Definition timeout_then {A} (v : A) (i : nat) : Outcome A JsError :=
  match i with
  | O => Rejected (mkJsError "connect ETIMEDOUT")
  | _ => Resolved v
  end.

(** The delays [d * 2^0, ..., d * 2^(k-1)]. *)
Definition backoff (d : Z) (k : nat) : list Z :=
  map (fun i => (d * 2 ^ Z.of_nat i)%Z) (seq 0 k).

End Retry.

(** ** Paged retrieval *)

Module Paging.

(** *** REST list endpoints, addressed by page number *)

(** A finished REST traversal: the page numbers requested, oldest first,
    and what was assembled. *)
Record Fetched (St : Type) : Type := mkFetched {
  requests : list Z;
  assembled : St
}.
Arguments mkFetched {St} requests assembled.
Arguments requests {St} f.
Arguments assembled {St} f.

Definition requested {St} (page : Z) (o : option (Fetched St)) : option (Fetched St) :=
  match o with
  | Some f => Some (mkFetched (page :: requests f) (assembled f))
  | None => None
  end.

Section PowerShellRest.
Context {A : Type}.
(** [Invoke-GitHubREST] on the URI of page [page], once it has
    succeeded: the parsed JSON array. *)
Variable Invoke_GitHubREST : Z -> list A.

(** Steps 2 and 5, and the two loops of step 6:
    [do { $resp = ...; if ($resp) { $repos += $resp }; $page++ }
     while ($resp.Count -eq 100)].
    An array of JSON objects is true exactly when it is not empty.
    [fuel] bounds the number of requests; [None] is a traversal still
    running when it is spent. *)
Fixpoint rest_do_while (fuel : nat) (page : Z) (repos : list A)
  : option (Fetched (list A)) :=
  match fuel with
  | O => None
  | S fuel' =>
      let resp := Invoke_GitHubREST page in
      let repos' := match resp with [] => repos | _ => repos ++ resp end in
      if (Z.of_nat (length resp) =? 100)%Z
      then requested page (rest_do_while fuel' (page + 1)%Z repos')
      else Some (mkFetched [page] repos')
  end.

(** [$repos = @(); $page = 1; do ... while ...]. *)
Definition list_all (fuel : nat) : option (Fetched (list A)) :=
  rest_do_while fuel 1%Z [].
End PowerShellRest.

(** Step 8 of the report: [Invoke-GitHubREST] once on
    [.../collaborators?affiliation=$Affil&per_page=100], without [page]
    and without a loop: what comes back is the first page. *)
Definition collaborators_request {A} (Invoke_GitHubREST : Z -> list A) : Fetched (list A) :=
  mkFetched [1%Z] (Invoke_GitHubREST 1%Z).

(** What the [catch] of [repoNames] hands to [core.setFailed]: the error
    that [retryWithBackoff] throws, or the [TypeError] of
    [const { data: repos } = undefined] when [retryWithBackoff] leaves its
    loop without an attempt. *)
Inductive Caught : Type :=
| Thrown (error : Retry.JsError)
| DestructuredUndefined.

(** How [repoNames] ends: the pages it asked for, oldest first, what it
    gave [core.setFailed] if anything, and [collabsArray]. *)
Record Ended (St : Type) : Type := mkEnded {
  asked : list Z;
  setFailed : option Caught;
  array : St
}.
Arguments mkEnded {St} asked setFailed array.
Arguments asked {St} e.
Arguments setFailed {St} e.
Arguments array {St} e.

Definition asked_before {St} (page : Z) (o : option (Ended St)) : option (Ended St) :=
  match o with
  | Some e => Some (mkEnded (page :: asked e) (setFailed e) (array e))
  | None => None
  end.

(** [getRateLimitSleep(response.headers)]: the file calls this function
    and neither declares it nor takes it from a module, so evaluating the
    call throws [ReferenceError: getRateLimitSleep is not defined]. *)
Definition getRateLimitSleep : Retry.Outcome Z Retry.JsError :=
  Retry.Rejected (Retry.mkJsError "getRateLimitSleep is not defined").

Section JavaScriptRest.
Context {A St : Type}.
(** [octokit.rest.repos.listForOrg({ org, type, per_page, page })]: the
    outcome of its [k]-th invocation for a page, [response.data] when it
    resolves. *)
Variable listForOrg : Z -> Z -> nat -> Retry.Outcome (list A) Retry.JsError.
(** What the loop does with one repository: [collabRole] on the
    collaborator array. *)
Variable collabRole : A -> St -> St.

Definition perPage : Z := 20.

(** The function that [repoNames] gives [retryWithBackoff]:
    [await listForOrg(...)], then [getRateLimitSleep(response.headers)],
    a sleep when it asks for one, and [return response]. *)
Definition listForOrg_then_sleep (page : Z) (k : nat)
  : Retry.Outcome (list A) Retry.JsError :=
  match listForOrg perPage page k with
  | Retry.Rejected error => Retry.Rejected error
  | Retry.Resolved response =>
      match getRateLimitSleep with
      | Retry.Rejected error => Retry.Rejected error
      | Retry.Resolved sleepMs => Retry.Resolved response
      end
  end.

(** [while (morePages)] of [repoNames] inside its [try]: an empty page
    stops the loop, any other page is processed and followed by the next
    request; what [retryWithBackoff] throws ends the function in its
    [catch]. [None] is a loop still running after [fuel] pages. *)
Fixpoint repoNames_while (fuel : nat) (page : Z) (collabsArray : St)
  : option (Ended St) :=
  match fuel with
  | O => None
  | S fuel' =>
      match Retry.completion
              (Retry.retryWithBackoff (listForOrg_then_sleep page) 5 2000) with
      | Retry.Return repos =>
          if (Z.of_nat (length repos) =? 0)%Z
          then Some (mkEnded [page] None collabsArray)
          else asked_before page
                 (repoNames_while fuel' (page + 1)%Z
                    (fold_left (fun acc repo => collabRole repo acc) repos collabsArray))
      | Retry.Throw error => Some (mkEnded [page] (Some (Thrown error)) collabsArray)
      | Retry.LoopExit => Some (mkEnded [page] (Some DestructuredUndefined) collabsArray)
      end
  end.

Definition repoNames (fuel : nat) (collabsArray : St) : option (Ended St) :=
  repoNames_while fuel 1%Z collabsArray.
End JavaScriptRest.

(** A list endpoint over a fixed collection: page [page] (from 1) of
    [items] cut into pages of [per_page]. *)
Definition rest_source {A} (items : list A) (per_page : Z) (page : Z) : list A :=
  firstn (Z.to_nat per_page) (skipn (Z.to_nat ((page - 1) * per_page)) items).

(** A [listForOrg] that answers every request from a fixed collection. *)
Definition answering {A} (items : list A) (per_page page : Z) (k : nat)
  : Retry.Outcome (list A) Retry.JsError :=
  Retry.Resolved (rest_source items per_page page).

(** *** GraphQL connections, addressed by cursor *)

(** One response: [edges] (or [nodes]) and [pageInfo]. *)
Record Connection (A C : Type) : Type := mkConnection {
  edges : list A;
  hasNextPage : bool;
  endCursor : option C
}.
Arguments mkConnection {A C} edges hasNextPage endCursor.
Arguments edges {A C} c.
Arguments hasNextPage {A C} c.
Arguments endCursor {A C} c.

Section JavaScriptCursor.
Context {A C St : Type}.
(** [octokit.graphql({ query, ..., cursorID })], once it has succeeded;
    [None] is the [null] cursor of the first request. *)
Variable graphql : option C -> Connection A C.
(** The rest of the body of [for (const item of items)], after the
    cursor assignment. *)
Variable body : A -> St -> St.

(** One turn of [for (const item of items)]: the cursor is assigned
    first, from the page's [pageInfo], then the item is handled. *)
Definition item_turn (dataJSON : Connection A C) (st : option C * St) (item : A)
  : option C * St :=
  (if hasNextPage dataJSON then endCursor dataJSON else None,
   body item (snd st)).

(** [do { dataJSON = ...; hasNextPage = ...; for (...) {...} }
     while (hasNextPage)], the loop of [repoNames] (GraphQL variant),
    [collabRole], [ssoEmail] and [membersWithRole].  [None] is a loop
    still running after [fuel] requests. *)
Fixpoint cursor_do_while (fuel : nat) (cursor : option C) (acc : St)
  : option (list (option C) * St) :=
  match fuel with
  | O => None
  | S fuel' =>
      let dataJSON := graphql cursor in
      let st := fold_left (item_turn dataJSON) (edges dataJSON) (cursor, acc) in
      if hasNextPage dataJSON
      then match cursor_do_while fuel' (fst st) (snd st) with
           | Some (asked, out) => Some (cursor :: asked, out)
           | None => None
           end
      else Some ([cursor], snd st)
  end.
End JavaScriptCursor.

Section PowerShellCursor.
Context {A C St : Type}.
(** [Invoke-GitHubGraphQL] with [cursor = $endCursor], once it has
    succeeded. *)
Variable Invoke_GitHubGraphQL : option C -> Connection A C.
Variable body : A -> St -> St.

(** [do { ...; foreach ($edge in $edges) {...};
         $endCursor = $pi.endCursor } while ($pi.hasNextPage)]
    of step 4 and of [Get-GitHubOrgSSOEmails]. *)
Fixpoint ps_cursor_do_while (fuel : nat) (endCursor_ : option C) (acc : St)
  : option (list (option C) * St) :=
  match fuel with
  | O => None
  | S fuel' =>
      let result := Invoke_GitHubGraphQL endCursor_ in
      let acc' := fold_left (fun a edge => body edge a) (edges result) acc in
      if hasNextPage result
      then match ps_cursor_do_while fuel' (endCursor result) acc' with
           | Some (asked, out) => Some (endCursor_ :: asked, out)
           | None => None
           end
      else Some ([endCursor_], acc')
  end.
End PowerShellCursor.

(** A connection over a fixed sequence of pages: the cursor handed out
    with page [i] asks for page [i + 1]; every page but the last reports
    [hasNextPage]. An empty sequence answers as one empty last page. *)
Definition cursor_index (cursor : option nat) : nat :=
  match cursor with None => 0 | Some c => c end.

Definition paged_connection {A} (pages : list (list A)) (cursor : option nat)
  : Connection A nat :=
  let i := cursor_index cursor in
  mkConnection (nth i pages []) (S i <? length pages)%nat (Some (S i)).

(** The page numbers [j + 1, ..., j + n]. *)
Definition page_numbers (j n : nat) : list Z := map Z.of_nat (seq (S j) n).

(** A fixed collection cut into pages of [size]. *)
Fixpoint chunks {A} (fuel : nat) (size : nat) (items : list A) : list (list A) :=
  match fuel, items with
  | O, _ | _, [] => []
  | S fuel', _ => firstn size items :: chunks fuel' size (skipn size items)
  end.

Definition pages_of {A} (size : nat) (items : list A) : list (list A) :=
  chunks (length items) size items.

(** Every page that reports a next page has an item. *)
Definition nonfinal_nonempty {A} (pages : list (list A)) : Prop :=
  forall i, (S i < length pages)%nat -> nth i pages [] <> [].

(** *** The cursor loops of the action and of the report *)

(** [membersWithRole]: [memberArray.push({ login, role })]. *)
Record MemberEdge : Type := mkMemberEdge { node_login : string; edge_role : string }.
Record Member : Type := mkMember { member_login : string; role : string }.

Definition membersWithRole {C} (graphql : option C -> Connection MemberEdge C)
    (fuel : nat) (memberArray : list Member) :=
  cursor_do_while graphql
    (fun member arr => arr ++ [mkMember (node_login member) (edge_role member)])
    fuel None memberArray.

(** [ssoEmail]: an external identity is [node { samlIdentity { nameId }
    user { login } }]; [user] is [null] for an identity that no account
    is linked to. *)
Record User : Type := mkUser { user_login : string }.
Record ExternalIdentity : Type := mkExternalIdentity {
  nameId : string;
  user : option User
}.
Record SsoEmail : Type := mkSsoEmail { sso_login : string; ssoEmail_ : string }.

(** [if (!email.node.user) continue; ...; emailArray.push({ login, ssoEmail })]. *)
Definition ssoEmail_body (email : ExternalIdentity) (emailArray : list SsoEmail)
  : list SsoEmail :=
  match user email with
  | None => emailArray
  | Some u => emailArray ++ [mkSsoEmail (user_login u) (nameId email)]
  end.

Definition ssoEmail {C} (graphql : option C -> Connection ExternalIdentity C)
    (fuel : nat) (emailArray : list SsoEmail) :=
  cursor_do_while graphql ssoEmail_body fuel None emailArray.

(** The entries that a sequence of identities gives: one for each
    identity with a linked account, in order. *)
Definition linked (identities : list ExternalIdentity) : list SsoEmail :=
  flat_map (fun identity =>
              match user identity with
              | Some u => [mkSsoEmail (user_login u) (nameId identity)]
              | None => []
              end)
    identities.

(** [repoNames], GraphQL variant: [await collabRole(repo, collabsArray)]
    for each repository of the page. *)
Definition repoNames_graphql {Repo C St} (graphql : option C -> Connection Repo C)
    (collabRole : Repo -> St -> St) (fuel : nat) (collabsArray : St) :=
  cursor_do_while graphql collabRole fuel None collabsArray.

(** [Get-GitHubOrgSSOEmails], once the provider is known to exist: the
    cursor loop with [foreach ($edge in $edges)
    { if ($edge.node.user) { $emailArray += ... } }]. *)
Definition Get_GitHubOrgSSOEmails {C}
    (Invoke_GitHubGraphQL : option C -> Connection ExternalIdentity C)
    (fuel : nat) :=
  ps_cursor_do_while Invoke_GitHubGraphQL ssoEmail_body fuel None [].

End Paging.

(** ** Permission vocabulary *)

Module Perm.

(** The values of [$permissionDisplay], the names the report prints. *)
Inductive PermissionLevel : Type := read | triage | write | maintain | admin.

(** The keys of [$permissionDisplay], the flags of the REST API's
    [permissions] object. *)
Inductive PermKey : Type := key_pull | key_push | key_admin | key_maintain | key_triage.

#[export] Instance PermissionLevel_eq_dec : EqDecision PermissionLevel.
Proof. solve_decision. Defined.

#[export] Instance PermKey_eq_dec : EqDecision PermKey.
Proof. solve_decision. Defined.

(** [$permissionDisplay = @{ "pull" = "read"; "push" = "write";
    "admin" = "admin"; "maintain" = "maintain"; "triage" = "triage" }]. *)
Definition permissionDisplay (k : PermKey) : PermissionLevel :=
  match k with
  | key_pull => read
  | key_push => write
  | key_admin => admin
  | key_maintain => maintain
  | key_triage => triage
  end.

Definition key_name (k : PermKey) : string :=
  match k with
  | key_pull => "pull"
  | key_push => "push"
  | key_admin => "admin"
  | key_maintain => "maintain"
  | key_triage => "triage"
  end.

Definition display_name (p : PermissionLevel) : string :=
  match p with
  | read => "read"
  | triage => "triage"
  | write => "write"
  | maintain => "maintain"
  | admin => "admin"
  end.

(** [$order = @("read", "triage", "write", "maintain", "admin")]. *)
Definition order : list PermissionLevel := [read; triage; write; maintain; admin].

(** [Array.IndexOf]: the first position of [x], or [-1]. *)
Fixpoint IndexOf_from {A} `{EqDecision A} (l : list A) (x : A) (i : Z) : Z :=
  match l with
  | [] => (-1)%Z
  | y :: l' => if decide (y = x) then i else IndexOf_from l' x (i + 1)%Z
  end.

Definition IndexOf (p : PermissionLevel) : Z := IndexOf_from order p 0%Z.

(** The [permissions] object of a collaborator or of a team repository:
    one boolean per flag. *)
Record Permissions : Type := mkPermissions {
  pull : bool; push : bool; f_admin : bool; f_maintain : bool; f_triage : bool
}.

(** [$permissions.$key]. *)
Definition flag (p : Permissions) (k : PermKey) : bool :=
  match k with
  | key_pull => pull p
  | key_push => push p
  | key_admin => f_admin p
  | key_maintain => f_maintain p
  | key_triage => f_triage p
  end.

(** What [$object.$name] finds beside the properties of the parsed JSON:
    PowerShell also resolves the members that every object has
    ([psobject], [pstypenames], [ToString], [GetType] and the like), and
    such a member is true in a condition. Which names these are is the
    runtime's business; a name that is neither a property nor such a
    member reads as [$null]. *)
Class Runtime : Type := { intrinsic_member : string -> bool }.

(** [$permissions.$s] in a condition: the flag whose name is [s] up to
    case, or else whether the runtime resolves [s] to a member. *)
Definition flag_named `{Runtime} (p : Permissions) (s : string) : bool :=
  match List.find (fun k => Str.ps_eq (key_name k) s)
          [key_pull; key_push; key_admin; key_maintain; key_triage] with
  | Some k => flag p k
  | None => intrinsic_member s
  end.

(** Step 8 of the report with teams:
    [$directPerm = ""; foreach ($permKeyAPI in $permissionDisplay.Keys)
     { if ($permissions.$permKeyAPI) { $directPerm = $permissionDisplay[$permKeyAPI] } }].
    [Keys] is the order in which the hashtable enumerates its keys;
    [None] is the empty string. *)
Definition directPerm_scan (Keys : list PermKey) (permissions : Permissions)
  : option PermissionLevel :=
  fold_left
    (fun directPerm permKeyAPI =>
       if flag permissions permKeyAPI
       then Some (permissionDisplay permKeyAPI)
       else directPerm)
    Keys None.

(** The older report:
    [if ($Permission -eq "ALL") { foreach ($key in $permissions.PSObject.Properties)
       { if ($key.Value) { $matchedPermission = $key.Name; break } } }
     else { if ($permissions.$permKey) { $matchedPermission = $permKey } }].
    [Properties] is the order of the properties of the parsed object;
    [None] is the empty string, which [$matchedPermission] also is when
    [$permKey] is empty. *)
Definition matchedPermission_scan `{Runtime} (Properties : list PermKey)
    (Permission : string) (permissions : Permissions) : option string :=
  if Str.ps_eq Permission "ALL"
  then option_map key_name (List.find (flag permissions) Properties)
  else
    let permKey := Str.ToLower Permission in
    if flag_named permissions permKey
    then (if String.eqb permKey "" then None else Some permKey)
    else None.

(** The highest level among the flags that are set. *)
Definition highest (permissions : Permissions) : option PermissionLevel :=
  List.find (fun p => existsb (fun k => flag permissions k
                                   && bool_decide (permissionDisplay k = p))
                        [key_pull; key_push; key_admin; key_maintain; key_triage])
    (rev order).

(** Step 6: [$repoPerm.permissions | Get-Member -MemberType NoteProperty |
    Where-Object { $repoPerm.permissions."$($_.Name)" } | ForEach-Object { $_.Name }]:
    the names of the flags that are set, in [Get-Member]'s order by name. *)
Definition true_flags (permissions : Permissions) : list PermKey :=
  List.filter (flag permissions)
    [key_admin; key_maintain; key_pull; key_push; key_triage].

(** An example runtime: it resolves the hidden member sets and the
    methods of [System.Object], which PowerShell finds on every object,
    and no other name. *)
Definition example_runtime : Runtime :=
  {| intrinsic_member := fun s =>
       existsb (String.eqb (Str.ToLower s))
         ["psobject"; "psbase"; "psadapted"; "psextended"; "pstypenames";
          "tostring"; "gettype"; "equals"; "gethashcode"] |}.

End Perm.

(** ** The report with team support (PowerShell, steps 6 to 12) *)

Module Report.
Import Perm.

(** What a property read yields when the object read from may be one
    object or an array of them. A string field that holds [$null] is the
    empty string. *)
Inductive PSValue : Type :=
| PSString (s : string)
| PSArray (l : list string).

(** [$objs.prop] after [$objs = ... | Where-Object {...}], guarded by
    [if ($objs) {...} else { default }]: nothing found gives the
    default, one object its property, several the array of theirs. *)
Definition member_access (found : list string) (default : string) : PSValue :=
  match found with
  | [] => PSString default
  | [v] => PSString v
  | _ => PSArray found
  end.

(** [-not $v -or $v -eq ""]. On an array [-eq] selects the elements that
    are equal, and an array is true when it has two elements or one true
    element. *)
Definition is_blank (v : PSValue) : bool :=
  match v with
  | PSString s => bool_decide (s = "")
  | PSArray l =>
      match l with
      | [] => true
      | [s] => bool_decide (s = "")
      | _ => (2 <=? length (List.filter (Str.ps_eq "") l))%nat
      end
  end.

(** A row of the report, the [PSCustomObject] of steps 7 and 8. *)
Record Row : Type := mkRow {
  orgRepo : string;
  login : string;
  name : string;
  ssoEmail : PSValue;
  verifiedEmail : string;
  permission : PermissionLevel;
  org : string;
  orgpermission : PSValue;
  viaTeam : string
}.

Record TeamRepo : Type := mkTeamRepo { tr_name : string; tr_permissions : Permissions }.
Record TeamRepoPerm : Type := mkTeamRepoPerm {
  trp_repo : string; trp_team : string; trp_permission : list PermKey
}.
Record TeamMember : Type := mkTeamMember { tm_team : string; tm_login : string }.
Record Collab : Type := mkCollab {
  c_login : string; c_name : string; c_permissions : Permissions
}.

(** The key of [$rowsByKey]: ["$($c.orgRepo):$($c.login)"], which the
    hashtable compares without case. *)
Definition key_of (repo user : string) : string :=
  Str.ToLower (repo +:+ ":" +:+ user).

Definition rowKey (r : Row) : string := key_of (orgRepo r) (login r).

(** [$hash[$login]] on a hashtable filled by
    [foreach ($x in $list) { $hash[$x.login] = $x.value }]. *)
Definition hash_of (entries : list (string * string)) : gmap string string :=
  fold_left (fun h e => <[Str.ToLower (fst e) := snd e]> h) entries ∅.

Definition hash_get (h : gmap string string) (k : string) : string :=
  default "" (h !! Str.ToLower k).

Section Steps.
(** Parameters of the script. *)
Variables (Org Permission : string) (FetchNames : bool).
(** The order in which [$permissionDisplay.Keys] enumerates. *)
Variable Keys : list PermKey.
(** Results of the calls, once they have succeeded: the collaborators
    of a repository, the public name of a user, the users with verified
    emails and those emails joined. *)
Variable collaborators : string -> list Collab.
Variable Get_GitHubUserName : string -> string.
Variable verifiedEmails : list (string * string).
(** Steps 2 to 5: repository names, SSO identities, members, and the
    teams with their repositories and members. *)
Variable repos : list string.
Variable emailArray : list Paging.SsoEmail.
Variable memberArray : list Paging.Member.

Definition permKey : string := Str.ToLower Permission.

(** Step 6. *)
Definition teamRepoPerms_of (teams : list string) (team_repos : string -> list TeamRepo)
  : list TeamRepoPerm :=
  flat_map (fun teamSlug =>
              map (fun repoPerm =>
                     mkTeamRepoPerm (tr_name repoPerm) teamSlug
                       (true_flags (tr_permissions repoPerm)))
                  (team_repos teamSlug))
    teams.

Definition teamMembers_of (teams : list string) (team_members : string -> list string)
  : list TeamMember :=
  flat_map (fun teamSlug => map (mkTeamMember teamSlug) (team_members teamSlug)) teams.

(** Step 7: one row per team repository, member of the team and flag. *)
Definition teamUserRepoPerms (teamRepoPerms : list TeamRepoPerm)
    (teamMembers : list TeamMember) : list Row :=
  flat_map (fun trp =>
    let repoName := trp_repo trp in
    let teamSlug := trp_team trp in
    let permissions := trp_permission trp in
    let members := List.filter (fun m => Str.ps_eq (tm_team m) teamSlug) teamMembers in
    flat_map (fun member =>
      map (fun perm =>
             mkRow repoName (tm_login member) "" (PSString "") ""
               (permissionDisplay perm) Org (PSString "") teamSlug)
          permissions)
      members)
    teamRepoPerms.

(** [$memberArray | Where-Object { $_.login -eq $login }], then
    [if ($member) { $member.role } else { "OUTSIDE COLLABORATOR" }]. *)
Definition memberValue_of (user : string) : PSValue :=
  member_access
    (map Paging.role
       (List.filter (fun m => Str.ps_eq (Paging.member_login m) user) memberArray))
    "OUTSIDE COLLABORATOR".

Definition ssoEmailValue_of (user : string) : PSValue :=
  member_access
    (map Paging.ssoEmail_
       (List.filter (fun e => Str.ps_eq (Paging.sso_login e) user) emailArray))
    "".

(** Step 8, the body of [foreach ($collab in $collabs)]: the rows it
    adds to [$collabsArray]. The test
    [($Permission -eq "ALL" -and $directPerm) -or ($permKey -eq $directPerm)]
    fails on an empty [$directPerm], [$Permission] being mandatory and
    so not empty. *)
Definition collab_rows (repo : string) (collab : Collab) : list Row :=
  let user := c_login collab in
  let name0 := c_name collab in
  let name1 := if FetchNames && Str.IsNullOrWhiteSpace name0
               then Get_GitHubUserName user else name0 in
  match directPerm_scan Keys (c_permissions collab) with
  | None => []
  | Some directPerm =>
      if Str.ps_eq Permission "ALL" || Str.ps_eq permKey (display_name directPerm)
      then [mkRow repo user name1 (ssoEmailValue_of user) "" directPerm Org
              (memberValue_of user) ""]
      else []
  end.

(** Step 8: [$collabsArray]. One request per repository, without
    paging. *)
Definition collabsArray : list Row :=
  flat_map (fun repo => flat_map (collab_rows repo) (collaborators repo)) repos.

(** Step 9, [foreach ($c in $collabsArray) { $rowsByKey[$key] = $c }]. *)
Definition seed (rows : list Row) : gmap string Row :=
  fold_left (fun rowsByKey c => <[rowKey c := c]> rowsByKey) rows ∅.

(** [$rowsByKey[$key].viaTeam += ",$($t.viaTeam)"]. *)
Definition add_viaTeam (current t : Row) : Row :=
  mkRow (orgRepo current) (login current) (name current) (ssoEmail current)
    (verifiedEmail current) (permission current) (org current)
    (orgpermission current) (viaTeam current +:+ "," +:+ viaTeam t).

(** Step 9, the body of [foreach ($t in $teamUserRepoPerms)]. *)
Definition merge_team (rowsByKey : gmap string Row) (t : Row) : gmap string Row :=
  let key := rowKey t in
  match rowsByKey !! key with
  | Some current =>
      let curIdx := IndexOf (permission current) in
      let teamIdx := IndexOf (permission t) in
      if (teamIdx >? curIdx)%Z then <[key := t]> rowsByKey
      else if (teamIdx =? curIdx)%Z && negb (Str.IsNullOrWhiteSpace (viaTeam t))
           then <[key := add_viaTeam current t]> rowsByKey
           else rowsByKey
  | None => <[key := t]> rowsByKey
  end.

Definition merge (direct teamRows : list Row) : gmap string Row :=
  fold_left merge_team teamRows (seed direct).

(** [$allRows = $rowsByKey.Values], in the map's order of keys; the
    script does not depend on the order a hashtable enumerates in, and
    sorts by repository at the end. *)
Definition Values (rowsByKey : gmap string Row) : list Row :=
  map snd (map_to_list rowsByKey).

(** Steps 10 and 11, the body of [foreach ($row in $allRows)]. *)
Definition enrich (row : Row) : Row :=
  let name1 := if bool_decide (name row = "")
               then Get_GitHubUserName (login row) else name row in
  let orgpermission1 := if is_blank (orgpermission row)
                        then memberValue_of (login row) else orgpermission row in
  mkRow (orgRepo row) (login row) name1
    (PSString (hash_get
                 (hash_of (map (fun s => (Paging.sso_login s, Paging.ssoEmail_ s)) emailArray))
                 (login row)))
    (hash_get (hash_of verifiedEmails) (login row))
    (permission row) (org row) orgpermission1 (viaTeam row).

(** Step 12: [if ($Permission -ne "ALL")
    { $allRows = $allRows | Where-Object { $_.permission -eq $permKey } }]. *)
Definition filter_rows (allRows : list Row) : list Row :=
  if negb (Str.ps_eq Permission "ALL")
  then List.filter (fun r => Str.ps_eq (display_name (permission r)) permKey) allRows
  else allRows.

(** Steps 7 to 12 in sequence. Step 13 sorts the rows by [orgRepo] and
    writes them out. *)
Definition report (teamRepoPerms : list TeamRepoPerm) (teamMembers : list TeamMember)
  : list Row :=
  let teamRows := teamUserRepoPerms teamRepoPerms teamMembers in
  let rowsByKey := merge collabsArray teamRows in
  filter_rows (map enrich (Values rowsByKey)).
End Steps.

(** The rows of a report that belong to one (repository, user) pair. *)
Definition same_pair (repo user : string) (r : Row) : bool :=
  Str.ps_eq (orgRepo r) repo && Str.ps_eq (login r) user.

Definition rows_for (repo user : string) (rows : list Row) : list Row :=
  List.filter (same_pair repo user) rows.

(** [r] is the grant [g], up to the teams noted in [viaTeam]. *)
Definition same_grant (g r : Row) : Prop :=
  orgRepo g = orgRepo r /\ login g = login r /\ name g = name r
  /\ ssoEmail g = ssoEmail r /\ verifiedEmail g = verifiedEmail r
  /\ permission g = permission r /\ org g = org r
  /\ orgpermission g = orgpermission r.

(** Every row of [rowsByKey] stands under its own key. *)
Definition keyed (rowsByKey : gmap string Row) : Prop :=
  forall k r, rowsByKey !! k = Some r -> rowKey r = k.

(** Every row of [rowsByKey] is one of the grants [G]. *)
Definition from_grants (G : list Row) (rowsByKey : gmap string Row) : Prop :=
  forall k r, rowsByKey !! k = Some r -> exists g, In g G /\ same_grant g r.

(** [rowsByKey] has, for each grant of [G], a row at least as high. *)
Definition dominates (G : list Row) (rowsByKey : gmap string Row) : Prop :=
  forall g, In g G ->
    exists r, rowsByKey !! rowKey g = Some r
              /\ (IndexOf (permission g) <= IndexOf (permission r))%Z.

(** Every team grant of [T] that is as high as the row under its key
    has its team in the row's [viaTeam]. *)
Definition teams_noted (T : list Row) (m : gmap string Row) : Prop :=
  forall t r,
    In t T -> Str.IsNullOrWhiteSpace (viaTeam t) = false ->
    m !! rowKey t = Some r -> permission r = permission t ->
    Str.includes (viaTeam r) (viaTeam t) = true.

(** A small organisation: [alice] is a direct collaborator of [web] with
    write access; team [A] administers [web], team [B] writes to it;
    [alice] is in both teams and [bob] in [B]. *)
Definition example_direct : list Row :=
  [mkRow "web" "alice" "Alice" (PSString "") "" write "acme" (PSString "MEMBER") ""].

Definition example_teamRepoPerms : list TeamRepoPerm :=
  [mkTeamRepoPerm "web" "A" [key_admin; key_maintain; key_pull; key_push; key_triage];
   mkTeamRepoPerm "web" "B" [key_pull; key_push; key_triage]].

Definition example_teamMembers : list TeamMember :=
  [mkTeamMember "A" "alice"; mkTeamMember "B" "alice"; mkTeamMember "B" "bob"].

(** The row that team [B] gives [alice] for its write access. *)
Definition example_tie : Row :=
  mkRow "web" "alice" "" (PSString "") "" write "acme" (PSString "") "B".

(** The login of a member as [-eq] sees it. *)
Definition lower_login (m : Paging.Member) : string :=
  Str.ToLower (Paging.member_login m).


(** Keys in rising order of their levels. *)
Definition rising_keys : list PermKey :=
  [key_pull; key_triage; key_push; key_maintain; key_admin].

(** [alice] as a direct collaborator with read access only, and as an
    administrator. *)
Definition example_reader (repo : string) : list Collab :=
  [mkCollab "alice" "Alice" (mkPermissions true false false false false)].

Definition example_administrator (repo : string) : list Collab :=
  [mkCollab "alice" "Alice" (mkPermissions true true true true true)].


Definition example_members : list Paging.Member :=
  [Paging.mkMember "alice" "ADMIN"].

End Report.

(** ** The action (JavaScript): collection filter and [mergeArrays] *)

Module Action.

(** An edge of [collaborators]: [node { login name
    organizationVerifiedDomainEmails }] and [permission], one of the
    GraphQL names [ADMIN], [MAINTAIN], [WRITE], [TRIAGE], [READ]. *)
Record RoleEdge : Type := mkRoleEdge {
  role_login : string;
  role_name : option string;
  role_emails : option (list string);
  role_permission : string
}.

Record RepoInfo : Type := mkRepoInfo { repo_name : string; repo_visibility : string }.

(** An element of [collabsArray]. *)
Record Collab : Type := mkCollab {
  orgRepo : string;
  login : string;
  name : string;
  verifiedEmail : string;
  permission : string;
  visibility : string;
  org : string
}.

(** An element of [mergeArray], the object [ssoCollab]. *)
Record SsoCollab : Type := mkSsoCollab {
  m_orgRepo : string;
  m_login : string;
  m_name : string;
  ssoEmailValue : string;
  m_verifiedEmail : string;
  m_permission : string;
  m_org : string;
  memberValue : string
}.

(** [emails.join(', ')]. *)
Fixpoint join (sep : string) (l : list string) : string :=
  match l with
  | [] => ""
  | [s] => s
  | s :: l' => s +:+ sep +:+ join sep l'
  end.

Section Collect.
(** The inputs [permission] and [org] of the action. *)
Variables (rolePermission org_ : string).

(** The body of [for (const role of roles)] in [collabRole], after the
    cursor assignment. *)
Definition collabRole_body (repo : RepoInfo) (role : RoleEdge)
    (collabsArray : list Collab) : list Collab :=
  let name_ := match role_name role with Some n => n | None => "" end in
  let verifiedEmail_ := match role_emails role with
                        | Some emails => join ", " emails
                        | None => ""
                        end in
  let row := mkCollab (repo_name repo) (role_login role) name_ verifiedEmail_
               (role_permission role) (repo_visibility repo) org_ in
  if String.eqb (role_permission role) rolePermission
  then collabsArray ++ [row]
  else if String.eqb rolePermission "ALL"
       then collabsArray ++ [row]
       else collabsArray.

(** [collabRole]: the cursor loop over the collaborators of [repo]. *)
Definition collabRole {C} (graphql : option C -> Paging.Connection RoleEdge C)
    (fuel : nat) (repo : RepoInfo) (collabsArray : list Collab) :=
  Paging.cursor_do_while graphql (collabRole_body repo) fuel None collabsArray.
End Collect.

(** The body of [collabsArray.forEach((collab) => {...})] in
    [mergeArrays]: [find] returns the first element that matches. *)
Definition ssoCollab_of (emailArray : list Paging.SsoEmail)
    (memberArray : list Paging.Member) (collab : Collab) : SsoCollab :=
  let ssoEmail := List.find (fun email => String.eqb (Paging.sso_login email) (login collab))
                    emailArray in
  let ssoEmailValue_ := match ssoEmail with
                        | Some e => Paging.ssoEmail_ e
                        | None => ""
                        end in
  let member := List.find (fun member => String.eqb (Paging.member_login member) (login collab))
                  memberArray in
  let memberValue_ := match member with
                      | Some m => Paging.role m
                      | None => "OUTSIDE COLLABORATOR"
                      end in
  mkSsoCollab (orgRepo collab) (login collab) (name collab) ssoEmailValue_
    (verifiedEmail collab) (permission collab) (org collab) memberValue_.

Definition mergeArrays (collabsArray : list Collab) (emailArray : list Paging.SsoEmail)
    (mergeArray : list SsoCollab) (memberArray : list Paging.Member) : list SsoCollab :=
  fold_left (fun acc collab => acc ++ [ssoCollab_of emailArray memberArray collab])
    collabsArray mergeArray.

End Action.

(** ** The client's headers (PowerShell) *)

Module Client.

(** A hashtable of headers: [@{}] compares the names without case, so
    the map is on the lower-cased name. *)
Definition header (name value : string) (h : gmap string string) : gmap string string :=
  <[Str.ToLower name := value]> h.

(** [foreach ($key in $src.Keys) { $merged[$key] = $src[$key] }], in the
    order the hashtable enumerates its keys. *)
Definition copy_keys (src merged : gmap string string) : gmap string string :=
  fold_left (fun merged key => <[key := default "" (src !! key)]> merged)
    (map fst (map_to_list src)) merged.

(** [Merge-Headers]: [$override] is [$null] ([None]) or a hashtable. *)
Definition Merge_Headers (base : gmap string string) (override : option (gmap string string))
  : gmap string string :=
  let merged := copy_keys base ∅ in
  match override with
  | Some o => copy_keys o merged
  | None => merged
  end.

(** A hashtable after [foreach ($e in $es) { $h[key $e] = val $e }]. *)
Definition fill {A V} (key : A -> string) (val : A -> V) (es : list A)
    (h : gmap string V) : gmap string V :=
  fold_left (fun h e => <[key e := val e]> h) es h.

(** [$defaultHeaders] of [Invoke-GitHubREST] and [Invoke-GitHubGraphQL]. *)
Definition defaultHeaders (Token : string) : gmap string string :=
  header "Authorization" ("token " +:+ Token)
    (header "Accept" "application/vnd.github+json"
       (header "User-Agent" "PowerShell-GitHub-Action" ∅)).

End Client.

(** ** SSO identities with their failure paths (PowerShell) *)

Module Sso.
Import Paging.

(** What [Invoke-GitHubGraphQL] gives its caller once its retries are
    over: the data, or the error it throws, with its message. *)
Inductive Answer (A : Type) : Type :=
| Answered (a : A)
| Failed (Message : string).
Arguments Answered {A} a.
Arguments Failed {A} Message.

(** How a function ends: with a value, or with an error thrown on. *)
Inductive Ended (A : Type) : Type :=
| Done (a : A)
| Raised (Message : string).
Arguments Done {A} a.
Arguments Raised {A} Message.

(** [$errMsg -like "*text*"] for a text without wildcard characters:
    the message contains the text, case apart. *)
Definition like_contains (errMsg text : string) : bool :=
  Str.includes (Str.ToLower errMsg) (Str.ToLower text).

(** The test of both [catch] blocks:
    [$errMsg -like "*SAML identity provider is disabled when an Enterprise
     SAML identity provider is available*" -or $errMsg -like "*FORBIDDEN*"]. *)
Definition enterprise_saml (errMsg : string) : bool :=
  like_contains errMsg
    "SAML identity provider is disabled when an Enterprise SAML identity provider is available"
  || like_contains errMsg "FORBIDDEN".

Section Pages.
Context {C : Type}.
(** The query of one page: an error, a response without
    [samlIdentityProvider] ([None]), or the page. *)
Variable Invoke_GitHubGraphQL : option C -> Answer (option (Connection ExternalIdentity C)).

(** The [do ... while ($pi.hasNextPage)] of [Get-GitHubOrgSSOEmails]:
    an error leaves the function, a response without provider breaks the
    loop. [None] is a loop still running after [fuel] requests. *)
Fixpoint sso_do_while (fuel : nat) (endCursor_ : option C) (emailArray : list SsoEmail)
  : option (Ended (list SsoEmail)) :=
  match fuel with
  | O => None
  | S fuel' =>
      match Invoke_GitHubGraphQL endCursor_ with
      | Failed errMsg => Some (Raised errMsg)
      | Answered None => Some (Done emailArray)
      | Answered (Some result) =>
          let emailArray' :=
            fold_left (fun a edge => ssoEmail_body edge a) (edges result) emailArray in
          if hasNextPage result
          then sso_do_while fuel' (endCursor result) emailArray'
          else Some (Done emailArray')
      end
  end.

(** [Get-GitHubOrgSSOEmails]. [ssoData] is the answer to the provider
    query: whether [organization.samlIdentityProvider] is there. *)
Definition Get_GitHubOrgSSOEmails (ssoData : Answer bool) (fuel : nat)
  : option (Ended (list SsoEmail)) :=
  match ssoData with
  | Failed errMsg =>
      if enterprise_saml errMsg then Some (Done []) else Some (Raised errMsg)
  | Answered false => Some (Done [])
  | Answered true => sso_do_while fuel None []
  end.

(** Step 3: [try { $emailArray = Get-GitHubOrgSSOEmails ... } catch {...}],
    the same test on what the function throws. *)
Definition step3 (ssoData : Answer bool) (fuel : nat) : option (Ended (list SsoEmail)) :=
  match Get_GitHubOrgSSOEmails ssoData fuel with
  | Some (Raised errMsg) =>
      if enterprise_saml errMsg then Some (Done []) else Some (Raised errMsg)
  | ended => ended
  end.
End Pages.

(** The pages of a fixed sequence as answers that all carry the
    provider. *)
Definition answered_pages (pages : list (list ExternalIdentity)) (cursor : option nat)
  : Answer (option (Connection ExternalIdentity nat)) :=
  Answered (Some (paged_connection pages cursor)).

(** A provider whose pages all report a next page, the request after
    the last of them failing with [errMsg]. *)
Definition pages_then_failed (pages : list (list ExternalIdentity)) (errMsg : string)
    (cursor : option nat) : Answer (option (Connection ExternalIdentity nat)) :=
  let i := cursor_index cursor in
  match nth_error pages i with
  | Some page => Answered (Some (mkConnection page true (Some (S i))))
  | None => Failed errMsg
  end.

(** Step 4, the members loop of the report:
    [$memberArray += [PSCustomObject]@{ login = $edge.node.login; role = $edge.role }]. *)
Definition step4 {C} (Invoke_GitHubGraphQL : option C -> Connection MemberEdge C) (fuel : nat) :=
  ps_cursor_do_while Invoke_GitHubGraphQL
    (fun edge memberArray => memberArray ++ [mkMember (node_login edge) (edge_role edge)])
    fuel None [].

End Sso.

(** ** Waiting for the rate limit (PowerShell) *)

Module RateLimit.

(** The hashtable that [Get-RateLimit] returns. *)
Record RateInfo : Type := mkRateInfo { remaining : Z; reset : Z }.

(** [Get-RateLimit]: the [core] numbers of [/rate_limit], or, when the
    request fails, no request left and a reset 60 seconds from [now], the
    clock in the [catch] in Unix seconds. *)
Definition Get_RateLimit (resp : Sso.Answer RateInfo) (now : Z) : RateInfo :=
  match resp with
  | Sso.Answered content => content
  | Sso.Failed _ => mkRateInfo 0 (now + 60)
  end.

(** [Wait-IfRateLimited]: the seconds given to [Start-Sleep], [None]
    when it does not sleep. [now'] is the clock read once [Get-RateLimit]
    has returned. *)
Definition Wait_IfRateLimited (resp : Sso.Answer RateInfo) (now now' : Z) : option Z :=
  let rateInfo := Get_RateLimit resp now in
  if (remaining rateInfo <? 5)%Z
  then let waitSeconds := (reset rateInfo - now')%Z in
       if (waitSeconds >? 0)%Z then Some waitSeconds else None
  else None.

End RateLimit.

(** ** Verified emails (PowerShell, step 10) *)

Module Verified.
Import Report.

(** [if ($emails)] on the array of verified emails: an empty array is
    false, an array of one string is as true as the string. *)
Definition truthy (emails : list string) : bool :=
  match emails with
  | [] => false
  | [e] => negb (String.eqb e "")
  | _ => true
  end.

(** [Get-GitHubOrgVerifiedEmails]: one query per login; an error is
    caught and logged, and the next login is asked for. *)
Definition Get_GitHubOrgVerifiedEmails (query : string -> Sso.Answer (list string))
    (Logins : list string) : list (string * string) :=
  flat_map (fun user =>
              match query user with
              | Sso.Answered emails =>
                  if truthy emails then [(user, Action.join ", " emails)] else []
              | Sso.Failed _ => []
              end)
    Logins.

(** [Select-Object -Unique]: the first occurrence of each value, case
    counting. *)
Definition Unique (values : list string) : list string :=
  fold_left (fun seen v => if existsb (String.eqb v) seen then seen else seen ++ [v])
    values [].

(** Step 10: [$uniqueLogins = $allRows | Select-Object -ExpandProperty
    login -Unique], then the verified emails of these logins. *)
Definition step10 (query : string -> Sso.Answer (list string)) (allRows : list Row)
  : list (string * string) :=
  Get_GitHubOrgVerifiedEmails query (Unique (map login allRows)).

(** A query that fails for [carol] and finds two emails for anyone else. *)
Definition example_query (user : string) : Sso.Answer (list string) :=
  if String.eqb user "carol" then Sso.Failed "timeout"
  else Sso.Answered [user +:+ "@example.org"; user +:+ "@example.com"].

(** Rows of [alice] on two repositories and of [carol] on one. *)
Definition example_rows : list Row :=
  [mkRow "web" "alice" "" (PSString "") "" Perm.admin "acme" (PSString "") "";
   mkRow "api" "carol" "" (PSString "") "" Perm.write "acme" (PSString "") "";
   mkRow "api" "alice" "" (PSString "") "" Perm.read "acme" (PSString "") ""].

End Verified.

(** ** The older report (PowerShell), step 5 *)

Module Legacy.
Import Perm.

Record Repo : Type := mkRepo { repo_name : string; repo_visibility : string }.

Record Row : Type := mkRow {
  orgRepo : string;
  visibility : string;
  login : string;
  name : string;
  ssoEmail : Report.PSValue;
  publicEmail : string;
  permission : string;
  org : string;
  orgpermission : Report.PSValue
}.

Section Step5.
Context `{Perm.Runtime}.
Variables (Org Permission : string).
(** The order of the properties of a [permissions] object. *)
Variable Properties : list PermKey.
Variable collaborators : string -> list Report.Collab.
Variable emailArray : list Paging.SsoEmail.
Variable memberArray : list Paging.Member.

(** The body of [foreach ($collab in $collabs)]: a row when
    [$matchedPermission] is not empty. *)
Definition collab_rows (repo : Repo) (collab : Report.Collab) : list Row :=
  let user := Report.c_login collab in
  match matchedPermission_scan Properties Permission (Report.c_permissions collab) with
  | None => []
  | Some matchedPermission =>
      [mkRow (repo_name repo) (repo_visibility repo) user (Report.c_name collab)
         (Report.ssoEmailValue_of emailArray user) "" matchedPermission Org
         (Report.memberValue_of memberArray user)]
  end.

(** Step 5: [$collabsArray], what the older report exports. *)
Definition collabsArray (repos : list Repo) : list Row :=
  flat_map (fun repo => flat_map (collab_rows repo) (collaborators (repo_name repo))) repos.
End Step5.

End Legacy.

(** ** The affiliation audit (PowerShell) *)

Module Audit.
Import Paging.

(** A node of [membersWithRole] or of [collaborators]. *)
Record MemberNode : Type := mkMemberNode { m_login : string; m_role : string }.
Record CollabNode : Type := mkCollabNode { c_login : string; c_permission : string }.

Record Row : Type := mkRow {
  Repository : string;
  Username : string;
  Permission : string;
  Affiliation : string
}.

(** Step 1: [$members[$m.login] = $m.role] for the nodes of every page. *)
Definition members_of {C} (Invoke_GitHubGraphQL : option C -> Connection MemberNode C)
    (fuel : nat) :=
  ps_cursor_do_while Invoke_GitHubGraphQL
    (fun m (members : gmap string string) => <[Str.ToLower (m_login m) := m_role m]> members)
    fuel None ∅.

(** [$affil = if ($members.ContainsKey($c.login))
      { if ($members[$c.login] -eq "ADMIN") { "Owner" } else { "Member" } }
    else { "Outside" }]. *)
Definition affil (members : gmap string string) (user : string) : string :=
  match members !! Str.ToLower user with
  | Some r => if Str.ps_eq r "ADMIN" then "Owner" else "Member"
  | None => "Outside"
  end.

(** Step 3 for one repository: a row per collaborator of every page. *)
Definition repo_rows {C} (members : gmap string string) (repo : string)
    (Invoke_GitHubGraphQL : option C -> Connection CollabNode C) (fuel : nat)
    (report : list Row) :=
  ps_cursor_do_while Invoke_GitHubGraphQL
    (fun c report => report ++ [mkRow repo (c_login c) (c_permission c)
                                  (affil members (c_login c))])
    fuel None report.

End Audit.

(** ** The action's rows *)

Module ActionRows.
Import Action.

(** The object that [collabRole] pushes for an edge. *)
Definition collab_of (org_ : string) (repo : RepoInfo) (role : RoleEdge) : Collab :=
  mkCollab (repo_name repo) (role_login role)
    (match role_name role with Some n => n | None => "" end)
    (match role_emails role with Some emails => join ", " emails | None => "" end)
    (role_permission role) (repo_visibility repo) org_.

(** [role.permission === rolePermission], or else [rolePermission === 'ALL']. *)
Definition passes (rolePermission : string) (role : RoleEdge) : bool :=
  String.eqb (role_permission role) rolePermission || String.eqb rolePermission "ALL".

(** What [mergeArrays] copies from a collected row. *)
Definition copied (row : SsoCollab) : string * string * string * string * string * string :=
  (m_orgRepo row, m_login row, m_name row, m_verifiedEmail row, m_permission row, m_org row).

Definition collected (collab : Collab) : string * string * string * string * string * string :=
  (orgRepo collab, login collab, name collab, verifiedEmail collab, permission collab,
   org collab).

(** The orchestrator up to [mergeArrays]: [collabsArray] and [mergeArray]
    start empty, [repoNames] works on [collabsArray] and keeps its errors
    to itself, and [mergeArrays] makes the rows that [report] writes.
    [emailArray] and [memberArray] are what [ssoCheck] and
    [membersWithRole] have left. [None] is a [repoNames] still running. *)
Definition mergeArray_of
    (listForOrg : Z -> Z -> nat -> Retry.Outcome (list RepoInfo) Retry.JsError)
    (collabRole_ : RepoInfo -> list Collab -> list Collab)
    (emailArray : list Paging.SsoEmail) (memberArray : list Paging.Member) (fuel : nat)
  : option (list SsoCollab) :=
  match Paging.repoNames listForOrg collabRole_ fuel [] with
  | Some ended => Some (mergeArrays (Paging.array ended) emailArray [] memberArray)
  | None => None
  end.

(** *** [collabRole] with its [catch] *)

Section Caught.
Context {C : Type}.
Variables (rolePermission org_ : string).
(** [retryWithBackoff(...)] in [collabRole], once its retries are over:
    the page, or the error it throws on. *)
Variable graphql : option C -> Sso.Answer (Paging.Connection RoleEdge C).

(** [collabRole] as its caller sees it: it never throws. [failures] are
    the messages given to [core.setFailed]; the rows pushed before an
    error stay in [collabsArray], which the caller shares. [None] is a
    loop still running after [fuel] requests. *)
Fixpoint collabRole_caught (fuel : nat) (repo : RepoInfo) (endCursor_ : option C)
    (failures : list string) (collabsArray : list Collab)
  : option (list string * list Collab) :=
  match fuel with
  | O => None
  | S fuel' =>
      match graphql endCursor_ with
      | Sso.Failed message => Some (failures ++ [message], collabsArray)
      | Sso.Answered dataJSON =>
          let st := fold_left
                      (Paging.item_turn (collabRole_body rolePermission org_ repo) dataJSON)
                      (Paging.edges dataJSON) (endCursor_, collabsArray) in
          if Paging.hasNextPage dataJSON
          then collabRole_caught fuel' repo (fst st) failures (snd st)
          else Some (failures, snd st)
      end
  end.
End Caught.

(** Pages that each report a next page, the request after the last of
    them failing with [message]. *)
Definition pages_then_error {A} (pages : list (list A)) (message : string)
    (cursor : option nat) : Sso.Answer (Paging.Connection A nat) :=
  let i := Paging.cursor_index cursor in
  match nth_error pages i with
  | Some page => Sso.Answered (Paging.mkConnection page true (Some (S i)))
  | None => Sso.Failed message
  end.

End ActionRows.

(** * Properties *)

(** [H : In x [a; b; ...]]: one goal per element, closed by [tac]. *)
Ltac each_member H tac :=
  repeat (destruct H as [<-|H]; [tac|]); destruct H.

(** ** Retry *)

Section RetryFacts.
Import Retry.
Context {A : Type}.

Lemma delays_backoff d k : delays d 0 k = backoff d k.
Proof. reflexivity. Qed.

Lemma resumed_step {E} ms sl k (r : Run A E) :
  after_call (after_sleep ms (resumed sl k r)) = resumed (ms :: sl) (S k) r.
Proof. reflexivity. Qed.

Lemma resumed_nil {E} (r : Run A E) : resumed [] 0 r = r.
Proof. destruct r; reflexivity. Qed.

(** [k] retried failures take the JavaScript loop [k] iterations on,
    having slept [delay * 2^i, ..., delay * 2^(i+k-1)]. *)
Lemma retry_iter_resume (fn : nat -> Outcome A JsError) retries delay k :
  forall todo i,
    (k <= todo)%nat ->
    (forall j, (j < k)%nat ->
               secondary (fn (i + j)%nat) = true /\ Z.of_nat (i + j) <> (retries - 1)%Z) ->
    retry_iter fn retries delay todo i
    = resumed (delays delay i k) k (retry_iter fn retries delay (todo - k) (i + k)).
Proof.
  induction k as [|k IH]; intros todo i Hk Hsec.
  - rewrite Nat.sub_0_r, Nat.add_0_r. symmetry. apply resumed_nil.
  - destruct todo as [|todo]; [lia|].
    destruct (Hsec 0%nat ltac:(lia)) as [Hs Hne]. rewrite Nat.add_0_r in Hs, Hne.
    cbn [retry_iter]. unfold secondary in Hs.
    destruct (fn i) as [a|e]; [discriminate|].
    rewrite Hs. apply Z.eqb_neq in Hne. rewrite Hne. cbn [orb negb].
    rewrite (IH todo (S i)); [|lia|].
    + rewrite resumed_step. cbn [delays seq map].
      replace (S todo - S k)%nat with (todo - k)%nat by lia.
      replace (i + S k)%nat with (S i + k)%nat by lia. reflexivity.
    + intros j Hj. replace (S i + j)%nat with (i + S j)%nat by lia.
      apply Hsec. lia.
Qed.

(** The same for the PowerShell loop, whatever the errors are. *)
Lemma rest_iter_resume {E} (web : nat -> Outcome A E) RetryCount Delay k :
  forall todo i,
    (k <= todo)%nat ->
    (forall j, (j < k)%nat ->
               rejected (web (i + j)%nat) = true /\ Z.of_nat (i + j) <> (RetryCount - 1)%Z) ->
    rest_iter web RetryCount Delay todo i
    = resumed (delays Delay i k) k (rest_iter web RetryCount Delay (todo - k) (i + k)).
Proof.
  induction k as [|k IH]; intros todo i Hk Hrej.
  - rewrite Nat.sub_0_r, Nat.add_0_r. symmetry. apply resumed_nil.
  - destruct todo as [|todo]; [lia|].
    destruct (Hrej 0%nat ltac:(lia)) as [Hs Hne]. rewrite Nat.add_0_r in Hs, Hne.
    cbn [rest_iter]. unfold rejected in Hs.
    destruct (web i) as [a|e]; [discriminate|].
    apply Z.eqb_neq in Hne. rewrite Hne.
    rewrite (IH todo (S i)); [|lia|].
    + rewrite resumed_step. cbn [delays seq map].
      replace (S todo - S k)%nat with (todo - k)%nat by lia.
      replace (i + S k)%nat with (S i + k)%nat by lia. reflexivity.
    + intros j Hj. replace (S i + j)%nat with (i + S j)%nat by lia.
      apply Hrej. lia.
Qed.

(** Attempt [k] of the JavaScript wrapper after [k] secondary rate
    limits, [k] below the retry count: what attempt [k] decides. *)
Lemma retryWithBackoff_attempt (fn : nat -> Outcome A JsError) retries delay k :
  (Z.of_nat k < retries)%Z ->
  (forall j, (j < k)%nat -> secondary (fn j) = true) ->
  retryWithBackoff fn retries delay
  = resumed (backoff delay k) k
      (after_call
         match fn k with
         | Resolved a => mkRun [] 0 (Return a)
         | Rejected error =>
             if (Z.of_nat k =? retries - 1)%Z
                || negb (Str.includes (message error) secondary_marker)
             then mkRun [] 0 (Throw error)
             else after_sleep (delay * 2 ^ Z.of_nat k)%Z
                    (retry_iter fn retries delay (Z.to_nat retries - S k) (S k))
         end).
Proof.
  intros Hk Hsec. unfold retryWithBackoff.
  rewrite (retry_iter_resume fn retries delay k); [|lia|].
  - rewrite delays_backoff. cbn [Nat.add].
    destruct (Z.to_nat retries - k)%nat as [|todo] eqn:Htodo; [lia|].
    cbn [retry_iter]. replace (Z.to_nat retries - S k)%nat with todo by lia.
    reflexivity.
  - intros j Hj. cbn [Nat.add]. split; [auto|lia].
Qed.

Lemma Invoke_GitHubREST_attempt {E} (web : nat -> Outcome A E) RetryCount Delay k :
  (Z.of_nat k < RetryCount)%Z ->
  (forall j, (j < k)%nat -> rejected (web j) = true) ->
  Invoke_GitHubREST web RetryCount Delay
  = resumed (backoff Delay k) k
      (after_call
         match web k with
         | Resolved a => mkRun [] 0 (Return a)
         | Rejected error =>
             if (Z.of_nat k =? RetryCount - 1)%Z
             then mkRun [] 0 (Throw error)
             else after_sleep (Delay * 2 ^ Z.of_nat k)%Z
                    (rest_iter web RetryCount Delay (Z.to_nat RetryCount - S k) (S k))
         end).
Proof.
  intros Hk Hrej. unfold Invoke_GitHubREST.
  rewrite (rest_iter_resume web RetryCount Delay k); [|lia|].
  - rewrite delays_backoff. cbn [Nat.add].
    destruct (Z.to_nat RetryCount - k)%nat as [|todo] eqn:Htodo; [lia|].
    cbn [rest_iter]. replace (Z.to_nat RetryCount - S k)%nat with todo by lia.
    reflexivity.
  - intros j Hj. cbn [Nat.add]. split; [auto|lia].
Qed.

Lemma secondary_rejected (o : Outcome A JsError) : secondary o = true -> rejected o = true.
Proof. destruct o; [discriminate|reflexivity]. Qed.

Lemma resumed_done {E} sl k (c : Completion A E) :
  resumed sl k (after_call (mkRun [] 0 c)) = mkRun sl (S k) c.
Proof.
  unfold resumed, after_call. cbn. rewrite app_nil_r, Nat.add_1_r. reflexivity.
Qed.

(** Attempt [k] after [k] secondary rate limits: an answer is returned by
    both wrappers. *)
Lemma attempt_answer (fn : nat -> Outcome A JsError) retries delay k v :
  (Z.of_nat k < retries)%Z ->
  (forall j, (j < k)%nat -> secondary (fn j) = true) ->
  fn k = Resolved v ->
  retryWithBackoff fn retries delay = mkRun (backoff delay k) (S k) (Return v)
  /\ Invoke_GitHubREST fn retries delay = mkRun (backoff delay k) (S k) (Return v).
Proof.
  intros Hk Hsec Hv.
  assert (Hrej : forall j, (j < k)%nat -> rejected (fn j) = true)
    by (intros j Hj; apply secondary_rejected; auto).
  rewrite (retryWithBackoff_attempt fn retries delay k Hk Hsec).
  rewrite (Invoke_GitHubREST_attempt fn retries delay k Hk Hrej).
  rewrite Hv, !resumed_done. auto.
Qed.

(** A failure of the last attempt is thrown by both wrappers. *)
Lemma last_attempt_failure (fn : nat -> Outcome A JsError) retries delay k e :
  (forall j, (j < k)%nat -> secondary (fn j) = true) ->
  Z.of_nat k = (retries - 1)%Z ->
  fn k = Rejected e ->
  retryWithBackoff fn retries delay = mkRun (backoff delay k) (S k) (Throw e)
  /\ Invoke_GitHubREST fn retries delay = mkRun (backoff delay k) (S k) (Throw e).
Proof.
  intros Hsec Hlast He.
  assert (Hk : (Z.of_nat k < retries)%Z) by lia.
  assert (Hrej : forall j, (j < k)%nat -> rejected (fn j) = true)
    by (intros j Hj; apply secondary_rejected; auto).
  rewrite (retryWithBackoff_attempt fn retries delay k Hk Hsec).
  rewrite (Invoke_GitHubREST_attempt fn retries delay k Hk Hrej).
  apply Z.eqb_eq in Hlast. rewrite He, Hlast. cbn [orb].
  rewrite !resumed_done. auto.
Qed.
End RetryFacts.

Section RetryClaims.
Import Retry.

(** What both wrappers do with their count. With retry count [retries]
    and base delay [delay], they make at most [retries] attempts and sleep
    [delay * 2^i] after failed attempt [i] (from 0) unless it is the last:
    after [k] secondary rate limits, [k] below the retry count, an answer
    at attempt [k] is returned, having slept [delay * 2^0 .. 2^(k-1)];
    and when attempt [k] is the last one ([k = retries - 1]) and fails,
    so that the call has failed [retries] times, its error is thrown. *)
Theorem retry_succeeds_within_count_attempts
    {A} (fn : nat -> Outcome A JsError) (retries delay : Z) (k : nat) :
  (Z.of_nat k < retries)%Z ->
  (forall j, (j < k)%nat -> secondary (fn j) = true) ->
  (forall v, fn k = Resolved v ->
     retryWithBackoff fn retries delay = mkRun (backoff delay k) (S k) (Return v)
     /\ Invoke_GitHubREST fn retries delay = mkRun (backoff delay k) (S k) (Return v))
  /\ (forall e, Z.of_nat k = (retries - 1)%Z -> fn k = Rejected e ->
     retryWithBackoff fn retries delay = mkRun (backoff delay k) (S k) (Throw e)
     /\ Invoke_GitHubREST fn retries delay = mkRun (backoff delay k) (S k) (Throw e)).
Proof.
  intros Hk Hsec. split.
  - intros v Hv. exact (attempt_answer fn retries delay k v Hk Hsec Hv).
  - intros e Hlast He. exact (last_attempt_failure fn retries delay k e Hsec Hlast He).
Qed.

(** The defaults: four rate limits, then an answer at the fifth and last
    attempt. *)
Lemma retry_succeeds_within_count_attempts_witness :
  retryWithBackoff (limited_then 4 42%nat) 5 2000
  = mkRun [2000; 4000; 8000; 16000]%Z 5 (Return 42%nat)
  /\ Invoke_GitHubREST (limited_then 4 42%nat) 5 2000
     = mkRun [2000; 4000; 8000; 16000]%Z 5 (Return 42%nat).
Proof.
  refine (proj1 (retry_succeeds_within_count_attempts
                   (limited_then 4 42%nat) 5 2000 4 _ _) 42%nat _).
  - lia.
  - intros j Hj. do 4 (destruct j as [|j]; [reflexivity|]). lia.
  - reflexivity.
Defined.

(** C5 fails on the code. The count is documented as the number of
    retries ([.PARAMETER RetryCount]: number of retries for API calls,
    default 5; the JavaScript parameter is [retries]), and both loops
    make that many attempts, one retry fewer. With the defaults, a call
    that is rate-limited five times and would answer at its sixth
    invocation is given up at the fifth failure, after sleeps of 2, 4, 8
    and 16 seconds: the sixth invocation is never made. It takes a count
    of 6 for the five retries of the claim. *)
Theorem retry_count_is_the_number_of_attempts :
  let fn := limited_then 5 42%nat in
  let error := mkJsError "You have exceeded a secondary rate limit" in
  retryWithBackoff fn 5 2000 = mkRun [2000; 4000; 8000; 16000]%Z 5 (Throw error)
  /\ Invoke_GitHubREST fn 5 2000 = mkRun [2000; 4000; 8000; 16000]%Z 5 (Throw error)
  /\ retryWithBackoff fn 6 2000
     = mkRun [2000; 4000; 8000; 16000; 32000]%Z 6 (Return 42%nat)
  /\ Invoke_GitHubREST fn 6 2000
     = mkRun [2000; 4000; 8000; 16000; 32000]%Z 6 (Return 42%nat).
Proof. repeat split. Qed.

(** A call that is rate-limited exactly [n] times and would answer at
    the next invocation is never invoked again. *)
Lemma retry_after_count_failures_counterexample :
  ~ (forall (fn : nat -> Outcome nat JsError) (n : nat) (d : Z) (v : nat),
       (forall j, (j < n)%nat -> secondary (fn j) = true) ->
       fn n = Resolved v ->
       completion (retryWithBackoff fn (Z.of_nat n) d) = Return v).
Proof.
  intros H.
  specialize (H (limited_then 5 42%nat) 5%nat 2000%Z 42%nat).
  assert (Hsec : forall j, (j < 5)%nat -> secondary (limited_then 5 42%nat j) = true).
  { intros j Hj. do 5 (destruct j as [|j]; [reflexivity|]). lia. }
  specialize (H Hsec eq_refl). vm_compute in H. discriminate H.
Qed.

(** C6, as the code has it. After [k] secondary rate limits, [k] below
    the retry count, let attempt [k] fail with error [e]. In JavaScript an
    [e] that is not a secondary rate limit (a transient network error,
    say) is thrown at once. In PowerShell any [e] before the last attempt
    is slept on and the call repeated. In both, a failure of the last
    attempt is thrown, whatever its kind. *)
Theorem retry_only_secondary_in_action
    {A} (fn : nat -> Outcome A JsError) (retries delay : Z) (k : nat) (e : JsError) :
  (Z.of_nat k < retries)%Z ->
  (forall j, (j < k)%nat -> secondary (fn j) = true) ->
  fn k = Rejected e ->
  (Str.includes (message e) secondary_marker = false ->
     retryWithBackoff fn retries delay = mkRun (backoff delay k) (S k) (Throw e))
  /\ ((Z.of_nat k < retries - 1)%Z ->
      forall v, fn (S k) = Resolved v ->
        Invoke_GitHubREST fn retries delay
        = mkRun (backoff delay (S k)) (S (S k)) (Return v))
  /\ (Z.of_nat k = (retries - 1)%Z ->
      retryWithBackoff fn retries delay = mkRun (backoff delay k) (S k) (Throw e)
      /\ Invoke_GitHubREST fn retries delay = mkRun (backoff delay k) (S k) (Throw e)).
Proof.
  intros Hk Hsec He.
  assert (Hrej : forall j, (j < k)%nat -> rejected (fn j) = true)
    by (intros j Hj; apply secondary_rejected; auto).
  split; [|split].
  - intros Hkind.
    rewrite (retryWithBackoff_attempt fn retries delay k Hk Hsec), He, Hkind.
    rewrite orb_true_r. apply resumed_done.
  - intros Hnext v Hv.
    rewrite (Invoke_GitHubREST_attempt fn retries delay (S k)); [|lia|].
    + rewrite Hv. apply resumed_done.
    + intros j Hj. destruct (decide (j = k)) as [->|Hne].
      * rewrite He. reflexivity.
      * apply Hrej. lia.
  - intros Hlast.
    exact (last_attempt_failure fn retries delay k e Hsec Hlast He).
Qed.

(** A lost connection at the first of five attempts, and at the only
    attempt. *)
Lemma retry_only_secondary_in_action_witness :
  retryWithBackoff (timeout_then 7%nat) 5 2000
  = mkRun [] 1 (Throw (mkJsError "connect ETIMEDOUT"))
  /\ Invoke_GitHubREST (timeout_then 7%nat) 5 2000 = mkRun [2000%Z] 2 (Return 7%nat)
  /\ Invoke_GitHubREST (timeout_then 7%nat) 1 2000
     = mkRun [] 1 (Throw (mkJsError "connect ETIMEDOUT")).
Proof.
  assert (Hnone : forall j, (j < 0)%nat -> secondary (timeout_then 7%nat j) = true)
    by (intros j Hj; lia).
  destruct (retry_only_secondary_in_action (timeout_then 7%nat) 5 2000 0
              (mkJsError "connect ETIMEDOUT") ltac:(lia) Hnone eq_refl)
    as [Hjs [Hps _]].
  destruct (retry_only_secondary_in_action (timeout_then 7%nat) 1 2000 0
              (mkJsError "connect ETIMEDOUT") ltac:(lia) Hnone eq_refl)
    as [_ [_ Hlast]].
  split; [|split].
  - apply Hjs. reflexivity.
  - apply (Hps ltac:(lia) 7%nat eq_refl).
  - apply (Hlast eq_refl).
Defined.

(** C6 as stated fails in the action: the first transient error is
    thrown, though four attempts are left and the next would answer. *)
Lemma transient_error_not_retried_counterexample :
  ~ (forall (fn : nat -> Outcome nat JsError) (retries d : Z) (e : JsError) (v : nat),
       (1 < retries)%Z ->
       fn 0%nat = Rejected e ->
       fn 1%nat = Resolved v ->
       completion (retryWithBackoff fn retries d) = Return v).
Proof.
  intros H.
  specialize (H (timeout_then 7%nat) 5%Z 2000%Z (mkJsError "connect ETIMEDOUT") 7%nat
                ltac:(lia) eq_refl eq_refl).
  vm_compute in H. discriminate H.
Qed.
End RetryClaims.

(** ** Paged retrieval *)

Section PagingFacts.
Import Paging.

Lemma div_bounds (n d : nat) :
  (0 < d)%nat -> (d * (n / d) <= n /\ n < d * S (n / d))%nat.
Proof.
  intros Hd. pose proof (Nat.div_mod_eq n d) as Heq.
  pose proof (Nat.mod_upper_bound n d ltac:(lia)) as Hlt. nia.
Qed.

(** The page of a fixed collection that request [S j] answers. *)
Lemma rest_source_page {A} (items : list A) (per_page j : nat) :
  rest_source items (Z.of_nat per_page) (Z.of_nat (S j))
  = firstn per_page (skipn (j * per_page) items).
Proof.
  unfold rest_source. rewrite Nat2Z.id. f_equal. f_equal. lia.
Qed.

Lemma rest_source_100 {A} (items : list A) (j : nat) :
  rest_source items 100 (Z.of_nat (S j)) = firstn 100 (skipn (j * 100) items).
Proof. exact (rest_source_page items 100 j). Qed.

Lemma skipn_skipn_mul {A} (items : list A) (per_page j : nat) :
  skipn per_page (skipn (j * per_page) items) = skipn (S j * per_page) items.
Proof. rewrite skipn_skipn. f_equal; lia. Qed.

Lemma requested_some {St} page (rq : list Z) (st : St) :
  requested page (Some (mkFetched rq st)) = Some (mkFetched (page :: rq) st).
Proof. reflexivity. Qed.

(** The PowerShell loop from request [S j], with [m] full pages left. *)
Lemma rest_do_while_source {A} (items : list A) m :
  forall j repos fuel,
    (100 * m <= length (skipn (j * 100) items) < 100 * S m)%nat ->
    (m < fuel)%nat ->
    rest_do_while (rest_source items 100) fuel (Z.of_nat (S j)) repos
    = Some (mkFetched (page_numbers j (S m)) (repos ++ skipn (j * 100) items)).
Proof.
  induction m as [|m IH]; intros j repos fuel Hlen Hfuel;
    (destruct fuel as [|fuel]; [lia|]); cbn [rest_do_while];
    rewrite rest_source_100;
    set (rest := skipn (j * 100) items) in *.
  - rewrite firstn_all2 by lia.
    destruct (Z.eqb_spec (Z.of_nat (length rest)) 100) as [Heq|_]; [lia|].
    f_equal. f_equal. destruct rest; [rewrite app_nil_r|]; reflexivity.
  - assert (Hfull : length (firstn 100 rest) = 100%nat) by (rewrite length_firstn; lia).
    rewrite Hfull. change (Z.of_nat 100 =? 100)%Z with true. cbv iota.
    replace (Z.of_nat (S j) + 1)%Z with (Z.of_nat (S (S j))) by lia.
    assert (Hne : firstn 100 rest <> []) by (intros E; rewrite E in Hfull; discriminate).
    destruct (firstn 100 rest) as [|x page] eqn:Hpage; [congruence|].
    rewrite (IH (S j) (repos ++ x :: page) fuel); [| |lia].
    + rewrite requested_some. f_equal. f_equal.
      rewrite <- Hpage, <- app_assoc. f_equal.
      subst rest. rewrite <- skipn_skipn_mul. apply firstn_skipn.
    + subst rest. rewrite <- skipn_skipn_mul, length_skipn. lia.
Qed.

(** *** The action's REST loop *)

(** A wrapped call that never resolves makes [retryWithBackoff] throw. *)
Lemma retry_iter_throws {A} (fn : nat -> Retry.Outcome A Retry.JsError) retries delay :
  (forall k, exists error, fn k = Retry.Rejected error) ->
  forall todo i,
    (i + todo = Z.to_nat retries)%nat -> (0 < todo)%nat ->
    exists error,
      Retry.completion (Retry.retry_iter fn retries delay todo i) = Retry.Throw error.
Proof.
  intros Hfn. induction todo as [|todo IH]; intros i Hsum Hpos; [lia|].
  cbn [Retry.retry_iter]. destruct (Hfn i) as [error ->].
  destruct ((Z.of_nat i =? retries - 1)%Z
            || negb (Str.includes (Retry.message error) Retry.secondary_marker)) eqn:Hguard.
  - exists error. reflexivity.
  - apply orb_false_elim in Hguard. destruct Hguard as [Hlast _].
    apply Z.eqb_neq in Hlast.
    destruct (IH (S i)) as [e He]; [lia|lia|]. exists e. exact He.
Qed.

Lemma listForOrg_then_sleep_rejected {A}
    (listForOrg : Z -> Z -> nat -> Retry.Outcome (list A) Retry.JsError) page k :
  exists error, listForOrg_then_sleep listForOrg page k = Retry.Rejected error.
Proof.
  unfold listForOrg_then_sleep.
  destruct (listForOrg perPage page k); eexists; reflexivity.
Qed.

Lemma listForOrg_then_sleep_secondary {A}
    (listForOrg : Z -> Z -> nat -> Retry.Outcome (list A) Retry.JsError) page j :
  Retry.secondary (listForOrg perPage page j) = true ->
  Retry.secondary (listForOrg_then_sleep listForOrg page j) = true.
Proof.
  unfold listForOrg_then_sleep.
  destruct (listForOrg perPage page j); [discriminate|auto].
Qed.

(** Whatever [listForOrg] does, one turn of the loop ends [repoNames] in
    its [catch], with [collabsArray] as it was. *)
Lemma repoNames_while_caught {A St}
    (listForOrg : Z -> Z -> nat -> Retry.Outcome (list A) Retry.JsError)
    (collabRole : A -> St -> St) fuel page collabsArray :
  exists error,
    repoNames_while listForOrg collabRole (S fuel) page collabsArray
    = Some (mkEnded [page] (Some (Thrown error)) collabsArray).
Proof.
  cbn [repoNames_while]. unfold Retry.retryWithBackoff.
  destruct (retry_iter_throws (listForOrg_then_sleep listForOrg page) 5 2000
              (listForOrg_then_sleep_rejected listForOrg page) (Z.to_nat 5) 0
              eq_refl ltac:(lia)) as [error ->].
  exists error. reflexivity.
Qed.

(** After [k] secondary rate limits, the first answer of [listForOrg] is
    followed by the call of [getRateLimitSleep], whose error is thrown
    at once. *)
Lemma listForOrg_answer_thrown {A}
    (listForOrg : Z -> Z -> nat -> Retry.Outcome (list A) Retry.JsError)
    page k response :
  (k < 5)%nat ->
  (forall j, (j < k)%nat -> Retry.secondary (listForOrg perPage page j) = true) ->
  listForOrg perPage page k = Retry.Resolved response ->
  Retry.retryWithBackoff (listForOrg_then_sleep listForOrg page) 5 2000
  = Retry.mkRun (Retry.backoff 2000 k) (S k)
      (Retry.Throw (Retry.mkJsError "getRateLimitSleep is not defined")).
Proof.
  intros Hk Hsec Hanswer.
  rewrite (retryWithBackoff_attempt (listForOrg_then_sleep listForOrg page) 5 2000 k);
    [|lia|intros j Hj; apply listForOrg_then_sleep_secondary, Hsec, Hj].
  unfold listForOrg_then_sleep at 1. rewrite Hanswer. cbn [getRateLimitSleep].
  replace (negb (Str.includes
                   (Retry.message (Retry.mkJsError "getRateLimitSleep is not defined"))
                   Retry.secondary_marker)) with true by reflexivity.
  rewrite orb_true_r. apply resumed_done.
Qed.

(** *** Cursor loops *)

(** The per-item loop of the action: the items are handled in order, and
    the cursor is the one of the page only if the page has an item. *)
Lemma fold_item_turn {A C St} (body : A -> St -> St) (d : Connection A C) l :
  forall c acc,
    fold_left (item_turn body d) l (c, acc)
    = (match l with
       | [] => c
       | _ => if hasNextPage d then endCursor d else None
       end,
       fold_left (fun a x => body x a) l acc).
Proof.
  induction l as [|x l IH]; intros c acc; [reflexivity|].
  cbn [fold_left]. unfold item_turn at 2. cbn [snd]. rewrite IH.
  destruct l; reflexivity.
Qed.

Lemma skipn_nth_cons {A} (l : list A) (d : A) i :
  (i < length l)%nat -> skipn i l = nth i l d :: skipn (S i) l.
Proof.
  revert i. induction l as [|x l IH]; intros i Hi; [cbn in Hi; lia|].
  destruct i as [|i]; [reflexivity|]. cbn in Hi. cbn [skipn nth].
  rewrite (IH i) by lia. reflexivity.
Qed.

Lemma concat_from {A} (pages : list (list A)) i :
  concat (skipn i pages) = nth i pages [] ++ concat (skipn (S i) pages).
Proof.
  destruct (Nat.lt_ge_cases i (length pages)) as [Hlt|Hge].
  - rewrite (skipn_nth_cons pages [] i Hlt). reflexivity.
  - rewrite nth_overflow by lia. rewrite !skipn_all2 by lia. reflexivity.
Qed.

Lemma paged_edges {A} (pages : list (list A)) c :
  edges (paged_connection pages c) = nth (cursor_index c) pages [].
Proof. reflexivity. Qed.

Lemma paged_hasNextPage {A} (pages : list (list A)) c :
  hasNextPage (paged_connection pages c) = (S (cursor_index c) <? length pages)%nat.
Proof. reflexivity. Qed.

Lemma paged_endCursor {A} (pages : list (list A)) c :
  endCursor (paged_connection pages c) = Some (S (cursor_index c)).
Proof. reflexivity. Qed.

(** The action's cursor loop over a page sequence whose pages before the
    last all have an item: it asks for each page once and handles the
    items of all pages in order. *)
Lemma cursor_do_while_pages {A St} (body : A -> St -> St) (pages : list (list A)) :
  nonfinal_nonempty pages ->
  forall r cursor acc fuel,
    (length pages - cursor_index cursor <= S r)%nat ->
    (r < fuel)%nat ->
    exists asked,
      cursor_do_while (paged_connection pages) body fuel cursor acc
      = Some (asked,
              fold_left (fun a x => body x a)
                (concat (skipn (cursor_index cursor) pages)) acc).
Proof.
  intros Hne. induction r as [|r IH]; intros cursor acc fuel Hr Hfuel;
    (destruct fuel as [|fuel]; [lia|]); cbn [cursor_do_while];
    rewrite fold_item_turn; cbn [fst snd];
    rewrite ?paged_edges, ?paged_hasNextPage, ?paged_endCursor;
    set (i := cursor_index cursor) in *;
    rewrite (concat_from pages i), fold_left_app.
  - destruct (Nat.ltb_spec (S i) (length pages)) as [Hlt|Hge]; [lia|].
    rewrite skipn_all2 by lia. eauto.
  - destruct (Nat.ltb_spec (S i) (length pages)) as [Hlt|Hge].
    + specialize (Hne i Hlt).
      destruct (nth i pages []) as [|x page] eqn:Hpage; [congruence|].
      destruct (IH (Some (S i)) (fold_left (fun a x => body x a) (x :: page) acc) fuel)
        as [asked Hrun]; [cbn [cursor_index]; lia|lia|].
      rewrite Hrun. cbn [cursor_index]. eauto.
    + rewrite (skipn_all2 pages) by lia. eauto.
Qed.

(** The PowerShell cursor loop over any page sequence. *)
Lemma ps_cursor_do_while_pages {A St} (body : A -> St -> St) (pages : list (list A)) :
  forall r cursor acc fuel,
    (length pages - cursor_index cursor <= S r)%nat ->
    (r < fuel)%nat ->
    exists asked,
      ps_cursor_do_while (paged_connection pages) body fuel cursor acc
      = Some (asked,
              fold_left (fun a x => body x a)
                (concat (skipn (cursor_index cursor) pages)) acc).
Proof.
  induction r as [|r IH]; intros cursor acc fuel Hr Hfuel;
    (destruct fuel as [|fuel]; [lia|]); cbn [ps_cursor_do_while];
    rewrite ?paged_edges, ?paged_hasNextPage, ?paged_endCursor;
    set (i := cursor_index cursor) in *;
    rewrite (concat_from pages i), fold_left_app.
  - destruct (Nat.ltb_spec (S i) (length pages)) as [Hlt|Hge]; [lia|].
    rewrite skipn_all2 by lia. eauto.
  - destruct (Nat.ltb_spec (S i) (length pages)) as [Hlt|Hge].
    + destruct (IH (Some (S i)) (fold_left (fun a x => body x a) (nth i pages []) acc) fuel)
        as [asked Hrun]; [cbn [cursor_index]; lia|lia|].
      rewrite Hrun. cbn [cursor_index]. eauto.
    + rewrite (skipn_all2 pages) by lia. eauto.
Qed.

(** A page without items that reports a next page holds the action's
    loop for ever: the cursor is not assigned, and the same page is asked
    for again. *)
Lemma cursor_do_while_stuck {A C St} (graphql : option C -> Connection A C)
    (body : A -> St -> St) cursor :
  edges (graphql cursor) = [] ->
  hasNextPage (graphql cursor) = true ->
  forall fuel acc, cursor_do_while graphql body fuel cursor acc = None.
Proof.
  intros Hempty Hnext. induction fuel as [|fuel IH]; intros acc; [reflexivity|].
  cbn [cursor_do_while]. rewrite Hempty, Hnext. cbn [fold_left fst snd].
  rewrite IH. reflexivity.
Qed.

Lemma cursor_do_while_diverges {A St} (body : A -> St -> St) (pages : list (list A)) i0 :
  (S i0 < length pages)%nat ->
  nth i0 pages [] = [] ->
  forall d cursor fuel acc,
    (i0 - cursor_index cursor <= d)%nat ->
    (cursor_index cursor <= i0)%nat ->
    cursor_do_while (paged_connection pages) body fuel cursor acc = None.
Proof.
  intros Hi0 Hempty. induction d as [|d IH]; intros cursor fuel acc Hd Hle.
  - assert (cursor_index cursor = i0) as Hc by lia.
    apply cursor_do_while_stuck; unfold paged_connection; cbn [edges hasNextPage];
      rewrite Hc; [exact Hempty|]. apply Nat.ltb_lt. exact Hi0.
  - destruct (nth (cursor_index cursor) pages []) as [|x page] eqn:Hpage.
    + apply cursor_do_while_stuck; unfold paged_connection; cbn [edges hasNextPage];
        [exact Hpage|]. apply Nat.ltb_lt. lia.
    + assert (cursor_index cursor <> i0) as Hne by (intros E; rewrite E in Hpage; congruence).
      destruct fuel as [|fuel]; [reflexivity|]. cbn [cursor_do_while].
      rewrite fold_item_turn. cbn [fst snd].
      rewrite ?paged_edges, ?paged_hasNextPage, ?paged_endCursor.
      rewrite Hpage.
      destruct (Nat.ltb_spec (S (cursor_index cursor)) (length pages)) as [_|Hge]; [|lia].
      rewrite (IH (Some (S (cursor_index cursor)))); [reflexivity| |]; cbn [cursor_index]; lia.
Qed.

(** The action's cursor loop ends on a page sequence exactly when its
    pages before the last all have an item. *)
Lemma cursor_do_while_terminates_iff {A St} (body : A -> St -> St)
    (pages : list (list A)) (acc : St) :
  nonfinal_nonempty pages
  <-> exists fuel, cursor_do_while (paged_connection pages) body fuel None acc <> None.
Proof.
  split.
  - intros Hne. exists (S (length pages)).
    destruct (cursor_do_while_pages body pages Hne (length pages) None acc (S (length pages)))
      as [asked Hrun]; [cbn [cursor_index]; lia|lia|].
    rewrite Hrun. discriminate.
  - intros [fuel Hrun] i Hi Hempty. apply Hrun.
    apply (cursor_do_while_diverges body pages i Hi Hempty i); cbn [cursor_index]; lia.
Qed.

Lemma chunks_concat {A} size :
  (0 < size)%nat ->
  forall fuel (items : list A),
    (length items <= fuel)%nat -> concat (chunks fuel size items) = items.
Proof.
  intros Hsize. induction fuel as [|fuel IH]; intros items Hlen.
  - destruct items; [reflexivity|cbn in Hlen; lia].
  - destruct items as [|x items]; [reflexivity|].
    cbn [chunks concat]. rewrite IH.
    + apply firstn_skipn.
    + rewrite length_skipn. cbn [length] in *. lia.
Qed.

Lemma chunks_nonempty {A} size :
  (0 < size)%nat ->
  forall fuel (items : list A), Forall (fun page => page <> []) (chunks fuel size items).
Proof.
  intros Hsize. induction fuel as [|fuel IH]; intros items; [constructor|].
  destruct items as [|x items]; [constructor|].
  cbn [chunks]. constructor; [|apply IH].
  destruct size; [lia|]. discriminate.
Qed.

Lemma chunks_length {A} size fuel :
  forall items : list A, (length (chunks fuel size items) <= fuel)%nat.
Proof.
  induction fuel as [|fuel IH]; intros items; [cbn; lia|].
  destruct items as [|x items]; [cbn; lia|]. cbn [chunks length].
  specialize (IH (skipn size (x :: items))). lia.
Qed.

Lemma pages_of_nonempty {A} size (items : list A) :
  (0 < size)%nat -> nonfinal_nonempty (pages_of size items).
Proof.
  intros Hsize i Hi.
  pose proof (chunks_nonempty size Hsize (length items) items) as Hall.
  rewrite List.Forall_forall in Hall. apply Hall. apply nth_In. unfold pages_of in Hi. lia.
Qed.

Lemma fold_ssoEmail_body identities :
  forall emailArray,
    fold_left (fun a x => ssoEmail_body x a) identities emailArray
    = emailArray ++ linked identities.
Proof.
  induction identities as [|identity identities IH]; intros emailArray.
  - cbn. rewrite app_nil_r. reflexivity.
  - cbn [fold_left linked flat_map]. rewrite IH. unfold ssoEmail_body.
    destruct (user identity); [|reflexivity].
    rewrite <- app_assoc. reflexivity.
Qed.

Lemma linked_app l1 l2 : linked (l1 ++ l2) = linked l1 ++ linked l2.
Proof. unfold linked. apply flat_map_app. Qed.

Lemma linked_origin entry identities :
  In entry (linked identities) ->
  exists identity u,
    In identity identities /\ user identity = Some u
    /\ sso_login entry = user_login u /\ ssoEmail_ entry = nameId identity.
Proof.
  unfold linked. rewrite List.in_flat_map. intros [identity [Hin Hentry]].
  destruct (user identity) as [u|] eqn:Hu; [|destruct Hentry].
  destruct Hentry as [<-|[]]. exists identity, u. auto.
Qed.
End PagingFacts.

Section PagingClaims.
Import Paging.

(** C7 fails on the code. The PowerShell REST loops (pages of 100) and
    the cursor loops over pages of any size do what the claim says: they
    assemble the items of a fixed collection once each and in order, the
    REST loops going on while a page has exactly 100 items and stopping at
    the first short or empty one. The action's [repoNames] does not: after
    its first answer it calls [getRateLimitSleep], which the file does not
    define, and the [ReferenceError] ends it; page 1 is the only page
    asked for and no repository is handled. Step 8 of the report asks for
    the collaborators of a repository once, 100 at most: of 250 it has the
    first 100. *)
Theorem paged_fetch_conforms_except_action_and_step8 :
  (forall A (items : list A),
     list_all (rest_source items 100) (S (length items / 100))
     = Some (mkFetched (page_numbers 0 (S (length items / 100))) items))
  /\ (forall A St (items : list A) (body : A -> St -> St) (acc : St) (size : nat),
        (0 < size)%nat ->
        (exists asked,
           cursor_do_while (paged_connection (pages_of size items)) body
             (S (length items)) None acc
           = Some (asked, fold_left (fun a x => body x a) items acc))
        /\ (exists asked,
              ps_cursor_do_while (paged_connection (pages_of size items)) body
                (S (length items)) None acc
              = Some (asked, fold_left (fun a x => body x a) items acc)))
  /\ (forall A St (items : list A) (collabRole : A -> St -> St) (acc : St) (fuel : nat),
        repoNames (answering items) collabRole (S fuel) acc
        = Some (mkEnded [1%Z]
                  (Some (Thrown (Retry.mkJsError "getRateLimitSleep is not defined")))
                  acc))
  /\ (forall A (items : list A),
        collaborators_request (rest_source items 100)
        = mkFetched [1%Z] (firstn 100 items))
  /\ list_all (rest_source (seq 0 250) 100) 3 = Some (mkFetched [1; 2; 3]%Z (seq 0 250))
  /\ repoNames (answering (seq 0 250)) (fun repo arr => arr ++ [repo]) 14 []
     = Some (mkEnded [1%Z]
               (Some (Thrown (Retry.mkJsError "getRateLimitSleep is not defined"))) [])
  /\ assembled (collaborators_request (rest_source (seq 0 250) 100)) = seq 0 100.
Proof.
  split; [|split; [|split; [|split; [|split; [|split]]]]].
  - intros A items. unfold list_all.
    pose proof (div_bounds (length items) 100 ltac:(lia)) as Hb.
    rewrite (rest_do_while_source items (length items / 100) 0 [] _); [reflexivity| |lia].
    change (skipn (0 * 100) items) with items. lia.
  - intros A St items body acc size Hsize.
    pose proof (chunks_length size (length items) items) as Hpages.
    fold (pages_of size items) in Hpages. split.
    + destruct (cursor_do_while_pages body (pages_of size items)
                  (pages_of_nonempty size items Hsize)
                  (length items) None acc (S (length items)))
        as [asked Hrun]; [cbn [cursor_index]; lia|lia|].
      exists asked. rewrite Hrun. cbn [cursor_index]. rewrite skipn_O.
      unfold pages_of. rewrite chunks_concat by (auto; lia). reflexivity.
    + destruct (ps_cursor_do_while_pages body (pages_of size items)
                  (length items) None acc (S (length items)))
        as [asked Hrun]; [cbn [cursor_index]; lia|lia|].
      exists asked. rewrite Hrun. cbn [cursor_index]. rewrite skipn_O.
      unfold pages_of. rewrite chunks_concat by (auto; lia). reflexivity.
  - intros A St items collabRole acc fuel. unfold repoNames. cbn [repoNames_while].
    rewrite (listForOrg_answer_thrown (answering items) 1%Z 0%nat
               (rest_source items perPage 1) ltac:(lia) ltac:(intros j Hj; lia) eq_refl).
    reflexivity.
  - intros A items. unfold collaborators_request. f_equal.
  - reflexivity.
  - reflexivity.
  - reflexivity.
Qed.

(** C9. Each cursor loop of the action (organisation members, SSO
    identities, repositories) ends on a page sequence if and only if
    every page that reports a next page has an item: the cursor is
    assigned inside the loop over the items, so a page without items that
    reports a next page is asked for again for ever. For the repositories
    the handling of one repository, [collabRole], is taken to return. *)
Theorem cursor_loops_end_iff_inner_pages_nonempty
    {Repo St} (members : list (list MemberEdge))
    (identities : list (list ExternalIdentity)) (repos : list (list Repo))
    (collabRole : Repo -> St -> St)
    (memberArray : list Member) (emailArray : list SsoEmail) (collabsArray : St) :
  (nonfinal_nonempty members
   <-> exists fuel, membersWithRole (paged_connection members) fuel memberArray <> None)
  /\ (nonfinal_nonempty identities
      <-> exists fuel, ssoEmail (paged_connection identities) fuel emailArray <> None)
  /\ (nonfinal_nonempty repos
      <-> exists fuel,
            repoNames_graphql (paged_connection repos) collabRole fuel collabsArray
            <> None).
Proof.
  split; [|split]; apply cursor_do_while_terminates_iff.
Qed.

(** C10. Over pages of external identities, the action's [ssoEmail] and
    the report's [Get-GitHubOrgSSOEmails] end without an error and add
    exactly one entry per identity with a linked account, in order; every
    entry carries the login of such an account; and an identity without
    one adds nothing, wherever it stands among the others. *)
Theorem sso_entries_have_linked_login
    (pages : list (list ExternalIdentity)) (emailArray : list SsoEmail) :
  nonfinal_nonempty pages ->
  (exists asked,
     ssoEmail (paged_connection pages) (S (length pages)) emailArray
     = Some (asked, emailArray ++ linked (concat pages)))
  /\ (exists asked,
        Get_GitHubOrgSSOEmails (paged_connection pages) (S (length pages))
        = Some (asked, linked (concat pages)))
  /\ (forall entry, In entry (linked (concat pages)) ->
        exists identity u,
          In identity (concat pages) /\ user identity = Some u
          /\ sso_login entry = user_login u /\ ssoEmail_ entry = nameId identity)
  /\ (forall before identity after,
        user identity = None ->
        linked (before ++ identity :: after) = linked (before ++ after)).
Proof.
  intros Hne. split; [|split; [|split]].
  - destruct (cursor_do_while_pages ssoEmail_body pages Hne (length pages) None emailArray
                (S (length pages))) as [asked Hrun]; [cbn [cursor_index]; lia|lia|].
    exists asked. unfold ssoEmail. rewrite Hrun. cbn [cursor_index]. rewrite skipn_O.
    rewrite fold_ssoEmail_body. reflexivity.
  - destruct (ps_cursor_do_while_pages ssoEmail_body pages (length pages) None []
                (S (length pages))) as [asked Hrun]; [cbn [cursor_index]; lia|lia|].
    exists asked. unfold Get_GitHubOrgSSOEmails. rewrite Hrun. cbn [cursor_index]. rewrite skipn_O.
    rewrite fold_ssoEmail_body. reflexivity.
  - intros entry. apply linked_origin.
  - intros before identity after Hnone.
    rewrite !linked_app. cbn [linked flat_map]. rewrite Hnone. reflexivity.
Qed.

(** Two pages; the second identity has no linked account. *)
Lemma sso_entries_have_linked_login_witness :
  exists asked,
    ssoEmail
      (paged_connection
         [[mkExternalIdentity "ada@example.org" (Some (mkUser "ada"));
           mkExternalIdentity "gone@example.org" None];
          [mkExternalIdentity "bob@example.org" (Some (mkUser "bob"))]])
      3 []
    = Some (asked, [mkSsoEmail "ada" "ada@example.org"; mkSsoEmail "bob" "bob@example.org"]).
Proof.
  refine (proj1 (sso_entries_have_linked_login
                   [[mkExternalIdentity "ada@example.org" (Some (mkUser "ada"));
                     mkExternalIdentity "gone@example.org" None];
                    [mkExternalIdentity "bob@example.org" (Some (mkUser "bob"))]] [] _)).
  intros i Hi. cbn [length] in Hi.
  destruct i as [|i]; [discriminate|lia].
Defined.
End PagingClaims.

(** ** Names and keys *)

Section StringFacts.
Import Str.

Lemma append_cons c a b : String c a +:+ b = String c (a +:+ b).
Proof. reflexivity. Qed.

Lemma append_nil b : "" +:+ b = b.
Proof. reflexivity. Qed.

Lemma append_assoc a b c : (a +:+ b) +:+ c = a +:+ (b +:+ c).
Proof.
  induction a as [|x a IH]; [reflexivity|].
  rewrite !append_cons, IH. reflexivity.
Qed.

Lemma ToLower_app a b : ToLower (a +:+ b) = ToLower a +:+ ToLower b.
Proof.
  induction a as [|c a IH]; [reflexivity|].
  rewrite append_cons. cbn [ToLower]. rewrite IH, append_cons. reflexivity.
Qed.

Lemma lower_ascii_idem c : lower_ascii (lower_ascii c) = lower_ascii c.
Proof. destruct c as [[] [] [] [] [] [] [] []]; reflexivity. Qed.

Lemma lower_ascii_colon c :
  Ascii.eqb (lower_ascii c) ":"%char = Ascii.eqb c ":"%char.
Proof. destruct c as [[] [] [] [] [] [] [] []]; reflexivity. Qed.

Lemma ToLower_idem s : ToLower (ToLower s) = ToLower s.
Proof.
  induction s as [|c s IH]; [reflexivity|].
  cbn [ToLower]. rewrite IH, lower_ascii_idem. reflexivity.
Qed.

Lemma colon_free_ToLower s : colon_free (ToLower s) = colon_free s.
Proof.
  induction s as [|c s IH]; [reflexivity|].
  cbn [ToLower colon_free]. rewrite IH, lower_ascii_colon. reflexivity.
Qed.

Lemma ps_eq_true a b : ps_eq a b = true <-> ToLower a = ToLower b.
Proof. unfold ps_eq. rewrite bool_decide_eq_true. reflexivity. Qed.

Lemma ps_eq_refl a : ps_eq a a = true.
Proof. apply ps_eq_true. reflexivity. Qed.


Lemma ps_eq_ToLower_r a b : ps_eq a (ToLower b) = ps_eq a b.
Proof. unfold ps_eq. rewrite ToLower_idem. reflexivity. Qed.

(** The text before the first [":"] of a key is the repository name. *)
Lemma colon_split a1 :
  forall a2 b1 b2,
    colon_free a1 = true -> colon_free a2 = true ->
    a1 +:+ ":" +:+ b1 = a2 +:+ ":" +:+ b2 ->
    a1 = a2 /\ b1 = b2.
Proof.
  induction a1 as [|c a1 IH]; intros a2 b1 b2 H1 H2 Heq.
  - destruct a2 as [|c2 a2]; rewrite ?append_cons, ?append_nil in Heq.
    + split; [reflexivity|congruence].
    + injection Heq as Hc _. subst c2. cbn in H2. discriminate.
  - destruct a2 as [|c2 a2]; rewrite ?append_cons, ?append_nil in Heq.
    + injection Heq as Hc _. subst c. cbn in H1. discriminate.
    + injection Heq as Hc Hrest. subst c2.
      cbn [colon_free] in H1, H2. apply andb_prop in H1, H2.
      destruct (IH a2 b1 b2) as [-> ->]; [apply H1|apply H2|exact Hrest|]. auto.
Qed.
End StringFacts.

(** ** Permission scans *)

Section PermissionClaims.
Import Perm.
Context `{Runtime}.

(** The order of the levels is the one [$order] lists. *)
Lemma IndexOf_order :
  (IndexOf read < IndexOf triage < IndexOf write)%Z
  /\ (IndexOf write < IndexOf maintain < IndexOf admin)%Z.
Proof. vm_compute. repeat split. Qed.



Lemma display_name_not_all p : Str.ps_eq (display_name p) "ALL" = false.
Proof. destruct p; reflexivity. Qed.

(** The scan of step 8 keeps the last flag that is set in the order of
    [Keys]: it yields the highest level when the keys come in rising
    order of their levels. *)
Lemma directPerm_scan_rising permissions :
  directPerm_scan [key_pull; key_triage; key_push; key_maintain; key_admin] permissions
  = highest permissions.
Proof. destruct permissions as [[] [] [] [] []]; reflexivity. Qed.

Lemma directPerm_scan_snoc Keys k permissions :
  directPerm_scan (Keys ++ [k]) permissions
  = if flag permissions k then Some (permissionDisplay k)
    else directPerm_scan Keys permissions.
Proof. unfold directPerm_scan. rewrite fold_left_app. reflexivity. Qed.


(** C2 fails on the code. For a collaborator whose flags are all set (an
    administrator), the scan of step 8 yields [read] when the hashtable
    enumerates [pull] last and [admin] when it enumerates [admin] last,
    and the older report's scan yields the first flag of the object,
    [pull]; the highest level among the flags is [admin]. *)
Theorem flag_scans_follow_iteration_order :
  let permissions := mkPermissions true true true true true in
  directPerm_scan [key_admin; key_maintain; key_push; key_triage; key_pull] permissions
  = Some read
  /\ directPerm_scan [key_pull; key_triage; key_push; key_maintain; key_admin] permissions
     = Some admin
  /\ matchedPermission_scan [key_pull; key_triage; key_push; key_maintain; key_admin]
       "ALL" permissions
     = Some "pull"
  /\ highest permissions = Some admin.
Proof. repeat split. Qed.
End PermissionClaims.

(** ** The merge of direct and team grants *)

Section MergeFacts.
Import Perm Report.

Lemma same_pair_key repo user r :
  same_pair repo user r = true -> rowKey r = key_of repo user.
Proof.
  unfold same_pair, rowKey, key_of. intros H. apply andb_prop in H as [Hr Hu].
  apply ps_eq_true in Hr, Hu. rewrite !ToLower_app, Hr, Hu. reflexivity.
Qed.

Lemma key_same_pair repo user r :
  Str.colon_free repo = true -> Str.colon_free (orgRepo r) = true ->
  rowKey r = key_of repo user -> same_pair repo user r = true.
Proof.
  unfold same_pair, rowKey, key_of. intros Hc1 Hc2 Hk. rewrite !ToLower_app in Hk.
  change (Str.ToLower ":") with ":" in Hk.
  apply colon_split in Hk as [Hr Hu]; [|rewrite colon_free_ToLower; assumption..].
  apply andb_true_intro. split; apply ps_eq_true; assumption.
Qed.

Lemma same_grant_refl g : same_grant g g.
Proof. repeat split. Qed.

Lemma same_grant_key g r : same_grant g r -> rowKey g = rowKey r.
Proof. intros (Hr & Hu & _). unfold rowKey. rewrite Hr, Hu. reflexivity. Qed.

Lemma same_grant_add_viaTeam g current t :
  same_grant g current -> same_grant g (add_viaTeam current t).
Proof. intros H. exact H. Qed.

Lemma rowKey_add_viaTeam current t : rowKey (add_viaTeam current t) = rowKey current.
Proof. reflexivity. Qed.

(** *** Step 9, the seed *)

Lemma seed_snoc rows c : seed (rows ++ [c]) = <[rowKey c := c]> (seed rows).
Proof. unfold seed. rewrite fold_left_app. reflexivity. Qed.

Lemma seed_keyed rows : keyed (seed rows).
Proof.
  induction rows as [|c rows IH] using rev_ind.
  - intros k r H. unfold seed in H. cbn in H. rewrite lookup_empty in H. discriminate.
  - rewrite seed_snoc. intros k r H.
    destruct (decide (rowKey c = k)) as [<-|Hne].
    + rewrite lookup_insert_eq in H. congruence.
    + rewrite lookup_insert_ne in H by assumption. eauto.
Qed.

Lemma seed_from_grants rows : from_grants rows (seed rows).
Proof.
  induction rows as [|c rows IH] using rev_ind.
  - intros k r H. unfold seed in H. cbn in H. rewrite lookup_empty in H. discriminate.
  - rewrite seed_snoc. intros k r H.
    destruct (decide (rowKey c = k)) as [<-|Hne].
    + rewrite lookup_insert_eq in H. injection H as <-.
      exists c. split; [apply in_or_app; right; left; reflexivity|apply same_grant_refl].
    + rewrite lookup_insert_ne in H by assumption.
      destruct (IH k r H) as [g [Hin Hg]]. exists g. split; [|exact Hg].
      apply in_or_app. left. exact Hin.
Qed.

(** With one direct grant per key, every direct grant is its own row. *)
Lemma seed_lookup rows :
  List.NoDup (map rowKey rows) ->
  forall c, In c rows -> seed rows !! rowKey c = Some c.
Proof.
  induction rows as [|d rows IH] using rev_ind; intros Hnd c Hin; [destruct Hin|].
  rewrite seed_snoc. rewrite map_app in Hnd. cbn [map] in Hnd.
  apply List.NoDup_remove in Hnd as [Hnd Hfresh]. rewrite app_nil_r in Hnd, Hfresh.
  apply in_app_or in Hin as [Hin|[<-|[]]].
  - rewrite lookup_insert_ne; [apply IH; assumption|].
    intros Heq. apply Hfresh. rewrite Heq. apply in_map. exact Hin.
  - apply lookup_insert_eq.
Qed.

(** *** [$rowsByKey.Values] *)

Lemma In_Values (m : gmap string Row) r :
  In r (Values m) <-> exists k, m !! k = Some r.
Proof.
  unfold Values. rewrite in_map_iff. split.
  - intros [[k r'] [Heq Hin]]. cbn in Heq. subst r'. exists k.
    apply elem_of_map_to_list. apply list_elem_of_In. exact Hin.
  - intros [k Hk]. exists (k, r). split; [reflexivity|].
    apply list_elem_of_In. apply elem_of_map_to_list. exact Hk.
Qed.

Lemma filter_Permutation {A} (f : A -> bool) l l' :
  Permutation l l' -> Permutation (List.filter f l) (List.filter f l').
Proof.
  induction 1 as [|x l l' _ IH|x y l|l l' l'' _ IH1 _ IH2]; cbn [List.filter].
  - constructor.
  - destruct (f x); [constructor|]; exact IH.
  - destruct (f x), (f y); try reflexivity. constructor.
  - etransitivity; eassumption.
Qed.

Lemma filter_none {A} (f : A -> bool) l :
  (forall x, In x l -> f x = false) -> List.filter f l = [].
Proof.
  induction l as [|x l IH]; intros H; [reflexivity|].
  cbn [List.filter]. rewrite (H x (or_introl eq_refl)). apply IH.
  intros y Hy. apply H. right. exact Hy.
Qed.

(** A map whose rows stand under their keys has exactly one row with a
    key that it holds. *)
Lemma Values_one (m : gmap string Row) (f : Row -> bool) k r :
  keyed m ->
  m !! k = Some r ->
  (forall r', (exists k', m !! k' = Some r') -> (f r' = true <-> rowKey r' = k)) ->
  List.filter f (Values m) = [r].
Proof.
  intros Hkeyed Hk Hf.
  assert (Hperm : Permutation (Values m) (r :: Values (delete k m))).
  { unfold Values. change (r :: map snd (map_to_list (delete k m)))
      with (map snd ((k, r) :: map_to_list (delete k m))).
    apply Permutation_map.
    rewrite <- (insert_delete_id m k r Hk) at 1.
    apply map_to_list_insert. apply lookup_delete_eq. }
  apply (filter_Permutation f) in Hperm. cbn [List.filter] in Hperm.
  assert (Hr : f r = true) by (apply Hf; [eauto|apply (Hkeyed k r Hk)]).
  rewrite Hr in Hperm. rewrite (filter_none f (Values (delete k m))) in Hperm.
  - symmetry in Hperm. apply Permutation_length_1_inv in Hperm. exact Hperm.
  - intros r' Hin. apply In_Values in Hin as [k' Hk'].
    destruct (decide (k' = k)) as [->|Hne].
    { rewrite lookup_delete_eq in Hk'. discriminate. }
    rewrite lookup_delete_ne in Hk' by congruence.
    destruct (f r') eqn:Hfr; [|reflexivity].
    apply Hf in Hfr; [|eauto]. rewrite (Hkeyed k' r' Hk') in Hfr. congruence.
Qed.

(** *** Step 9, one team row *)

Lemma merge_team_other m t k :
  k <> rowKey t -> merge_team m t !! k = m !! k.
Proof.
  intros Hne. unfold merge_team.
  destruct (m !! rowKey t) as [current|]; [|apply lookup_insert_ne; congruence].
  destruct (IndexOf (permission t) >? IndexOf (permission current))%Z;
    [apply lookup_insert_ne; congruence|].
  destruct ((IndexOf (permission t) =? IndexOf (permission current))%Z
            && negb (Str.IsNullOrWhiteSpace (viaTeam t)));
    [apply lookup_insert_ne; congruence|reflexivity].
Qed.

(** The row under the key of [t] after [t] is merged: [t] itself when it
    is new or higher; else the row that was there, with the team of [t]
    noted on a tie. *)
Lemma merge_team_at m t :
  exists r,
    merge_team m t !! rowKey t = Some r
    /\ (IndexOf (permission t) <= IndexOf (permission r))%Z
    /\ ((r = t
         /\ forall current, m !! rowKey t = Some current ->
              (IndexOf (permission current) < IndexOf (permission t))%Z)
        \/ exists current,
             m !! rowKey t = Some current
             /\ (IndexOf (permission t) <= IndexOf (permission current))%Z
             /\ same_grant current r).
Proof.
  unfold merge_team. destruct (m !! rowKey t) as [current|] eqn:Hcur.
  - destruct (Z.gtb_spec (IndexOf (permission t)) (IndexOf (permission current)))
      as [Hgt|Hle].
    + exists t. rewrite lookup_insert_eq. split; [reflexivity|]. split; [lia|].
      left. split; [reflexivity|]. intros c Hc. injection Hc as <-. lia.
    + destruct (Z.eqb_spec (IndexOf (permission t)) (IndexOf (permission current)))
        as [Heq|Hne]; cbn [andb].
      * destruct (Str.IsNullOrWhiteSpace (viaTeam t)); cbn [negb].
        -- exists current. split; [exact Hcur|]. split; [lia|]. right.
           exists current. split; [reflexivity|]. split; [lia|apply same_grant_refl].
        -- exists (add_viaTeam current t). rewrite lookup_insert_eq.
           split; [reflexivity|]. split; [cbn [add_viaTeam permission]; lia|]. right.
           exists current. split; [reflexivity|]. split; [lia|].
           apply same_grant_add_viaTeam, same_grant_refl.
      * exists current. split; [exact Hcur|]. split; [lia|]. right.
        exists current. split; [reflexivity|]. split; [lia|apply same_grant_refl].
  - exists t. rewrite lookup_insert_eq. split; [reflexivity|]. split; [lia|].
    left. split; [reflexivity|]. intros c Hc. discriminate.
Qed.

Lemma same_grant_permission g r : same_grant g r -> permission g = permission r.
Proof. intros H. apply H. Qed.

Lemma same_grant_trans a b c : same_grant a b -> same_grant b c -> same_grant a c.
Proof.
  unfold same_grant. intros (H1 & H2 & H3 & H4 & H5 & H6 & H7 & H8)
                            (K1 & K2 & K3 & K4 & K5 & K6 & K7 & K8).
  repeat split; congruence.
Qed.

Lemma merge_team_keyed m t : keyed m -> keyed (merge_team m t).
Proof.
  intros Hkeyed k r Hk. destruct (decide (k = rowKey t)) as [->|Hne].
  - destruct (merge_team_at m t) as (r' & Hr' & _ & [[-> _]|(current & Hcur & _ & Hsame)]);
      rewrite Hr' in Hk; injection Hk as <-; [reflexivity|].
    rewrite <- (same_grant_key _ _ Hsame). apply (Hkeyed _ _ Hcur).
  - rewrite merge_team_other in Hk by assumption. apply (Hkeyed _ _ Hk).
Qed.

Lemma merge_team_from_grants G m t :
  from_grants G m -> from_grants (G ++ [t]) (merge_team m t).
Proof.
  intros Hfrom k r Hk. destruct (decide (k = rowKey t)) as [->|Hne].
  - destruct (merge_team_at m t) as (r' & Hr' & _ & [[-> _]|(current & Hcur & _ & Hsame)]);
      rewrite Hr' in Hk; injection Hk as <-.
    + exists t. split; [apply in_or_app; right; left; reflexivity|apply same_grant_refl].
    + destruct (Hfrom _ _ Hcur) as (g & Hin & Hg). exists g.
      split; [apply in_or_app; left; exact Hin|].
      apply (same_grant_trans _ _ _ Hg Hsame).
  - rewrite merge_team_other in Hk by assumption.
    destruct (Hfrom _ _ Hk) as (g & Hin & Hg). exists g.
    split; [apply in_or_app; left; exact Hin|exact Hg].
Qed.

Lemma merge_team_dominates X m t :
  dominates X m -> dominates (X ++ [t]) (merge_team m t).
Proof.
  intros Hdom g Hin.
  destruct (merge_team_at m t) as (r & Hr & Hle & Hcase).
  apply in_app_or in Hin as [Hin|[<-|[]]]; [|exists r; auto].
  destruct (Hdom g Hin) as (r0 & Hr0 & Hle0).
  destruct (decide (rowKey g = rowKey t)) as [Heq|Hne].
  - rewrite Heq in *. exists r. split; [exact Hr|].
    destruct Hcase as [[-> Hlow]|(current & Hcur & _ & Hsame)].
    + specialize (Hlow r0 Hr0). lia.
    + rewrite Hcur in Hr0. injection Hr0 as <-.
      rewrite <- (same_grant_permission _ _ Hsame). exact Hle0.
  - exists r0. rewrite merge_team_other by assumption. auto.
Qed.

(** *** Step 9, all team rows *)

Lemma fold_merge_team ts :
  forall G X m,
    keyed m -> from_grants G m -> dominates X m ->
    keyed (fold_left merge_team ts m)
    /\ from_grants (G ++ ts) (fold_left merge_team ts m)
    /\ dominates (X ++ ts) (fold_left merge_team ts m).
Proof.
  induction ts as [|t ts IH]; intros G X m Hk Hf Hd.
  - rewrite !app_nil_r. auto.
  - cbn [fold_left].
    replace (G ++ t :: ts) with ((G ++ [t]) ++ ts) by (rewrite <- app_assoc; reflexivity).
    replace (X ++ t :: ts) with ((X ++ [t]) ++ ts) by (rewrite <- app_assoc; reflexivity).
    apply IH;
      [apply merge_team_keyed|apply merge_team_from_grants|apply merge_team_dominates];
      assumption.
Qed.

Lemma dominates_nil m : dominates [] m.
Proof. intros g []. Qed.

Lemma seed_dominates rows :
  List.NoDup (map rowKey rows) -> dominates rows (seed rows).
Proof.
  intros Hnd g Hin. exists g. split; [apply seed_lookup; assumption|lia].
Qed.

(** The merged map: its rows stand under their keys and are grants; it
    has a row at least as high for every team grant, and for every direct
    grant too when no two direct grants share a key. *)
Lemma merge_spec direct teamRows :
  keyed (merge direct teamRows)
  /\ from_grants (direct ++ teamRows) (merge direct teamRows)
  /\ dominates teamRows (merge direct teamRows)
  /\ (List.NoDup (map rowKey direct) ->
      dominates (direct ++ teamRows) (merge direct teamRows)).
Proof.
  unfold merge.
  destruct (fold_merge_team teamRows direct [] (seed direct)
              (seed_keyed direct) (seed_from_grants direct) (dominates_nil _))
    as (Hk & Hf & Hd).
  repeat split; try assumption.
  intros Hnd.
  apply (fold_merge_team teamRows direct direct (seed direct)
           (seed_keyed direct) (seed_from_grants direct) (seed_dominates direct Hnd)).
Qed.
Lemma seed_covers rows :
  forall c, In c rows -> exists r, seed rows !! rowKey c = Some r.
Proof.
  induction rows as [|x rows IH] using rev_ind; intros c Hc; [destruct Hc|].
  rewrite seed_snoc. apply in_app_iff in Hc.
  destruct (decide (rowKey x = rowKey c)) as [Heq|Hne].
  - exists x. rewrite <- Heq. apply lookup_insert_eq.
  - rewrite lookup_insert_ne by exact Hne.
    destruct Hc as [Hc|[->|[]]]; [apply IH; exact Hc|congruence].
Qed.

Lemma merge_team_covers (m : gmap string Row) t k :
  (exists r, m !! k = Some r) -> exists r, merge_team m t !! k = Some r.
Proof.
  intros Hk. destruct (decide (k = rowKey t)) as [->|Hne].
  - destruct (merge_team_at m t) as [r [Hr _]]. exists r. exact Hr.
  - rewrite merge_team_other by exact Hne. exact Hk.
Qed.

Lemma fold_merge_team_covers ts :
  forall (m : gmap string Row) k,
    (exists r, m !! k = Some r) -> exists r, fold_left merge_team ts m !! k = Some r.
Proof.
  induction ts as [|t ts IH]; intros m k Hk; [exact Hk|].
  cbn [fold_left]. apply IH, merge_team_covers, Hk.
Qed.



End MergeFacts.

Section ProvenanceFacts.
Import Perm Report.

Lemma prefix_refl s : String.prefix s s = true.
Proof.
  induction s as [|c s IH]; [reflexivity|].
  cbn [String.prefix]. destruct (ascii_dec c c); [exact IH|congruence].
Qed.

Lemma prefix_nil s : String.prefix "" s = true.
Proof. destruct s; reflexivity. Qed.

Lemma prefix_app x :
  forall a b, String.prefix x a = true -> String.prefix x (a +:+ b) = true.
Proof.
  induction x as [|c x IH]; intros a b H; [apply prefix_nil|].
  destruct a as [|d a]; [discriminate|].
  rewrite append_cons. cbn [String.prefix] in *.
  destruct (ascii_dec c d); [apply IH; exact H|discriminate].
Qed.

Lemma includes_here s x : String.prefix x s = true -> Str.includes s x = true.
Proof. intros H. destruct s; cbn [Str.includes]; rewrite H; reflexivity. Qed.

Lemma includes_app_l a :
  forall b x, Str.includes a x = true -> Str.includes (a +:+ b) x = true.
Proof.
  induction a as [|c a IH]; intros b x H.
  - cbn [Str.includes] in H. rewrite orb_false_r in H.
    apply includes_here. rewrite append_nil.
    destruct x; [apply prefix_nil|discriminate].
  - cbn [Str.includes] in H. apply orb_prop in H as [H|H].
    + apply includes_here. apply prefix_app. exact H.
    + rewrite append_cons. cbn [Str.includes]. rewrite (IH b x H).
      apply orb_true_r.
Qed.

Lemma includes_app_r a :
  forall x, Str.includes (a +:+ x) x = true.
Proof.
  induction a as [|c a IH]; intros x.
  - rewrite append_nil. apply includes_here, prefix_refl.
  - rewrite append_cons. cbn [Str.includes]. rewrite IH. apply orb_true_r.
Qed.

Lemma merge_team_teams_noted T m t0 :
  dominates T m -> teams_noted T m -> teams_noted (T ++ [t0]) (merge_team m t0).
Proof.
  intros Hdom Hnoted t r Hin Hslug Hr Hperm.
  destruct (decide (rowKey t = rowKey t0)) as [Hkey|Hkey].
  - rewrite Hkey in Hr. unfold merge_team in Hr.
    destruct (m !! rowKey t0) as [current|] eqn:Hcur.
    + assert (Hold : In t T ->
                     (IndexOf (permission t) <= IndexOf (permission current))%Z
                     /\ (permission current = permission t ->
                         Str.includes (viaTeam current) (viaTeam t) = true)).
      { intros HinT. destruct (Hdom t HinT) as (r0 & Hr0 & Hle).
        rewrite Hkey, Hcur in Hr0. injection Hr0 as <-. split; [exact Hle|].
        intros Hp. apply (Hnoted t current HinT Hslug); [rewrite Hkey; exact Hcur|exact Hp]. }
      destruct (Z.gtb_spec (IndexOf (permission t0)) (IndexOf (permission current)))
        as [Hgt|Hle].
      * rewrite lookup_insert_eq in Hr. injection Hr as <-.
        apply in_app_or in Hin as [HinT|[<-|[]]].
        -- destruct (Hold HinT) as [Hle _]. rewrite Hperm in Hgt. lia.
        -- apply includes_here, prefix_refl.
      * destruct (Z.eqb_spec (IndexOf (permission t0)) (IndexOf (permission current)))
          as [Heq|Hne]; cbn [andb] in Hr.
        -- destruct (Str.IsNullOrWhiteSpace (viaTeam t0)) eqn:Hblank; cbn [negb] in Hr.
           ++ rewrite Hcur in Hr. injection Hr as <-.
              apply in_app_or in Hin as [HinT|[<-|[]]]; [|congruence].
              apply (Hold HinT). exact Hperm.
           ++ rewrite lookup_insert_eq in Hr. injection Hr as <-.
              cbn [add_viaTeam viaTeam permission] in *.
              apply in_app_or in Hin as [HinT|[<-|[]]].
              ** apply includes_app_l. apply (Hold HinT). exact Hperm.
              ** pose proof (includes_app_r (viaTeam current +:+ ",") (viaTeam t0)) as Hi.
                 rewrite append_assoc in Hi. exact Hi.
        -- rewrite Hcur in Hr. injection Hr as <-.
           apply in_app_or in Hin as [HinT|[<-|[]]].
           ++ apply (Hold HinT). exact Hperm.
           ++ rewrite Hperm in Hne. congruence.
    + rewrite lookup_insert_eq in Hr. injection Hr as <-.
      apply in_app_or in Hin as [HinT|[<-|[]]].
      * destruct (Hdom t HinT) as (r0 & Hr0 & _). rewrite Hkey, Hcur in Hr0. discriminate.
      * apply includes_here, prefix_refl.
  - rewrite merge_team_other in Hr by assumption.
    apply in_app_or in Hin as [HinT|[<-|[]]]; [|congruence].
    apply (Hnoted t r HinT Hslug Hr Hperm).
Qed.

Lemma fold_teams_noted ts :
  forall T m,
    dominates T m -> teams_noted T m ->
    teams_noted (T ++ ts) (fold_left merge_team ts m).
Proof.
  induction ts as [|t ts IH]; intros T m Hd Hn.
  - rewrite app_nil_r. exact Hn.
  - cbn [fold_left].
    replace (T ++ t :: ts) with ((T ++ [t]) ++ ts) by (rewrite <- app_assoc; reflexivity).
    apply IH; [apply merge_team_dominates|apply merge_team_teams_noted]; assumption.
Qed.

Lemma merge_teams_noted direct teamRows : teams_noted teamRows (merge direct teamRows).
Proof.
  apply (fold_teams_noted teamRows [] (seed direct)); [apply dominates_nil|].
  intros t r [].
Qed.
End ProvenanceFacts.

Section MergeClaims.
Import Perm Report.

(** C1. Let no two direct grants share a key, and let repository names
    have no [":"] (the separator of the key). Then the merge of step 9
    has, for the pair (repository, user) of every grant, direct or
    derived from a team's repositories and members, exactly one row; no
    grant for that pair is higher than the row's permission in the order
    [read < triage < write < maintain < admin]; and that permission is
    the one of a grant for the pair. So it is the highest of the pair's
    grants: a lower team grant leaves a direct one, a higher one replaces
    it. Every row is the row of some grant's pair. The order of the
    levels is that of [IndexOf]. *)
Theorem merge_one_row_highest_permission
    (Org : string) (direct : list Row)
    (teamRepoPerms : list TeamRepoPerm) (teamMembers : list TeamMember) :
  let teamRows := teamUserRepoPerms Org teamRepoPerms teamMembers in
  let grants := direct ++ teamRows in
  let allRows := Values (merge direct teamRows) in
  (forall g, In g grants -> Str.colon_free (orgRepo g) = true) ->
  List.NoDup (map rowKey direct) ->
  (forall g, In g grants ->
     exists row,
       rows_for (orgRepo g) (login g) allRows = [row]
       /\ (forall g', In g' grants -> same_pair (orgRepo g) (login g) g' = true ->
             (IndexOf (permission g') <= IndexOf (permission row))%Z)
       /\ (exists g', In g' grants /\ same_pair (orgRepo g) (login g) g' = true
                      /\ permission g' = permission row))
  /\ (forall row, In row allRows ->
        exists g, In g grants /\ same_pair (orgRepo g) (login g) row = true)
  /\ (IndexOf read < IndexOf triage < IndexOf write)%Z
  /\ (IndexOf write < IndexOf maintain < IndexOf admin)%Z.
Proof.
  intros teamRows grants allRows Hcolon Hnd.
  destruct (merge_spec direct teamRows) as (Hkeyed & Hfrom & _ & Hdom).
  specialize (Hdom Hnd). fold grants in Hfrom, Hdom.
  assert (Hrow_colon : forall k r, merge direct teamRows !! k = Some r ->
                                   Str.colon_free (orgRepo r) = true).
  { intros k r Hk. destruct (Hfrom k r Hk) as (g & Hin & Hg).
    destruct Hg as (Hrepo & _). rewrite <- Hrepo. apply Hcolon. exact Hin. }
  split.
  - intros g Hin. destruct (Hdom g Hin) as (row & Hrow & Hle).
    exists row. split; [|split].
    + apply (Values_one _ _ (rowKey g) row Hkeyed Hrow).
      intros r' [k' Hk']. split.
      * apply same_pair_key.
      * apply key_same_pair; [apply Hcolon; exact Hin|apply (Hrow_colon k' r' Hk')].
    + intros g' Hin' Hpair. destruct (Hdom g' Hin') as (row' & Hrow' & Hle').
      rewrite (same_pair_key _ _ _ Hpair) in Hrow'.
      change (key_of (orgRepo g) (login g)) with (rowKey g) in Hrow'.
      rewrite Hrow in Hrow'. injection Hrow' as <-. exact Hle'.
    + destruct (Hfrom _ _ Hrow) as (g' & Hin' & Hg'). exists g'.
      split; [exact Hin'|]. split; [|apply (same_grant_permission _ _ Hg')].
      apply key_same_pair; [apply Hcolon; exact Hin|apply Hcolon; exact Hin'|].
      rewrite (same_grant_key _ _ Hg'). apply (Hkeyed _ _ Hrow).
  - split; [|exact IndexOf_order].
    intros row Hin. apply In_Values in Hin as [k Hk].
    destruct (Hfrom k row Hk) as (g & Hing & Hg). exists g. split; [exact Hing|].
    apply key_same_pair; [apply Hcolon; exact Hing|apply (Hrow_colon k row Hk)|].
    symmetry. apply (same_grant_key _ _ Hg).
Qed.

(** C4. When the key of a team row [t] holds a row [current] of the same
    permission and the team's slug is not blank, merging [t] leaves every
    other key alone and puts under the key the row [current] with
    [",slug"] appended to [viaTeam]: the permission and all other fields
    (the winning source) stay. Over the whole merge, every team grant as
    high as the final row of its key has its slug in that row's
    [viaTeam]. *)
Theorem merge_tie_appends_team
    (rowsByKey : gmap string Row) (t current : Row)
    (direct teamRows : list Row) :
  rowsByKey !! rowKey t = Some current ->
  permission t = permission current ->
  Str.IsNullOrWhiteSpace (viaTeam t) = false ->
  merge_team rowsByKey t = <[rowKey t := add_viaTeam current t]> rowsByKey
  /\ same_grant current (add_viaTeam current t)
  /\ viaTeam (add_viaTeam current t) = viaTeam current +:+ "," +:+ viaTeam t
  /\ teams_noted teamRows (merge direct teamRows).
Proof.
  intros Hcur Hperm Hslug. split; [|split; [|split]].
  - unfold merge_team. rewrite Hcur, Hperm, Hslug.
    destruct (Z.gtb_spec (IndexOf (permission current)) (IndexOf (permission current)))
      as [Hgt|_]; [lia|].
    rewrite Z.eqb_refl. reflexivity.
  - apply same_grant_add_viaTeam, same_grant_refl.
  - reflexivity.
  - apply merge_teams_noted.
Qed.

Lemma merge_one_row_highest_permission_witness :
  let teamRows := teamUserRepoPerms "acme" example_teamRepoPerms example_teamMembers in
  let grants := example_direct ++ teamRows in
  let allRows := Values (merge example_direct teamRows) in
  (forall g, In g grants ->
     exists row,
       rows_for (orgRepo g) (login g) allRows = [row]
       /\ (forall g', In g' grants -> same_pair (orgRepo g) (login g) g' = true ->
             (IndexOf (permission g') <= IndexOf (permission row))%Z)
       /\ (exists g', In g' grants /\ same_pair (orgRepo g) (login g) g' = true
                      /\ permission g' = permission row))
  /\ (forall row, In row allRows ->
        exists g, In g grants /\ same_pair (orgRepo g) (login g) row = true)
  /\ (IndexOf read < IndexOf triage < IndexOf write)%Z
  /\ (IndexOf write < IndexOf maintain < IndexOf admin)%Z.
Proof.
  apply (merge_one_row_highest_permission "acme" example_direct
           example_teamRepoPerms example_teamMembers).
  - intros g Hin. vm_compute in Hin. each_member Hin ltac:(reflexivity).
  - vm_compute. constructor; [intros []|constructor].
Defined.

Lemma merge_tie_appends_team_witness :
  merge_team (seed example_direct) example_tie
  = <[rowKey example_tie :=
        mkRow "web" "alice" "Alice" (PSString "") "" write "acme" (PSString "MEMBER") ",B"]>
      (seed example_direct).
Proof.
  refine (proj1 (merge_tie_appends_team (seed example_direct) example_tie
                   (mkRow "web" "alice" "Alice" (PSString "") "" write "acme"
                      (PSString "MEMBER") "")
                   [] [] _ _ _)).
  - vm_compute. reflexivity.
  - reflexivity.
  - reflexivity.
Defined.
End MergeClaims.

(** ** The report from collection to filter *)

Section ReportFacts.
Import Perm Report.




(** What step 8 puts into a row. *)
Lemma collab_rows_spec Org Permission FetchNames Keys Get_GitHubUserName
    emailArray memberArray repo collab c :
  In c (collab_rows Org Permission FetchNames Keys Get_GitHubUserName
          emailArray memberArray repo collab) ->
  orgRepo c = repo /\ login c = c_login collab
  /\ directPerm_scan Keys (c_permissions collab) = Some (permission c)
  /\ (Str.ps_eq Permission "ALL"
      || Str.ps_eq (permKey Permission) (display_name (permission c))) = true
  /\ orgpermission c = memberValue_of memberArray (login c)
  /\ viaTeam c = "".
Proof.
  unfold collab_rows.
  destruct (directPerm_scan Keys (c_permissions collab)) as [directPerm|]; [|intros []].
  destruct (Str.ps_eq Permission "ALL"
            || Str.ps_eq (permKey Permission) (display_name directPerm)) eqn:Htest;
    [|intros []].
  intros [<-|[]]. cbn [orgRepo login permission orgpermission viaTeam].
  repeat split; auto.
Qed.

Lemma collabsArray_spec Org Permission FetchNames Keys collaborators Get_GitHubUserName
    repos emailArray memberArray c :
  In c (collabsArray Org Permission FetchNames Keys collaborators Get_GitHubUserName
          repos emailArray memberArray) ->
  (Str.ps_eq Permission "ALL"
   || Str.ps_eq (permKey Permission) (display_name (permission c))) = true
  /\ orgpermission c = memberValue_of memberArray (login c).
Proof.
  unfold collabsArray. rewrite List.in_flat_map. intros (repo & _ & Hin).
  rewrite List.in_flat_map in Hin. destruct Hin as (collab & _ & Hin).
  apply collab_rows_spec in Hin. tauto.
Qed.

Lemma teamUserRepoPerms_spec Org teamRepoPerms teamMembers t :
  In t (teamUserRepoPerms Org teamRepoPerms teamMembers) ->
  orgpermission t = PSString "".
Proof.
  unfold teamUserRepoPerms. rewrite List.in_flat_map. intros (trp & _ & Hin).
  rewrite List.in_flat_map in Hin. destruct Hin as (member & _ & Hin).
  rewrite in_map_iff in Hin. destruct Hin as (perm & <- & _). reflexivity.
Qed.

Lemma In_filter_rows Permission rows row :
  In row (filter_rows Permission rows)
  <-> In row rows
      /\ (Str.ps_eq Permission "ALL" = true
          \/ Str.ps_eq (display_name (permission row)) (permKey Permission) = true).
Proof.
  unfold filter_rows. destruct (Str.ps_eq Permission "ALL"); cbn [negb].
  - tauto.
  - rewrite filter_In. split; [intros [? ?]; auto|].
    intros [? [?|?]]; [discriminate|auto].
Qed.

(** Steps 10 and 11 leave the key, the permission and the teams. *)
Lemma enrich_keeps Get_GitHubUserName verifiedEmails emailArray memberArray row :
  let row' := enrich Get_GitHubUserName verifiedEmails emailArray memberArray row in
  orgRepo row' = orgRepo row /\ login row' = login row
  /\ permission row' = permission row /\ viaTeam row' = viaTeam row.
Proof. cbn. auto. Qed.

(** *** Looking a login up *)

Lemma filter_unique {A B} (f : A -> B) (p : A -> bool) l x :
  List.NoDup (map f l) -> In x l ->
  (forall y, In y l -> p y = true <-> f y = f x) ->
  List.filter p l = [x].
Proof.
  induction l as [|y l IH]; intros Hnd Hin Hp; [destruct Hin|].
  cbn [map] in Hnd. apply List.NoDup_cons_iff in Hnd as [Hfresh Hnd].
  cbn [List.filter]. destruct Hin as [->|Hin].
  - rewrite (proj2 (Hp x (or_introl eq_refl)) eq_refl). f_equal.
    apply filter_none. intros z Hz. destruct (p z) eqn:Hpz; [|reflexivity].
    apply Hp in Hpz; [|right; exact Hz].
    exfalso. apply Hfresh. rewrite <- Hpz. apply in_map. exact Hz.
  - destruct (p y) eqn:Hpy.
    + apply Hp in Hpy; [|left; reflexivity].
      exfalso. apply Hfresh. rewrite Hpy. apply in_map. exact Hin.
    + apply IH; [exact Hnd|exact Hin|].
      intros z Hz. apply Hp. right. exact Hz.
Qed.

Lemma find_unique {A B} (f : A -> B) (p : A -> bool) l x :
  List.NoDup (map f l) -> In x l ->
  (forall y, In y l -> p y = true <-> f y = f x) ->
  List.find p l = Some x.
Proof.
  intros Hnd Hin Hp. pose proof (filter_unique f p l x Hnd Hin Hp) as Hfilter.
  clear Hnd Hin Hp. induction l as [|y l IH]; [discriminate|].
  cbn [List.filter List.find] in *. destruct (p y).
  - injection Hfilter as -> _. reflexivity.
  - apply IH. exact Hfilter.
Qed.

Lemma find_absent {A} (p : A -> bool) l :
  (forall y, In y l -> p y = false) -> List.find p l = None.
Proof.
  induction l as [|y l IH]; intros H; [reflexivity|].
  cbn [List.find]. rewrite (H y (or_introl eq_refl)). apply IH.
  intros z Hz. apply H. right. exact Hz.
Qed.

(** [memberValue_of] on a member list without two entries for a login. *)
Lemma memberValue_of_member memberArray user m :
  List.NoDup (map lower_login memberArray) ->
  In m memberArray -> Str.ps_eq (Paging.member_login m) user = true ->
  memberValue_of memberArray user = PSString (Paging.role m).
Proof.
  intros Hnd Hin Heq. unfold memberValue_of.
  rewrite (filter_unique lower_login _ memberArray m Hnd Hin); [reflexivity|].
  intros y _. apply ps_eq_true in Heq. unfold lower_login. rewrite ps_eq_true, Heq.
  reflexivity.
Qed.

Lemma memberValue_of_outside memberArray user :
  (forall m, In m memberArray -> Str.ps_eq (Paging.member_login m) user = false) ->
  memberValue_of memberArray user = PSString "OUTSIDE COLLABORATOR".
Proof.
  intros Hnone. unfold memberValue_of. rewrite filter_none; [reflexivity|exact Hnone].
Qed.

(** After step 11 every row carries the role looked up for its login. *)
Lemma enrich_orgpermission Get_GitHubUserName verifiedEmails emailArray memberArray row :
  orgpermission row = PSString ""
  \/ orgpermission row = memberValue_of memberArray (login row) ->
  orgpermission (enrich Get_GitHubUserName verifiedEmails emailArray memberArray row)
  = memberValue_of memberArray (login row).
Proof.
  intros H. cbn [enrich orgpermission].
  destruct H as [H|H]; rewrite H; [reflexivity|].
  destruct (is_blank (memberValue_of memberArray (login row))); reflexivity.
Qed.

Lemma mergeArrays_map collabsArray emailArray memberArray :
  forall mergeArray,
    Action.mergeArrays collabsArray emailArray mergeArray memberArray
    = mergeArray ++ map (Action.ssoCollab_of emailArray memberArray) collabsArray.
Proof.
  unfold Action.mergeArrays.
  induction collabsArray as [|collab collabsArray IH]; intros mergeArray.
  - cbn. rewrite app_nil_r. reflexivity.
  - cbn [fold_left map]. rewrite IH, <- app_assoc. reflexivity.
Qed.

End ReportFacts.

Section ReportClaims.
Import Perm Report.

Variables (Org Permission : string) (FetchNames : bool) (Keys : list PermKey).
Variable collaborators : string -> list Collab.
Variable Get_GitHubUserName : string -> string.
Variable verifiedEmails : list (string * string).
Variable repos : list string.
Variable emailArray : list Paging.SsoEmail.
Variable memberArray : list Paging.Member.
Variable teamRepoPerms : list TeamRepoPerm.
Variable teamMembers : list TeamMember.

Local Abbreviation direct :=
  (collabsArray Org Permission FetchNames Keys collaborators Get_GitHubUserName
     repos emailArray memberArray).
Local Abbreviation teamRows := (teamUserRepoPerms Org teamRepoPerms teamMembers).
Local Abbreviation rows :=
  (report Org Permission FetchNames Keys collaborators Get_GitHubUserName verifiedEmails
     repos emailArray memberArray teamRepoPerms teamMembers).


(** C8. Let no login have two entries among the members. Then every row
    of the report has as its organisation role the role of the member
    with the row's login, and ["OUTSIDE COLLABORATOR"] when no member has
    it; and so has every row that the action's [mergeArrays] makes. *)
Theorem organisation_role_of_every_row (collabs : list Action.Collab) :
  List.NoDup (map lower_login memberArray) ->
  (forall row, In row rows ->
     (forall m, In m memberArray ->
                Str.ps_eq (Paging.member_login m) (login row) = true ->
                orgpermission row = PSString (Paging.role m))
     /\ ((forall m, In m memberArray ->
                    Str.ps_eq (Paging.member_login m) (login row) = false) ->
         orgpermission row = PSString "OUTSIDE COLLABORATOR"))
  /\ (forall row, In row (Action.mergeArrays collabs emailArray [] memberArray) ->
        (forall m, In m memberArray -> Paging.member_login m = Action.m_login row ->
                   Action.memberValue row = Paging.role m)
        /\ ((forall m, In m memberArray -> Paging.member_login m <> Action.m_login row) ->
            Action.memberValue row = "OUTSIDE COLLABORATOR")).
Proof.
  intros Hnd. split.
  - intros row Hin. unfold report in Hin. apply In_filter_rows in Hin as [Hin _].
    apply in_map_iff in Hin as (r & <- & Hin). apply In_Values in Hin as [k Hk].
    destruct (merge_spec direct teamRows) as (_ & Hfrom & _).
    destruct (Hfrom _ _ Hk) as (g & Hing & Hg).
    assert (Hrole : orgpermission r = PSString ""
                    \/ orgpermission r = memberValue_of memberArray (login r)).
    { destruct Hg as (_ & Hlogin & _ & _ & _ & _ & _ & Horg).
      rewrite <- Horg, <- Hlogin.
      apply in_app_or in Hing as [Hing|Hing].
      - right. apply collabsArray_spec in Hing. apply Hing.
      - left. apply (teamUserRepoPerms_spec _ _ _ _ Hing). }
    rewrite (enrich_orgpermission _ _ _ _ _ Hrole). cbn [enrich login]. split.
    + intros m Hm Heq. apply memberValue_of_member; assumption.
    + apply memberValue_of_outside.
  - assert (Hexact : List.NoDup (map Paging.member_login memberArray)).
    { apply (List.NoDup_map_inv Str.ToLower). rewrite map_map. exact Hnd. }
    intros row Hin. rewrite mergeArrays_map in Hin. cbn [app] in Hin.
    apply in_map_iff in Hin as (collab & <- & _).
    cbn [Action.ssoCollab_of Action.memberValue Action.m_login]. split.
    + intros m Hm Heq.
      rewrite (find_unique Paging.member_login _ memberArray m Hexact Hm); [reflexivity|].
      intros y _. rewrite String.eqb_eq, Heq. reflexivity.
    + intros Hnone. rewrite find_absent; [reflexivity|].
      intros y Hy. apply String.eqb_neq. apply Hnone. exact Hy.
Qed.
End ReportClaims.

Section ReportExamples.
Import Perm Report.



(** [alice] is the one member; [bob], of team [B], is not one. *)
Lemma organisation_role_of_every_row_witness :
  (forall row,
     In row (report "acme" "ALL" false rising_keys example_reader (fun _ => "") []
               ["web"] [] example_members example_teamRepoPerms example_teamMembers) ->
     (forall m, In m example_members ->
                Str.ps_eq (Paging.member_login m) (login row) = true ->
                orgpermission row = PSString (Paging.role m))
     /\ ((forall m, In m example_members ->
                    Str.ps_eq (Paging.member_login m) (login row) = false) ->
         orgpermission row = PSString "OUTSIDE COLLABORATOR"))
  /\ (forall row,
        In row (Action.mergeArrays
                  [Action.mkCollab "web" "bob" "" "" "WRITE" "PRIVATE" "acme"]
                  [] [] example_members) ->
        (forall m, In m example_members -> Paging.member_login m = Action.m_login row ->
                   Action.memberValue row = Paging.role m)
        /\ ((forall m, In m example_members ->
                       Paging.member_login m <> Action.m_login row) ->
            Action.memberValue row = "OUTSIDE COLLABORATOR")).
Proof.
  apply (organisation_role_of_every_row "acme" "ALL" false rising_keys example_reader
           (fun _ => "") [] ["web"] [] example_members example_teamRepoPerms
           example_teamMembers
           [Action.mkCollab "web" "bob" "" "" "WRITE" "PRIVATE" "acme"]).
  vm_compute. constructor; [intros []|constructor].
Defined.
End ReportExamples.


(** * Further properties of the code *)

(** ** Bounds of the retry wrappers, for every transport *)

Section RetryBounds.
Import Retry.
Context {A : Type}.

Lemma delays_cons d i k : delays d i (S k) = (d * 2 ^ Z.of_nat i)%Z :: delays d (S i) k.
Proof. reflexivity. Qed.

Lemma retry_iter_bounds (fn : nat -> Outcome A JsError) retries delay :
  forall todo i,
    (i + todo = Z.to_nat retries)%nat ->
    let r := retry_iter fn retries delay todo i in
    (calls r <= todo)%nat
    /\ (0 < todo -> 0 < calls r)%nat
    /\ sleeps r = delays delay i (pred (calls r))
    /\ (completion r = LoopExit <-> todo = 0%nat).
Proof.
  induction todo as [|todo IH]; intros i Hsum; cbn zeta.
  - cbn. repeat split; auto; lia.
  - cbn [retry_iter]. destruct (fn i) as [a|e].
    + cbn. repeat split; try lia; try discriminate.
    + destruct ((Z.of_nat i =? retries - 1)%Z
                || negb (Str.includes (message e) secondary_marker)) eqn:Hguard.
      * cbn. repeat split; try lia; try discriminate.
      * apply orb_false_elim in Hguard as [Hlast _]. apply Z.eqb_neq in Hlast.
        assert (Htodo : (0 < todo)%nat) by lia.
        destruct (IH (S i) ltac:(lia)) as (Hle & Hpos & Hsl & Hexit).
        specialize (Hpos Htodo).
        cbn [after_call after_sleep calls sleeps completion].
        split; [lia|]. split; [lia|]. split.
        -- rewrite Hsl. cbn [pred].
           destruct (calls (retry_iter fn retries delay todo (S i))) as [|c]; [lia|].
           cbn [pred]. rewrite delays_cons. reflexivity.
        -- split; [|lia]. intros Hc. apply Hexit in Hc. lia.
Qed.

Lemma rest_iter_bounds {E} (web : nat -> Outcome A E) RetryCount Delay :
  forall todo i,
    (i + todo = Z.to_nat RetryCount)%nat ->
    let r := rest_iter web RetryCount Delay todo i in
    (calls r <= todo)%nat
    /\ (0 < todo -> 0 < calls r)%nat
    /\ sleeps r = delays Delay i (pred (calls r))
    /\ (completion r = LoopExit <-> todo = 0%nat).
Proof.
  induction todo as [|todo IH]; intros i Hsum; cbn zeta.
  - cbn. repeat split; auto; lia.
  - cbn [rest_iter]. destruct (web i) as [a|e].
    + cbn. repeat split; try lia; try discriminate.
    + destruct (Z.of_nat i =? RetryCount - 1)%Z eqn:Hguard.
      * cbn. repeat split; try lia; try discriminate.
      * apply Z.eqb_neq in Hguard.
        assert (Htodo : (0 < todo)%nat) by lia.
        destruct (IH (S i) ltac:(lia)) as (Hle & Hpos & Hsl & Hexit).
        specialize (Hpos Htodo).
        cbn [after_call after_sleep calls sleeps completion].
        split; [lia|]. split; [lia|]. split.
        -- rewrite Hsl. cbn [pred].
           destruct (calls (rest_iter web RetryCount Delay todo (S i))) as [|c]; [lia|].
           cbn [pred]. rewrite delays_cons. reflexivity.
        -- split; [|lia]. intros Hc. apply Hexit in Hc. lia.
Qed.

Lemma backoff_snoc d k : backoff d (S k) = backoff d k ++ [(d * 2 ^ Z.of_nat k)%Z].
Proof. unfold backoff. rewrite seq_S, map_app. reflexivity. Qed.

Lemma backoff_total d k :
  fold_right Z.add 0%Z (backoff d k) = (d * (2 ^ Z.of_nat k - 1))%Z.
Proof.
  induction k as [|k IH]; [cbn; lia|].
  rewrite backoff_snoc, fold_right_app. cbn [fold_right].
  assert (Hshift : forall l z, fold_right Z.add z l = (fold_right Z.add 0 l + z)%Z).
  { induction l as [|x l IHl]; intros z; cbn [fold_right]; [lia|]. rewrite IHl. lia. }
  rewrite Hshift, IH. rewrite Nat2Z.inj_succ, Z.pow_succ_r by lia. lia.
Qed.

(** X1. Whatever the wrapped call does, both wrappers invoke it at most
    [retries] times; the sleeps are exactly [delay * 2^0 .. 2^(c-2)] for
    [c] invocations, so none follows the last invocation; and the wrapper
    leaves its loop without a value or an error exactly when [retries] is
    not positive, in which case the call is never made. *)
Theorem retry_bounded_for_every_transport
    {E} (fn : nat -> Outcome A JsError) (web : nat -> Outcome A E) (retries delay : Z) :
  let js := retryWithBackoff fn retries delay in
  let ps := Invoke_GitHubREST web retries delay in
  (calls js <= Z.to_nat retries)%nat
  /\ sleeps js = backoff delay (pred (calls js))
  /\ (completion js = LoopExit <-> (retries <= 0)%Z)
  /\ (calls ps <= Z.to_nat retries)%nat
  /\ sleeps ps = backoff delay (pred (calls ps))
  /\ (completion ps = LoopExit <-> (retries <= 0)%Z)
  /\ ((retries <= 0)%Z -> calls js = 0%nat /\ calls ps = 0%nat).
Proof.
  cbn zeta. unfold retryWithBackoff, Invoke_GitHubREST.
  destruct (retry_iter_bounds fn retries delay (Z.to_nat retries) 0 eq_refl)
    as (Hc & _ & Hs & He).
  destruct (rest_iter_bounds web retries delay (Z.to_nat retries) 0 eq_refl)
    as (Hc' & _ & Hs' & He').
  rewrite delays_backoff in Hs, Hs'.
  repeat split; try assumption; try (intros H; apply He in H; lia);
    try (intros H; apply He' in H; lia); try (intros H; apply He; lia);
    try (intros H; apply He'; lia); lia.
Qed.

(** X2. With a delay that is not negative and at least one attempt, the
    sleeps of a run add up to at most [delay * (2^(retries-1) - 1)]
    milliseconds: 30 seconds with the defaults. *)
Theorem retry_total_backoff_bounded
    {E} (fn : nat -> Outcome A JsError) (web : nat -> Outcome A E) (retries delay : Z) :
  (0 <= delay)%Z -> (1 <= retries)%Z ->
  (fold_right Z.add 0 (sleeps (retryWithBackoff fn retries delay))
   <= delay * (2 ^ (retries - 1) - 1))%Z
  /\ (fold_right Z.add 0 (sleeps (Invoke_GitHubREST web retries delay))
      <= delay * (2 ^ (retries - 1) - 1))%Z.
Proof.
  intros Hd Hr.
  assert (Hmono : forall c, (c <= Z.to_nat retries)%nat ->
            (fold_right Z.add 0 (backoff delay (pred c)) <= delay * (2 ^ (retries - 1) - 1))%Z).
  { intros c Hc. rewrite backoff_total.
    apply Z.mul_le_mono_nonneg_l; [exact Hd|].
    assert (2 ^ Z.of_nat (pred c) <= 2 ^ (retries - 1))%Z; [|lia].
    apply Z.pow_le_mono_r; lia. }
  unfold retryWithBackoff, Invoke_GitHubREST.
  destruct (retry_iter_bounds fn retries delay (Z.to_nat retries) 0 eq_refl)
    as (Hc & _ & Hs & _).
  destruct (rest_iter_bounds web retries delay (Z.to_nat retries) 0 eq_refl)
    as (Hc' & _ & Hs' & _).
  rewrite delays_backoff in Hs, Hs'. rewrite Hs, Hs'. split; apply Hmono; assumption.
Qed.
End RetryBounds.

(** Five rate limits with the defaults: 2 + 4 + 8 + 16 seconds. *)
Lemma retry_total_backoff_bounded_witness :
  (fold_right Z.add 0
     (Retry.sleeps (Retry.retryWithBackoff (Retry.limited_then 5 42%nat) 5 2000))
   <= 30000)%Z
  /\ (fold_right Z.add 0
        (Retry.sleeps (Retry.Invoke_GitHubREST (Retry.limited_then 5 42%nat) 5 2000))
      <= 30000)%Z.
Proof.
  exact (retry_total_backoff_bounded (Retry.limited_then 5 42%nat)
           (Retry.limited_then 5 42%nat) 5 2000 ltac:(lia) ltac:(lia)).
Defined.

(** ** The REST loops against any endpoint *)

Section RestTraces.
Import Paging.

Lemma page_numbers_cons j n :
  page_numbers j (S n) = Z.of_nat (S j) :: page_numbers (S j) n.
Proof. reflexivity. Qed.

Lemma rest_do_while_trace {A} (Invoke : Z -> list A) :
  forall fuel j repos,
    match rest_do_while Invoke fuel (Z.of_nat (S j)) repos with
    | Some f =>
        exists k, (k < fuel)%nat
          /\ requests f = page_numbers j (S k)
          /\ (forall i, (i < k)%nat -> length (Invoke (Z.of_nat (S j + i))) = 100%nat)
          /\ length (Invoke (Z.of_nat (S j + k))) <> 100%nat
          /\ assembled f = repos ++ concat (map Invoke (requests f))
    | None =>
        forall i, (i < fuel)%nat -> length (Invoke (Z.of_nat (S j + i))) = 100%nat
    end.
Proof.
  induction fuel as [|fuel IH]; intros j repos; [intros i Hi; lia|].
  cbn [rest_do_while].
  assert (Hrepos : match Invoke (Z.of_nat (S j)) with
                   | [] => repos
                   | _ :: _ => repos ++ Invoke (Z.of_nat (S j))
                   end = repos ++ Invoke (Z.of_nat (S j))).
  { destruct (Invoke (Z.of_nat (S j))); [rewrite app_nil_r|]; reflexivity. }
  rewrite Hrepos.
  destruct (Z.eqb_spec (Z.of_nat (length (Invoke (Z.of_nat (S j))))) 100) as [Hfull|Hshort].
  - replace (Z.of_nat (S j) + 1)%Z with (Z.of_nat (S (S j))) by lia.
    specialize (IH (S j) (repos ++ Invoke (Z.of_nat (S j)))).
    destruct (rest_do_while Invoke fuel (Z.of_nat (S (S j))) (repos ++ Invoke (Z.of_nat (S j))))
      as [f|]; cbn [requested].
    + destruct IH as (k & Hk & Hreq & Hfullk & Hlast & Hasm).
      exists (S k). cbn [requests assembled]. split; [lia|]. split; [|split; [|split]].
      * rewrite Hreq. symmetry. apply page_numbers_cons.
      * intros i Hi. destruct i as [|i]; [rewrite Nat.add_0_r; lia|].
        replace (S j + S i)%nat with (S (S j) + i)%nat by lia. apply Hfullk. lia.
      * replace (S j + S k)%nat with (S (S j) + k)%nat by lia. exact Hlast.
      * rewrite Hasm. cbn [map concat]. rewrite app_assoc. reflexivity.
    + intros i Hi. destruct i as [|i]; [rewrite Nat.add_0_r; lia|].
      replace (S j + S i)%nat with (S (S j) + i)%nat by lia. apply IH. lia.
  - exists 0%nat. cbn [requests assembled]. split; [lia|]. split; [reflexivity|].
    split; [intros i Hi; lia|]. split; [rewrite Nat.add_0_r; lia|].
    cbn. rewrite app_nil_r. reflexivity.
Qed.

(** X3. Against any endpoint, the PowerShell REST loop started at page 1
    is still running after [fuel] requests exactly when each of the first
    [fuel] pages has 100 items. When it ends, it has asked for pages 1 to
    [k + 1] in order, the first [k] of them with 100 items and the last
    with another number, and has assembled the answers to its requests in
    order: nothing is dropped or added. *)
Theorem rest_loop_stops_at_first_short_page {A} (Invoke : Z -> list A) (fuel : nat) :
  (list_all Invoke fuel = None
   <-> forall i, (i < fuel)%nat -> length (Invoke (Z.of_nat (S i))) = 100%nat)
  /\ (forall f, list_all Invoke fuel = Some f ->
        exists k, (k < fuel)%nat
          /\ requests f = page_numbers 0 (S k)
          /\ (forall i, (i < k)%nat -> length (Invoke (Z.of_nat (S i))) = 100%nat)
          /\ length (Invoke (Z.of_nat (S k))) <> 100%nat
          /\ assembled f = concat (map Invoke (requests f))).
Proof.
  unfold list_all. pose proof (rest_do_while_trace Invoke fuel 0 []) as H.
  change (Z.of_nat 1) with 1%Z in H.
  destruct (rest_do_while Invoke fuel 1 []) as [f|].
  - destruct H as (k & Hk & Hreq & Hfull & Hlast & Hasm). split.
    + split; [discriminate|]. intros Hall. exfalso. apply Hlast.
      apply (Hall k Hk).
    + intros f' Hf. injection Hf as <-. exists k. auto.
  - split; [|discriminate]. split; [|reflexivity]. intros _ i Hi. apply (H i Hi).
Qed.

(** X4. As the file has it, [repoNames] never handles a repository:
    whatever [listForOrg] does, it asks for page 1 only, ends in its
    [catch] with an error for [core.setFailed], and leaves [collabsArray]
    as it was. After [k] secondary rate limits, [k] below 5, the first
    answer to the request is followed by the call of [getRateLimitSleep],
    which the file does not define: the error is the [ReferenceError],
    thrown at attempt [k + 1] without a further sleep. *)
Theorem repoNames_ends_at_its_first_answer {A St}
    (listForOrg : Z -> Z -> nat -> Retry.Outcome (list A) Retry.JsError)
    (collabRole : A -> St -> St) (fuel : nat) (collabsArray : St) :
  (exists error,
     repoNames listForOrg collabRole (S fuel) collabsArray
     = Some (mkEnded [1%Z] (Some (Thrown error)) collabsArray))
  /\ (forall k response,
        (k < 5)%nat ->
        (forall j, (j < k)%nat -> Retry.secondary (listForOrg perPage 1%Z j) = true) ->
        listForOrg perPage 1%Z k = Retry.Resolved response ->
        repoNames listForOrg collabRole (S fuel) collabsArray
        = Some (mkEnded [1%Z]
                  (Some (Thrown (Retry.mkJsError "getRateLimitSleep is not defined")))
                  collabsArray)
        /\ Retry.calls (Retry.retryWithBackoff (listForOrg_then_sleep listForOrg 1%Z) 5 2000)
           = S k
        /\ Retry.sleeps (Retry.retryWithBackoff (listForOrg_then_sleep listForOrg 1%Z) 5 2000)
           = Retry.backoff 2000 k).
Proof.
  split.
  - apply repoNames_while_caught.
  - intros k response Hk Hsec Hanswer. unfold repoNames. cbn [repoNames_while].
    rewrite (listForOrg_answer_thrown listForOrg 1%Z k response Hk Hsec Hanswer).
    repeat split.
Qed.
End RestTraces.

(** ** Cursor loops that assemble rows *)

Section CursorRows.
Import Paging.

Lemma fold_push {A B} (f : A -> B) (l : list A) :
  forall acc, fold_left (fun a x => a ++ [f x]) l acc = acc ++ map f l.
Proof.
  induction l as [|x l IH]; intros acc; cbn [fold_left map].
  - rewrite app_nil_r. reflexivity.
  - rewrite IH, <- app_assoc. reflexivity.
Qed.

(** X5. The cursor loops of the PowerShell report end on every page
    sequence, also when a page that reports a next page has no items: the
    cursor is taken from each response. The members loop of step 4 gives
    one member per edge of all pages, in order, and the SSO loop one entry
    per identity with a linked account. *)
Theorem report_cursor_loops_end_on_every_sequence
    (members : list (list MemberEdge)) (identities : list (list ExternalIdentity)) :
  (exists asked,
     Sso.step4 (paged_connection members) (S (length members))
     = Some (asked,
             map (fun edge => mkMember (node_login edge) (edge_role edge)) (concat members)))
  /\ (exists asked,
        Get_GitHubOrgSSOEmails (paged_connection identities) (S (length identities))
        = Some (asked, linked (concat identities))).
Proof.
  split.
  - destruct (ps_cursor_do_while_pages
                (fun edge memberArray =>
                   memberArray ++ [mkMember (node_login edge) (edge_role edge)])
                members (length members) None [] (S (length members)))
      as [asked Hrun]; [cbn [cursor_index]; lia|lia|].
    exists asked. unfold Sso.step4. rewrite Hrun. cbn [cursor_index]. rewrite skipn_O.
    rewrite (fold_push (fun edge => mkMember (node_login edge) (edge_role edge))).
    reflexivity.
  - destruct (ps_cursor_do_while_pages ssoEmail_body identities (length identities) None []
                (S (length identities))) as [asked Hrun]; [cbn [cursor_index]; lia|lia|].
    exists asked. unfold Get_GitHubOrgSSOEmails. rewrite Hrun. cbn [cursor_index].
    rewrite skipn_O, fold_ssoEmail_body. reflexivity.
Qed.

Lemma fold_collabRole_body rolePermission org_ repo (roles : list Action.RoleEdge) :
  forall collabsArray,
    fold_left (fun a role => Action.collabRole_body rolePermission org_ repo role a)
      roles collabsArray
    = collabsArray
      ++ map (ActionRows.collab_of org_ repo)
           (List.filter (ActionRows.passes rolePermission) roles).
Proof.
  induction roles as [|role roles IH]; intros collabsArray.
  - cbn. rewrite app_nil_r. reflexivity.
  - cbn [fold_left List.filter]. rewrite IH.
    unfold Action.collabRole_body, ActionRows.passes.
    fold (ActionRows.collab_of org_ repo role).
    destruct (String.eqb (Action.role_permission role) rolePermission); cbn [orb].
    + cbn [map]. rewrite <- app_assoc. reflexivity.
    + destruct (String.eqb rolePermission "ALL").
      * cbn [map]. rewrite <- app_assoc. reflexivity.
      * reflexivity.
Qed.

(** X6. Over the pages of a repository's collaborators, each page that
    reports a next page having an edge, [collabRole] ends and appends to
    the rows collected so far one row per edge whose permission is the
    one asked for, or per edge when [ALL] is asked for, in the order of
    the pages; a missing name or list of verified emails is the empty
    string, and the emails are joined with [", "]. *)
Theorem collabRole_appends_matching_edges
    (rolePermission org_ : string) (repo : Action.RepoInfo)
    (pages : list (list Action.RoleEdge)) (collabsArray : list Action.Collab) :
  nonfinal_nonempty pages ->
  exists asked,
    Action.collabRole rolePermission org_ (paged_connection pages) (S (length pages))
      repo collabsArray
    = Some (asked,
            collabsArray
            ++ map (ActionRows.collab_of org_ repo)
                 (List.filter (ActionRows.passes rolePermission) (concat pages))).
Proof.
  intros Hne.
  destruct (cursor_do_while_pages (Action.collabRole_body rolePermission org_ repo) pages
              Hne (length pages) None collabsArray (S (length pages)))
    as [asked Hrun]; [cbn [cursor_index]; lia|lia|].
  exists asked. unfold Action.collabRole. rewrite Hrun. cbn [cursor_index].
  rewrite skipn_O, fold_collabRole_body. reflexivity.
Qed.
End CursorRows.

(** Two pages of collaborators of [web], filter [ADMIN]. *)
Lemma collabRole_appends_matching_edges_witness :
  exists asked,
    Action.collabRole "ADMIN" "acme"
      (Paging.paged_connection
         [[Action.mkRoleEdge "ada" (Some "Ada") (Some ["ada@example.org"; "ada@example.com"])
             "ADMIN";
           Action.mkRoleEdge "bob" None None "WRITE"];
          [Action.mkRoleEdge "cy" None (Some []) "ADMIN"]])
      3 (Action.mkRepoInfo "web" "PRIVATE") []
    = Some (asked,
            [Action.mkCollab "web" "ada" "Ada" "ada@example.org, ada@example.com" "ADMIN"
               "PRIVATE" "acme";
             Action.mkCollab "web" "cy" "" "" "ADMIN" "PRIVATE" "acme"]).
Proof.
  refine (collabRole_appends_matching_edges "ADMIN" "acme" (Action.mkRepoInfo "web" "PRIVATE")
            [[Action.mkRoleEdge "ada" (Some "Ada")
                (Some ["ada@example.org"; "ada@example.com"]) "ADMIN";
              Action.mkRoleEdge "bob" None None "WRITE"];
             [Action.mkRoleEdge "cy" None (Some []) "ADMIN"]] [] _).
  intros i Hi. cbn [length] in Hi. destruct i as [|i]; [discriminate|lia].
Defined.

(** ** Hashtables filled in a loop *)

Section FilledHashtables.
Context {A V : Type} (key : A -> string) (val : A -> V).
Local Abbreviation fill := (Client.fill key val).

Lemma fill_app es1 es2 h : fill (es1 ++ es2) h = fill es2 (fill es1 h).
Proof. unfold Client.fill. apply fold_left_app. Qed.

(** A key that no element has is left as it was. *)
Lemma fill_other es :
  forall h k, (forall e, In e es -> key e <> k) -> fill es h !! k = h !! k.
Proof.
  induction es as [|e es IH]; intros h k Hk; [reflexivity|].
  unfold Client.fill. cbn [fold_left]. fold (fill es (<[key e := val e]> h)).
  rewrite IH by (intros x Hx; apply Hk; right; exact Hx).
  apply lookup_insert_ne. apply Hk. left. reflexivity.
Qed.

(** The last element with a key decides its value. *)
Lemma fill_last before e after h :
  (forall x, In x after -> key x <> key e) ->
  fill (before ++ e :: after) h !! key e = Some (val e).
Proof.
  intros Hafter. rewrite fill_app. unfold Client.fill at 1. cbn [fold_left].
  fold (fill after (<[key e := val e]> (fill before h))).
  rewrite fill_other by exact Hafter. apply lookup_insert_eq.
Qed.
End FilledHashtables.

(** ** Values looked up by login *)

Section LoginLookups.
Import Paging Report.

(** [$hash[$user]] is the value of the last entry whose login is [$user]
    up to case. *)
Lemma hash_get_last (entries before after : list (string * string)) e user :
  entries = before ++ e :: after ->
  Str.ps_eq (fst e) user = true ->
  (forall x, In x after -> Str.ps_eq (fst x) user = false) ->
  hash_get (hash_of entries) user = snd e.
Proof.
  intros -> He Hafter. apply ps_eq_true in He. unfold hash_get. rewrite <- He.
  change (hash_of (before ++ e :: after))
    with (Client.fill (fun x => Str.ToLower (fst x)) snd (before ++ e :: after) ∅).
  rewrite (fill_last (fun x : string * string => Str.ToLower (fst x)) snd); [reflexivity|].
  intros x Hx Heq. specialize (Hafter x Hx).
  apply not_true_iff_false in Hafter. apply Hafter. apply ps_eq_true. congruence.
Qed.

Lemma hash_get_none (entries : list (string * string)) user :
  (forall x, In x entries -> Str.ps_eq (fst x) user = false) ->
  hash_get (hash_of entries) user = "".
Proof.
  intros Hnone. unfold hash_get.
  change (hash_of entries)
    with (Client.fill (fun x => Str.ToLower (fst x)) snd entries ∅).
  rewrite (fill_other (fun x : string * string => Str.ToLower (fst x)) snd);
    [reflexivity|].
  intros x Hx Heq. specialize (Hnone x Hx).
  apply not_true_iff_false in Hnone. apply Hnone. apply ps_eq_true. exact Heq.
Qed.

Lemma find_first {A} (p : A -> bool) before e after :
  p e = true -> (forall x, In x before -> p x = false) ->
  List.find p (before ++ e :: after) = Some e.
Proof.
  intros He. induction before as [|b before IH]; intros Hbefore; cbn [app List.find].
  - rewrite He. reflexivity.
  - rewrite (Hbefore b) by (left; reflexivity).
    apply IH. intros x Hx. apply Hbefore. right. exact Hx.
Qed.

(** X7. [mergeArrays] appends one row per collected row, in order, and
    copies the repository, login, name, verified email, permission and
    organisation. The SSO email of a row is that of the first entry of
    [emailArray] whose login is the row's login exactly, and the empty
    string when no entry has it. *)
Theorem mergeArrays_copies_rows_first_sso_match
    (collabsArray : list Action.Collab) (emailArray : list SsoEmail)
    (mergeArray : list Action.SsoCollab) (memberArray : list Member) :
  exists rows,
    Action.mergeArrays collabsArray emailArray mergeArray memberArray = mergeArray ++ rows
    /\ map ActionRows.copied rows = map ActionRows.collected collabsArray
    /\ Forall (fun row =>
                 (forall before e after,
                    emailArray = before ++ e :: after ->
                    sso_login e = Action.m_login row ->
                    (forall x, In x before -> sso_login x <> Action.m_login row) ->
                    Action.ssoEmailValue row = ssoEmail_ e)
                 /\ ((forall x, In x emailArray -> sso_login x <> Action.m_login row) ->
                     Action.ssoEmailValue row = ""))
         rows.
Proof.
  exists (map (Action.ssoCollab_of emailArray memberArray) collabsArray).
  split; [apply mergeArrays_map|]. split.
  - rewrite map_map. apply map_ext. intros collab. reflexivity.
  - apply List.Forall_forall. intros row Hrow.
    apply in_map_iff in Hrow. destruct Hrow as [collab [<- _]].
    cbn [Action.ssoCollab_of Action.m_login Action.ssoEmailValue]. split.
    + intros before e after -> He Hbefore.
      rewrite (find_first _ before e after); [reflexivity| |].
      * apply String.eqb_eq. exact He.
      * intros x Hx. apply String.eqb_neq. apply Hbefore. exact Hx.
    + intros Hnone. rewrite find_absent; [reflexivity|].
      intros x Hx. apply String.eqb_neq. apply Hnone. exact Hx.
Qed.

(** X10. In every row of the report, [ssoEmail] is one string: the SSO
    email of the last entry of [$emailArray] whose login is the row's up
    to case, and the empty string when there is none; what step 8 had
    put there is overwritten. [verifiedEmail] is read the same way from
    the verified emails. *)
Theorem report_emails_from_last_matching_entry
    (Org Permission : string) (FetchNames : bool) (Keys : list Perm.PermKey)
    (collaborators : string -> list Collab) (Get_GitHubUserName : string -> string)
    (verifiedEmails : list (string * string)) (repos : list string)
    (emailArray : list SsoEmail) (memberArray : list Member)
    (teamRepoPerms : list TeamRepoPerm) (teamMembers : list TeamMember) :
  Forall (fun row =>
            (forall before e after,
               emailArray = before ++ e :: after ->
               Str.ps_eq (sso_login e) (login row) = true ->
               (forall x, In x after -> Str.ps_eq (sso_login x) (login row) = false) ->
               ssoEmail row = PSString (ssoEmail_ e))
            /\ ((forall x, In x emailArray -> Str.ps_eq (sso_login x) (login row) = false) ->
                ssoEmail row = PSString "")
            /\ (forall before v after,
                  verifiedEmails = before ++ v :: after ->
                  Str.ps_eq (fst v) (login row) = true ->
                  (forall x, In x after -> Str.ps_eq (fst x) (login row) = false) ->
                  verifiedEmail row = snd v)
            /\ ((forall x, In x verifiedEmails -> Str.ps_eq (fst x) (login row) = false) ->
                verifiedEmail row = ""))
    (report Org Permission FetchNames Keys collaborators Get_GitHubUserName verifiedEmails
       repos emailArray memberArray teamRepoPerms teamMembers).
Proof.
  apply List.Forall_forall. intros row Hrow.
  apply In_filter_rows in Hrow. destruct Hrow as [Hrow _].
  apply in_map_iff in Hrow. destruct Hrow as [row0 [<- _]].
  cbn [enrich login ssoEmail verifiedEmail].
  set (entries := map (fun s => (sso_login s, ssoEmail_ s)) emailArray).
  repeat split.
  - intros before e after Hsplit He Hafter. f_equal.
    apply (hash_get_last entries
             (map (fun s => (sso_login s, ssoEmail_ s)) before)
             (map (fun s => (sso_login s, ssoEmail_ s)) after)
             (sso_login e, ssoEmail_ e)).
    + unfold entries. rewrite Hsplit, map_app. reflexivity.
    + exact He.
    + intros x Hx. apply in_map_iff in Hx. destruct Hx as [s [<- Hs]].
      apply Hafter. exact Hs.
  - intros Hnone. f_equal. apply hash_get_none.
    intros x Hx. apply in_map_iff in Hx. destruct Hx as [s [<- Hs]].
    apply Hnone. exact Hs.
  - intros before v after Hsplit Hv Hafter.
    apply (hash_get_last verifiedEmails before after v (login row0) Hsplit Hv Hafter).
  - intros Hnone. apply hash_get_none. exact Hnone.
Qed.
End LoginLookups.

(** ** SSO identities: what a failure leaves *)

Section SsoFailures.
Import Paging Sso.

(** While every request is answered with the provider, the loop of
    [Get-GitHubOrgSSOEmails] is the cursor loop over the connections. *)
Lemma sso_do_while_answered {C} (Invoke : option C -> Answer (option (Connection ExternalIdentity C)))
    (connection : option C -> Connection ExternalIdentity C) :
  (forall cursor, Invoke cursor = Answered (Some (connection cursor))) ->
  forall fuel cursor emailArray,
    sso_do_while Invoke fuel cursor emailArray
    = match ps_cursor_do_while connection ssoEmail_body fuel cursor emailArray with
      | Some (_, out) => Some (Done out)
      | None => None
      end.
Proof.
  intros Hanswered. induction fuel as [|fuel IH]; intros cursor emailArray; [reflexivity|].
  cbn [sso_do_while ps_cursor_do_while]. rewrite Hanswered.
  destruct (hasNextPage (connection cursor)); [|reflexivity].
  rewrite IH.
  destruct (ps_cursor_do_while connection ssoEmail_body fuel (endCursor (connection cursor)) _)
    as [[asked out]|]; reflexivity.
Qed.

(** Pages that all announce a next page, then an error: the error leaves
    the loop, whatever had been gathered. *)
Lemma sso_do_while_then_failed pages errMsg :
  forall r cursor emailArray fuel,
    (cursor_index cursor <= length pages)%nat ->
    (length pages - cursor_index cursor <= r)%nat ->
    (r < fuel)%nat ->
    sso_do_while (pages_then_failed pages errMsg) fuel cursor emailArray
    = Some (Raised errMsg).
Proof.
  induction r as [|r IH]; intros cursor emailArray fuel Hle Hr Hfuel;
    (destruct fuel as [|fuel]; [lia|]); cbn [sso_do_while]; unfold pages_then_failed at 1;
    cbn zeta; destruct (nth_error pages (cursor_index cursor)) as [page|] eqn:Hpage;
    try reflexivity;
    assert (cursor_index cursor < length pages)%nat
      by (apply List.nth_error_Some; congruence).
  - lia.
  - cbn [edges hasNextPage endCursor]. apply IH; cbn [cursor_index]; lia.
Qed.

(** X8. Step 3 never ends with an error that tells of an enterprise
    SAML provider or of a forbidden query: such an error, from the
    provider query or from the query of any page, leaves [$emailArray]
    empty, with the entries of the pages before it dropped. Without a
    provider no page is asked for and [$emailArray] is empty. With a
    provider and every page answered, it holds one entry per identity
    with a linked account. *)
Theorem sso_step3_degrades_on_enterprise_saml :
  (forall C (Invoke : option C -> Answer (option (Connection ExternalIdentity C)))
          ssoData fuel,
     match step3 Invoke ssoData fuel with
     | Some (Raised errMsg) => enterprise_saml errMsg = false
     | _ => True
     end)
  /\ (forall C (Invoke : option C -> Answer (option (Connection ExternalIdentity C)))
             fuel errMsg,
        step3 Invoke (Answered false) fuel = Some (Done [])
        /\ step3 Invoke (Failed errMsg) fuel
           = Some (if enterprise_saml errMsg then Done [] else Raised errMsg))
  /\ (forall pages,
        step3 (answered_pages pages) (Answered true) (S (length pages))
        = Some (Done (linked (concat pages))))
  /\ (forall pages errMsg,
        step3 (pages_then_failed pages errMsg) (Answered true) (S (length pages))
        = Some (if enterprise_saml errMsg then Done [] else Raised errMsg)).
Proof.
  split; [|split; [|split]].
  - intros C Invoke ssoData fuel. unfold step3.
    destruct (Sso.Get_GitHubOrgSSOEmails Invoke ssoData fuel) as [[out|errMsg]|]; [exact I| |exact I].
    destruct (enterprise_saml errMsg) eqn:Hsaml; [exact I|exact Hsaml].
  - intros C Invoke fuel errMsg. split; [reflexivity|].
    unfold step3, Sso.Get_GitHubOrgSSOEmails.
    destruct (enterprise_saml errMsg) eqn:Hsaml; [reflexivity|]. rewrite Hsaml. reflexivity.
  - intros pages. unfold step3, Sso.Get_GitHubOrgSSOEmails.
    rewrite (sso_do_while_answered (answered_pages pages) (paged_connection pages))
      by reflexivity.
    destruct (ps_cursor_do_while_pages ssoEmail_body pages (length pages) None []
                (S (length pages))) as [asked Hrun]; [cbn [cursor_index]; lia|lia|].
    rewrite Hrun. cbn [cursor_index]. rewrite skipn_O, fold_ssoEmail_body. reflexivity.
  - intros pages errMsg. unfold step3, Sso.Get_GitHubOrgSSOEmails.
    rewrite (sso_do_while_then_failed pages errMsg (length pages));
      [|cbn [cursor_index]; lia..].
    destruct (enterprise_saml errMsg); reflexivity.
Qed.
End SsoFailures.

(** ** Verified emails *)

Section VerifiedEmails.
Import Report Verified.

Lemma NoDup_snoc {A} (l : list A) v : List.NoDup l -> ~ In v l -> List.NoDup (l ++ [v]).
Proof.
  induction l as [|x l IH]; intros Hl Hv; cbn [app].
  - constructor; [intros []|constructor].
  - apply List.NoDup_cons_iff in Hl. destruct Hl as [Hx Hl].
    constructor.
    + rewrite in_app_iff. intros [Hin|[->|[]]]; [exact (Hx Hin)|].
      apply Hv. left. reflexivity.
    + apply IH; [exact Hl|]. intros Hin. apply Hv. right. exact Hin.
Qed.

Lemma Unique_fold values :
  forall seen,
    List.NoDup seen ->
    let out := fold_left (fun seen v => if existsb (String.eqb v) seen then seen
                                        else seen ++ [v]) values seen in
    List.NoDup out /\ forall x, In x out <-> In x seen \/ In x values.
Proof.
  induction values as [|v values IH]; intros seen Hseen; cbn [fold_left].
  - split; [exact Hseen|]. intros x. cbn. tauto.
  - destruct (existsb (String.eqb v) seen) eqn:Hin.
    + destruct (IH seen Hseen) as [Hnd Hmem]. split; [exact Hnd|].
      intros x. rewrite Hmem. cbn [In].
      apply existsb_exists in Hin. destruct Hin as [y [Hy Heq]].
      apply String.eqb_eq in Heq. subst y.
      split; [tauto|]. intros [H|[<-|H]]; auto.
    + assert (Hv : ~ In v seen).
      { intros Hv. apply not_true_iff_false in Hin. apply Hin.
        apply existsb_exists. exists v. split; [exact Hv|apply String.eqb_refl]. }
      destruct (IH (seen ++ [v]) (NoDup_snoc seen v Hseen Hv)) as [Hnd Hmem].
      split; [exact Hnd|]. intros x. rewrite Hmem, in_app_iff. cbn [In]. tauto.
Qed.

(** [Select-Object -Unique] keeps each value once. *)
Lemma Unique_spec values :
  List.NoDup (Unique values) /\ forall x, In x (Unique values) <-> In x values.
Proof.
  destruct (Unique_fold values [] (List.NoDup_nil _)) as [Hnd Hmem].
  split; [exact Hnd|]. intros x. unfold Unique. rewrite Hmem. cbn. tauto.
Qed.

Lemma Get_GitHubOrgVerifiedEmails_entry query Logins e :
  In e (Get_GitHubOrgVerifiedEmails query Logins) -> In (fst e) Logins.
Proof.
  unfold Get_GitHubOrgVerifiedEmails. rewrite List.in_flat_map.
  intros [user [Huser He]].
  destruct (query user) as [emails|errMsg]; [|destruct He].
  destruct (truthy emails); [|destruct He].
  destruct He as [<-|[]]. exact Huser.
Qed.

(** X9. When the logins of the merged rows that are equal up to case are
    equal, the verified email that steps 10 and 11 give a row is the
    answer to the query for its login, joined with [", "]: the empty
    string when the query fails or finds no email. One query is made per
    login, however many rows it has. *)
Theorem verified_email_is_the_answer_for_the_login
    (query : string -> Sso.Answer (list string)) (allRows : list Row)
    (Get_GitHubUserName : string -> string)
    (emailArray : list Paging.SsoEmail) (memberArray : list Paging.Member) :
  (forall r r', In r allRows -> In r' allRows ->
                Str.ps_eq (login r) (login r') = true -> login r = login r') ->
  List.NoDup (Unique (map login allRows))
  /\ forall row, In row allRows ->
       verifiedEmail (enrich Get_GitHubUserName (step10 query allRows)
                        emailArray memberArray row)
       = match query (login row) with
         | Sso.Answered emails => if truthy emails then Action.join ", " emails else ""
         | Sso.Failed _ => ""
         end.
Proof.
  intros Hcase. destruct (Unique_spec (map login allRows)) as [Hnd Hmem].
  split; [exact Hnd|]. intros row Hrow.
  cbn [enrich verifiedEmail]. unfold step10.
  set (u := login row).
  assert (Hu : In u (Unique (map login allRows))).
  { apply Hmem. apply in_map. exact Hrow. }
  destruct (in_split _ _ Hu) as [L1 [L2 HL]].
  rewrite HL in Hnd, Hmem |- *.
  pose proof (List.NoDup_remove_2 _ _ _ Hnd) as Hfresh.
  assert (Hothers : forall x,
             In x (Get_GitHubOrgVerifiedEmails query (L1 ++ L2)) ->
             Str.ps_eq (fst x) u = false).
  { intros x Hx. apply Get_GitHubOrgVerifiedEmails_entry in Hx.
    destruct (Str.ps_eq (fst x) u) eqn:Heq; [|reflexivity]. exfalso.
    assert (Hx' : In (fst x) (map login allRows)).
    { apply Hmem. rewrite in_app_iff in *. cbn [In]. tauto. }
    apply in_map_iff in Hx'. destruct Hx' as [r' [Hr' Hin']].
    rewrite <- Hr' in Heq. pose proof (Hcase r' row Hin' Hrow Heq) as Hsame.
    apply Hfresh. rewrite <- Hr' in Hx. rewrite Hsame in Hx. exact Hx. }
  unfold Get_GitHubOrgVerifiedEmails in *. rewrite flat_map_app in *.
  cbn [flat_map]. fold u.
  destruct (query u) as [emails|errMsg].
  - destruct (truthy emails).
    + cbn [app].
      apply (hash_get_last _ _ _ (u, Action.join ", " emails) u eq_refl).
      * apply ps_eq_refl.
      * intros x Hx. apply Hothers. rewrite in_app_iff. right. exact Hx.
    + cbn [app]. apply hash_get_none. exact Hothers.
  - cbn [app]. apply hash_get_none. exact Hothers.
Qed.
End VerifiedEmails.

(** [alice] has two rows and two verified emails; the query for [carol]
    fails. *)
Lemma verified_email_is_the_answer_for_the_login_witness :
  Forall (fun row =>
            Report.verifiedEmail
              (Report.enrich (fun _ => "")
                 (Verified.step10 Verified.example_query Verified.example_rows) [] [] row)
            = if String.eqb (Report.login row) "carol" then ""
              else "alice@example.org, alice@example.com")
    Verified.example_rows.
Proof.
  assert (Hcase : forall r r', In r Verified.example_rows -> In r' Verified.example_rows ->
                    Str.ps_eq (Report.login r) (Report.login r') = true ->
                    Report.login r = Report.login r').
  { intros r r' Hr Hr'. unfold Verified.example_rows in Hr, Hr'.
    each_member Hr ltac:(each_member Hr' ltac:(
      vm_compute; first [reflexivity | discriminate])). }
  apply List.Forall_forall. intros row Hrow.
  rewrite (proj2 (verified_email_is_the_answer_for_the_login Verified.example_query
                    Verified.example_rows (fun _ => "") [] [] Hcase) row Hrow).
  unfold Verified.example_rows in Hrow. each_member Hrow ltac:(reflexivity).
Defined.

(** ** Permission scans, whatever the order of the keys *)

Section PermissionScans.
Import Perm.

(** The scan of step 8 keeps the last key of [Keys] whose flag is set. *)
Lemma directPerm_scan_last Keys permissions :
  match directPerm_scan Keys permissions with
  | Some directPerm =>
      exists before k after,
        Keys = before ++ k :: after
        /\ flag permissions k = true
        /\ directPerm = permissionDisplay k
        /\ forall k', In k' after -> flag permissions k' = false
  | None => forall k, In k Keys -> flag permissions k = false
  end.
Proof.
  induction Keys as [|k Keys IH] using rev_ind.
  - intros k [].
  - rewrite directPerm_scan_snoc. destruct (flag permissions k) eqn:Hk.
    + exists Keys, k, []. repeat split; [exact Hk|]. intros k' [].
    + destruct (directPerm_scan Keys permissions) as [directPerm|].
      * destruct IH as [before [k0 [after [-> [Hk0 [-> Hafter]]]]]].
        exists before, k0, (after ++ [k]). rewrite <- app_assoc. repeat split; [exact Hk0|].
        intros k' Hin. apply in_app_iff in Hin. destruct Hin as [Hin|[<-|[]]];
          [apply Hafter; exact Hin|exact Hk].
      * intros k' Hin. apply in_app_iff in Hin. destruct Hin as [Hin|[<-|[]]];
          [apply IH; exact Hin|exact Hk].
Qed.

Lemma flagged_below_highest permissions k :
  flag permissions k = true ->
  exists h, highest permissions = Some h
            /\ (IndexOf (permissionDisplay k) <= IndexOf h)%Z.
Proof.
  destruct permissions as [[] [] [] [] []], k; cbn [flag pull push f_admin f_maintain f_triage];
    intros Hk; try discriminate Hk;
    (eexists; split; [reflexivity|vm_compute; discriminate]).
Qed.

(** X11. Whatever the order in which [$permissionDisplay.Keys]
    enumerates, the level that step 8 gives a direct collaborator is that
    of the last key in this order whose flag is set: it is the level of a
    flag that is set, never above the highest of them, and it is empty
    exactly when no flag of [Keys] is set. A collaborator gets at most
    one direct row. *)
Theorem directPerm_is_last_set_flag
    (Org Permission : string) (FetchNames : bool) (Keys : list PermKey)
    (Get_GitHubUserName : string -> string)
    (emailArray : list Paging.SsoEmail) (memberArray : list Paging.Member)
    (repo : string) (collab : Report.Collab) :
  let permissions := Report.c_permissions collab in
  match directPerm_scan Keys permissions with
  | Some directPerm =>
      (exists before k after,
         Keys = before ++ k :: after
         /\ flag permissions k = true
         /\ directPerm = permissionDisplay k
         /\ forall k', In k' after -> flag permissions k' = false)
      /\ (exists h, highest permissions = Some h
                    /\ (IndexOf directPerm <= IndexOf h)%Z)
  | None => forall k, In k Keys -> flag permissions k = false
  end
  /\ (length (Report.collab_rows Org Permission FetchNames Keys Get_GitHubUserName
                emailArray memberArray repo collab) <= 1)%nat.
Proof.
  intros permissions. split.
  - pose proof (directPerm_scan_last Keys permissions) as Hlast.
    destruct (directPerm_scan Keys permissions) as [directPerm|]; [|exact Hlast].
    split; [exact Hlast|].
    destruct Hlast as [before [k [after [_ [Hk [-> _]]]]]].
    apply flagged_below_highest. exact Hk.
  - unfold Report.collab_rows. fold permissions.
    destruct (directPerm_scan Keys permissions) as [directPerm|]; [|cbn; lia].
    destruct (Str.ps_eq Permission "ALL"
              || Str.ps_eq (Report.permKey Permission) (display_name directPerm));
      cbn; lia.
Qed.

Lemma key_name_inj k k' :
  Str.ToLower (key_name k) = Str.ToLower (key_name k') -> k = k'.
Proof. destruct k, k'; vm_compute; congruence. Qed.

Section MemberResolution.
Context `{Runtime}.

(** A name that is a flag's reads the flag. *)
Lemma flag_named_flag permissions s k :
  Str.ps_eq (key_name k) s = true -> flag_named permissions s = flag permissions k.
Proof.
  intros Hk. unfold flag_named.
  destruct (List.find (fun k => Str.ps_eq (key_name k) s)
              [key_pull; key_push; key_admin; key_maintain; key_triage])
    as [k'|] eqn:Hfind.
  - apply List.find_some in Hfind. destruct Hfind as [_ Hk'].
    apply ps_eq_true in Hk, Hk'. rewrite (key_name_inj k' k); [reflexivity|congruence].
  - rewrite (List.find_none _ _ Hfind k) in Hk; [discriminate Hk|].
    destruct k; cbn; tauto.
Qed.

(** Any other name is left to the runtime. *)
Lemma flag_named_other permissions s :
  (forall k, Str.ps_eq (key_name k) s = false) ->
  flag_named permissions s = intrinsic_member s.
Proof.
  intros Hnone. unfold flag_named. rewrite find_absent; [reflexivity|].
  intros k _. apply Hnone.
Qed.

(** The older report for a level other than [ALL]: a row per
    collaborator for whom [$permissions.$permKey] is true, [$permKey]
    not being empty. *)
Lemma older_report_rows Org Permission Properties collaborators emailArray memberArray repos :
  Str.ps_eq Permission "ALL" = false ->
  Legacy.collabsArray Org Permission Properties collaborators emailArray memberArray repos
  = flat_map
      (fun repo =>
         map (fun collab =>
                Legacy.mkRow (Legacy.repo_name repo) (Legacy.repo_visibility repo)
                  (Report.c_login collab) (Report.c_name collab)
                  (Report.ssoEmailValue_of emailArray (Report.c_login collab)) ""
                  (Str.ToLower Permission) Org
                  (Report.memberValue_of memberArray (Report.c_login collab)))
             (List.filter
                (fun collab => flag_named (Report.c_permissions collab)
                                 (Str.ToLower Permission)
                               && negb (String.eqb (Str.ToLower Permission) ""))
                (collaborators (Legacy.repo_name repo))))
      repos.
Proof.
  intros Hall. unfold Legacy.collabsArray.
  induction repos as [|repo repos IH]; [reflexivity|].
  cbn [flat_map]. rewrite IH. f_equal.
  induction (collaborators (Legacy.repo_name repo)) as [|collab collabs IHc]; [reflexivity|].
  cbn [flat_map List.filter]. rewrite IHc.
  unfold Legacy.collab_rows at 1, matchedPermission_scan. rewrite Hall.
  destruct (flag_named (Report.c_permissions collab) (Str.ToLower Permission));
    [|reflexivity].
  destruct (String.eqb (Str.ToLower Permission) ""); reflexivity.
Qed.

(** X12. The older report, asked for a level other than [ALL], reads
    [$permissions.$permKey] with the level in lower case, and its rows
    all carry that name. When the name is a flag's ([pull], [push],
    [admin], [maintain], [triage]) the rows are those of the
    collaborators whose flag is set. When it is no flag's, [READ] and
    [WRITE] among them, the report has no row at all unless the runtime
    resolves the name to a member that every object has; it then has a
    row for every collaborator, the name not being empty. *)
Theorem older_report_reads_the_member_named_by_the_level
    (Org Permission : string) (Properties : list PermKey)
    (collaborators : string -> list Report.Collab)
    (emailArray : list Paging.SsoEmail) (memberArray : list Paging.Member)
    (repos : list Legacy.Repo) :
  Str.ps_eq Permission "ALL" = false ->
  let rows := Legacy.collabsArray Org Permission Properties collaborators emailArray
                memberArray repos in
  let all_of (keep : Report.Collab -> bool) :=
    flat_map (fun repo =>
                map (fun collab => (Legacy.repo_name repo, Report.c_login collab))
                  (List.filter keep (collaborators (Legacy.repo_name repo))))
      repos in
  let pairs := map (fun row => (Legacy.orgRepo row, Legacy.login row)) rows in
  Forall (fun row => Legacy.permission row = Str.ToLower Permission) rows
  /\ (forall k, Str.ps_eq (key_name k) Permission = true ->
        pairs = all_of (fun collab => flag (Report.c_permissions collab) k))
  /\ ((forall k, Str.ps_eq (key_name k) Permission = false) ->
      (intrinsic_member (Str.ToLower Permission) = false -> rows = [])
      /\ (intrinsic_member (Str.ToLower Permission) = true ->
          Str.ToLower Permission <> "" ->
          pairs = all_of (fun _ => true))).
Proof.
  intros Hall. cbn zeta.
  rewrite (older_report_rows Org Permission Properties collaborators emailArray
             memberArray repos Hall).
  split; [|split].
  - apply List.Forall_forall. intros row Hrow.
    apply List.in_flat_map in Hrow. destruct Hrow as [repo [_ Hrow]].
    apply in_map_iff in Hrow. destruct Hrow as [collab [<- _]]. reflexivity.
  - intros k Hk.
    assert (Hname : String.eqb (Str.ToLower Permission) "" = false).
    { apply ps_eq_true in Hk. rewrite <- Hk. destruct k; reflexivity. }
    rewrite <- ps_eq_ToLower_r in Hk. rewrite Hname.
    induction repos as [|repo repos IH]; [reflexivity|].
    cbn [flat_map]. rewrite map_app, IH, map_map. f_equal. cbn [Legacy.orgRepo Legacy.login].
    f_equal. apply filter_ext. intros collab.
    rewrite (flag_named_flag _ _ k Hk). apply andb_true_r.
  - intros Hnone.
    assert (Hother : forall permissions,
               flag_named permissions (Str.ToLower Permission)
               = intrinsic_member (Str.ToLower Permission)).
    { intros permissions. apply flag_named_other. intros k.
      rewrite ps_eq_ToLower_r. apply Hnone. }
    split.
    + intros Hmember. induction repos as [|repo repos IH]; [reflexivity|].
      cbn [flat_map]. rewrite IH, app_nil_r.
      rewrite filter_none; [reflexivity|].
      intros collab _. rewrite Hother, Hmember. reflexivity.
    + intros Hmember Hname. apply String.eqb_neq in Hname. rewrite Hname.
      induction repos as [|repo repos IH]; [reflexivity|].
      cbn [flat_map]. rewrite map_app, IH, map_map. f_equal.
      cbn [Legacy.orgRepo Legacy.login]. f_equal. apply filter_ext.
      intros collab. rewrite Hother, Hmember. reflexivity.
Qed.
End MemberResolution.
End PermissionScans.

(** An administrator of [web], with a runtime that resolves [ToString]
    and not [read]: asked for with [READ] the older report is empty, asked
    for with [ToString] it has the administrator. *)
Lemma older_report_reads_the_member_named_by_the_level_witness :
  Legacy.collabsArray (H := Perm.example_runtime) "acme" "READ" Report.rising_keys
    Report.example_administrator [] [] [Legacy.mkRepo "web" "private"]
  = []
  /\ map (fun row => (Legacy.orgRepo row, Legacy.login row))
       (Legacy.collabsArray (H := Perm.example_runtime) "acme" "ToString"
          Report.rising_keys Report.example_administrator [] []
          [Legacy.mkRepo "web" "private"])
     = [("web", "alice")].
Proof.
  pose proof (older_report_reads_the_member_named_by_the_level (H := Perm.example_runtime)
                "acme" "READ" Report.rising_keys Report.example_administrator [] []
                [Legacy.mkRepo "web" "private"] eq_refl) as Hread.
  pose proof (older_report_reads_the_member_named_by_the_level (H := Perm.example_runtime)
                "acme" "ToString" Report.rising_keys Report.example_administrator [] []
                [Legacy.mkRepo "web" "private"] eq_refl) as Hmember.
  cbn zeta in Hread, Hmember. split.
  - apply (proj2 Hread); [intros k; destruct k; reflexivity|reflexivity].
  - apply (proj2 (proj2 Hmember));
      [intros k; destruct k; reflexivity|reflexivity|discriminate].
Defined.

(** ** The affiliation audit *)

Section AffiliationAudit.
Import Paging Audit.

(** X13. The affiliation audit ends on every sequence of member pages and
    of collaborator pages. The roles are kept by login, case apart, the
    last node of a login deciding: a collaborator is [Owner] when that
    node's role is [ADMIN], [Member] when it is another role, and
    [Outside] when no node has the login. A repository adds one row per
    collaborator of all its pages, in order. *)
Theorem affiliation_follows_last_member_node
    (pages : list (list MemberNode)) (collaborators : list (list CollabNode))
    (repo : string) (report : list Row) :
  exists asked members,
    members_of (paged_connection pages) (S (length pages)) = Some (asked, members)
    /\ (forall user before m after,
          concat pages = before ++ m :: after ->
          Str.ps_eq (m_login m) user = true ->
          (forall x, In x after -> Str.ps_eq (m_login x) user = false) ->
          affil members user = if Str.ps_eq (m_role m) "ADMIN" then "Owner" else "Member")
    /\ (forall user,
          (forall x, In x (concat pages) -> Str.ps_eq (m_login x) user = false) ->
          affil members user = "Outside")
    /\ exists asked',
         repo_rows members repo (paged_connection collaborators)
           (S (length collaborators)) report
         = Some (asked',
                 report ++ map (fun c => mkRow repo (c_login c) (c_permission c)
                                           (affil members (c_login c)))
                             (concat collaborators)).
Proof.
  destruct (ps_cursor_do_while_pages
              (fun m (members : gmap string string) =>
                 <[Str.ToLower (m_login m) := m_role m]> members)
              pages (length pages) None ∅ (S (length pages)))
    as [asked Hrun]; [cbn [cursor_index]; lia|lia|].
  cbn [cursor_index] in Hrun. rewrite skipn_O in Hrun.
  exists asked. eexists. split; [exact Hrun|].
  change (fold_left _ (concat pages) ∅)
    with (Client.fill (fun m => Str.ToLower (m_login m)) m_role (concat pages) ∅).
  split; [|split].
  - intros user before m after -> Hm Hafter. unfold affil.
    apply ps_eq_true in Hm. rewrite <- Hm.
    rewrite (fill_last (fun m => Str.ToLower (m_login m)) m_role); [reflexivity|].
    intros x Hx Heq. specialize (Hafter x Hx).
    apply not_true_iff_false in Hafter. apply Hafter. apply ps_eq_true. congruence.
  - intros user Hnone. unfold affil.
    rewrite (fill_other (fun m => Str.ToLower (m_login m)) m_role); [reflexivity|].
    intros x Hx Heq. specialize (Hnone x Hx).
    apply not_true_iff_false in Hnone. apply Hnone. apply ps_eq_true. exact Heq.
  - set (members := Client.fill _ _ _ _).
    destruct (ps_cursor_do_while_pages
                (fun c report => report ++ [mkRow repo (c_login c) (c_permission c)
                                              (affil members (c_login c))])
                collaborators (length collaborators) None report
                (S (length collaborators)))
      as [asked' Hrun']; [cbn [cursor_index]; lia|lia|].
    exists asked'. unfold repo_rows. rewrite Hrun'. cbn [cursor_index].
    rewrite skipn_O.
    rewrite (fold_push (fun c => mkRow repo (c_login c) (c_permission c)
                                   (affil members (c_login c)))).
    reflexivity.
Qed.
End AffiliationAudit.

(** ** The headers of a request *)

Section Headers.
Import Client.

Lemma In_keys (src : gmap string string) k :
  In k (map fst (map_to_list src)) <-> exists v, src !! k = Some v.
Proof.
  rewrite in_map_iff. split.
  - intros [[k' v] [<- Hin]]. exists v.
    apply elem_of_map_to_list, list_elem_of_In. exact Hin.
  - intros [v Hv]. exists (k, v). split; [reflexivity|].
    apply list_elem_of_In, elem_of_map_to_list. exact Hv.
Qed.

(** Copying the keys of [src] into [merged]: the value of [src] where it
    has the key, and the value of [merged] elsewhere. *)
Lemma copy_keys_lookup (src merged : gmap string string) k :
  copy_keys src merged !! k
  = match src !! k with Some v => Some v | None => merged !! k end.
Proof.
  change (copy_keys src merged)
    with (fill (fun key : string => key) (fun key => default "" (src !! key))
            (map fst (map_to_list src)) merged).
  destruct (src !! k) as [v|] eqn:Hk.
  - assert (Hin : In k (map fst (map_to_list src))) by (apply In_keys; eauto).
    destruct (in_split _ _ Hin) as [before [after Hsplit]].
    pose proof (NoDup_fst_map_to_list src) as Hnd.
    replace ((map_to_list src).*1) with (map fst (map_to_list src)) in Hnd
      by (induction (map_to_list src) as [|x l IHl]; [reflexivity|cbn; f_equal; exact IHl]).
    rewrite Hsplit in Hnd |- *.
    apply NoDup_ListNoDup, List.NoDup_remove_2 in Hnd.
    rewrite (fill_last (fun key : string => key) (fun key => default "" (src !! key))).
    + rewrite Hk. reflexivity.
    + intros x Hx ->. apply Hnd. apply in_app_iff. right. exact Hx.
  - apply (fill_other (fun key : string => key) (fun key => default "" (src !! key))).
    intros e He ->. apply In_keys in He. destruct He as [v Hv]. congruence.
Qed.

(** X14. [Merge-Headers] without an override gives the base headers.
    With one, a header has the override's value when the override names
    it, in whatever case, and the base's value otherwise: an override of
    [accept] replaces the [Accept] of the defaults, and the token stays. *)
Theorem Merge_Headers_override_wins (base : gmap string string) :
  Merge_Headers base None = base
  /\ (forall override name,
        Merge_Headers base (Some override) !! name
        = match override !! name with Some v => Some v | None => base !! name end)
  /\ (forall Token name value,
        Str.ps_eq name "Accept" = true ->
        let headers := Merge_Headers (defaultHeaders Token) (Some (header name value ∅)) in
        headers !! "accept" = Some value
        /\ headers !! "authorization" = Some ("token " +:+ Token)).
Proof.
  assert (Hbase : forall b : gmap string string, copy_keys b ∅ = b).
  { intros b. apply map_eq. intros k. rewrite copy_keys_lookup.
    destruct (b !! k); [reflexivity|apply lookup_empty]. }
  split; [apply Hbase|]. split.
  - intros override name. unfold Merge_Headers. cbn zeta.
    rewrite Hbase, copy_keys_lookup. reflexivity.
  - intros Token name value Hname. cbn zeta. unfold Merge_Headers. cbn zeta.
    rewrite Hbase, !copy_keys_lookup. apply ps_eq_true in Hname.
    unfold header at 1 2. rewrite Hname.
    change (Str.ToLower "Accept") with "accept".
    rewrite lookup_insert_eq, lookup_insert_ne by discriminate.
    rewrite lookup_empty. split; [reflexivity|].
    unfold defaultHeaders, header. apply lookup_insert_eq.
Qed.
End Headers.

(** ** The merge, key by key *)

Section MergeByKey.
Import Perm Report.

(** Team grants below the row of their key change nothing under it. *)
Lemma fold_merge_team_lower ts :
  forall (m : gmap string Row) k c,
    m !! k = Some c ->
    (forall t, In t ts -> rowKey t = k ->
               (IndexOf (permission t) < IndexOf (permission c))%Z) ->
    fold_left merge_team ts m !! k = Some c.
Proof.
  induction ts as [|t ts IH]; intros m k c Hm Hlow; [exact Hm|].
  cbn [fold_left]. apply IH.
  - destruct (decide (k = rowKey t)) as [Heq|Hne].
    + pose proof (Hlow t (or_introl eq_refl) (eq_sym Heq)) as Hlt.
      unfold merge_team. rewrite <- Heq, Hm.
      destruct (Z.gtb_spec (IndexOf (permission t)) (IndexOf (permission c))); [lia|].
      destruct (Z.eqb_spec (IndexOf (permission t)) (IndexOf (permission c))); [lia|].
      exact Hm.
    + rewrite merge_team_other by exact Hne. exact Hm.
  - intros t' Hin. apply Hlow. right. exact Hin.
Qed.

(** X15. A direct row whose level is above every team grant of its key
    comes out of the merge as it went in: no team is noted in it, and its
    name and organisation role are those of step 8. *)
Theorem lower_team_grants_leave_direct_row (direct teamRows : list Row) (c : Row) :
  List.NoDup (map rowKey direct) ->
  In c direct ->
  (forall t, In t teamRows -> rowKey t = rowKey c ->
             (IndexOf (permission t) < IndexOf (permission c))%Z) ->
  merge direct teamRows !! rowKey c = Some c
  /\ In c (Values (merge direct teamRows)).
Proof.
  intros Hnd Hc Hlow.
  assert (Hrow : merge direct teamRows !! rowKey c = Some c).
  { unfold merge. apply fold_merge_team_lower; [|exact Hlow].
    apply seed_lookup; assumption. }
  split; [exact Hrow|]. apply In_Values. exists (rowKey c). exact Hrow.
Qed.

Lemma keyed_Values_keys (m : gmap string Row) :
  keyed m -> map rowKey (Values m) = map fst (map_to_list m).
Proof.
  intros Hkeyed. unfold Values. rewrite map_map. apply map_ext_in.
  intros [k r] Hin. cbn [fst snd]. apply (Hkeyed k r).
  apply elem_of_map_to_list, list_elem_of_In. exact Hin.
Qed.

Lemma merge_keys_NoDup (direct teamRows : list Row) :
  List.NoDup (map rowKey (Values (merge direct teamRows))).
Proof.
  destruct (merge_spec direct teamRows) as [Hkeyed _].
  rewrite (keyed_Values_keys _ Hkeyed).
  pose proof (NoDup_fst_map_to_list (merge direct teamRows)) as Hnd.
  apply NoDup_ListNoDup in Hnd.
  replace ((map_to_list (merge direct teamRows)).*1)
    with (map fst (map_to_list (merge direct teamRows))) in Hnd; [exact Hnd|].
  induction (map_to_list (merge direct teamRows)) as [|x l IHl];
    [reflexivity|cbn; f_equal; exact IHl].
Qed.

Lemma merge_keys (direct teamRows : list Row) k :
  (exists row, In row (Values (merge direct teamRows)) /\ rowKey row = k)
  <-> (exists g, In g (direct ++ teamRows) /\ rowKey g = k).
Proof.
  destruct (merge_spec direct teamRows) as [Hkeyed [Hfrom [Hdom _]]]. split.
  - intros [row [Hin Hk]]. apply In_Values in Hin. destruct Hin as [k' Hrow].
    destruct (Hfrom k' row Hrow) as [g [Hg Hsame]].
    exists g. split; [exact Hg|]. rewrite (same_grant_key g row Hsame). exact Hk.
  - intros [g [Hg <-]].
    assert (Hcover : exists r, merge direct teamRows !! rowKey g = Some r).
    { apply in_app_iff in Hg. destruct Hg as [Hg|Hg].
      - unfold merge. apply fold_merge_team_covers, seed_covers, Hg.
      - destruct (Hdom g Hg) as [r [Hr _]]. exists r. exact Hr. }
    destruct Hcover as [r Hr]. exists r. split.
    + apply In_Values. exists (rowKey g). exact Hr.
    + apply (Hkeyed _ _ Hr).
Qed.

(** X16. Whatever the grants, no two rows of the merge have the same
    key, the lower-cased ["repository:login"]; and the keys of its rows
    are the keys of the direct and team grants: no grant is lost, and no
    row comes from elsewhere. *)
Theorem merge_one_row_per_key (direct teamRows : list Row) :
  let allRows := Values (merge direct teamRows) in
  List.NoDup (map rowKey allRows)
  /\ forall k,
       (exists row, In row allRows /\ rowKey row = k)
       <-> (exists g, In g (direct ++ teamRows) /\ rowKey g = k).
Proof.
  cbn zeta. split; [apply merge_keys_NoDup|]. intros k. apply merge_keys.
Qed.

Lemma NoDup_map_filter {A B} (f : A -> B) (p : A -> bool) l :
  List.NoDup (map f l) -> List.NoDup (map f (List.filter p l)).
Proof.
  induction l as [|x l IH]; intros Hnd; [exact Hnd|].
  cbn [map] in Hnd. apply List.NoDup_cons_iff in Hnd. destruct Hnd as [Hx Hl].
  cbn [List.filter]. destruct (p x); [|apply IH; exact Hl].
  cbn [map]. constructor; [|apply IH; exact Hl].
  intros Hin. apply Hx. apply in_map_iff in Hin. destruct Hin as [y [Hy Hin]].
  apply filter_In in Hin. apply in_map_iff. exists y. split; [exact Hy|apply Hin].
Qed.

(** X22. The report that is written out has at most one row per key,
    whatever the filter, and each of its rows has the key of a direct or
    team grant. *)
Theorem report_one_row_per_key
    (Org Permission : string) (FetchNames : bool) (Keys : list PermKey)
    (collaborators : string -> list Collab) (Get_GitHubUserName : string -> string)
    (verifiedEmails : list (string * string)) (repos : list string)
    (emailArray : list Paging.SsoEmail) (memberArray : list Paging.Member)
    (teamRepoPerms : list TeamRepoPerm) (teamMembers : list TeamMember) :
  let rows := report Org Permission FetchNames Keys collaborators Get_GitHubUserName
                verifiedEmails repos emailArray memberArray teamRepoPerms teamMembers in
  List.NoDup (map rowKey rows)
  /\ Forall (fun row =>
               exists g,
                 In g (collabsArray Org Permission FetchNames Keys collaborators
                         Get_GitHubUserName repos emailArray memberArray
                       ++ teamUserRepoPerms Org teamRepoPerms teamMembers)
                 /\ rowKey g = rowKey row)
       rows.
Proof.
  cbn zeta. unfold report.
  set (direct := collabsArray Org Permission FetchNames Keys collaborators
                   Get_GitHubUserName repos emailArray memberArray).
  set (teamRows := teamUserRepoPerms Org teamRepoPerms teamMembers).
  set (enriched := map (enrich Get_GitHubUserName verifiedEmails emailArray memberArray)
                     (Values (merge direct teamRows))).
  assert (Hkeys : map rowKey enriched = map rowKey (Values (merge direct teamRows))).
  { unfold enriched. rewrite map_map. apply map_ext. intros row. reflexivity. }
  split.
  - unfold filter_rows. destruct (negb (Str.ps_eq Permission "ALL")).
    + apply NoDup_map_filter. rewrite Hkeys. apply merge_keys_NoDup.
    + rewrite Hkeys. apply merge_keys_NoDup.
  - apply List.Forall_forall. intros row Hrow.
    apply In_filter_rows in Hrow. destruct Hrow as [Hrow _].
    apply (merge_keys direct teamRows (rowKey row)).
    apply (in_map rowKey) in Hrow. rewrite Hkeys in Hrow.
    apply in_map_iff in Hrow. destruct Hrow as [row0 [Hk Hrow0]].
    exists row0. split; [exact Hrow0|exact Hk].
Qed.

Lemma highest_flag permissions h :
  highest permissions = Some h ->
  exists k, flag permissions k = true /\ permissionDisplay k = h.
Proof.
  unfold highest. intros Hfind. apply List.find_some in Hfind.
  destruct Hfind as [_ Hex]. apply existsb_exists in Hex.
  destruct Hex as [k [_ Hk]]. apply andb_prop in Hk. destruct Hk as [Hflag Hdisp].
  exists k. split; [exact Hflag|]. apply bool_decide_eq_true in Hdisp. exact Hdisp.
Qed.

Lemma In_true_flags permissions k :
  flag permissions k = true -> In k (true_flags permissions).
Proof.
  intros Hk. unfold true_flags. apply filter_In. split; [|exact Hk].
  destruct k; cbn; tauto.
Qed.

(** X17. A member of a team has, for every repository of the team, a row
    in the merge whose level is at least the highest level that the
    team's flags on the repository give, whatever the direct grants
    are. *)
Theorem team_member_has_team_level
    (Org : string) (direct : list Row) (teams : list string)
    (team_repos : string -> list TeamRepo) (team_members : string -> list string)
    (teamSlug user : string) (repoPerm : TeamRepo) (h : PermissionLevel) :
  In teamSlug teams ->
  In repoPerm (team_repos teamSlug) ->
  In user (team_members teamSlug) ->
  highest (tr_permissions repoPerm) = Some h ->
  exists row,
    merge direct
      (teamUserRepoPerms Org (teamRepoPerms_of teams team_repos)
         (teamMembers_of teams team_members))
    !! key_of (tr_name repoPerm) user = Some row
    /\ (IndexOf h <= IndexOf (permission row))%Z.
Proof.
  intros Hteam Hrepo Huser Hhigh.
  apply highest_flag in Hhigh. destruct Hhigh as [k [Hflag <-]].
  set (teamRows := teamUserRepoPerms Org (teamRepoPerms_of teams team_repos)
                     (teamMembers_of teams team_members)).
  set (t := mkRow (tr_name repoPerm) user "" (PSString "") "" (permissionDisplay k) Org
              (PSString "") teamSlug).
  assert (Ht : In t teamRows).
  { unfold teamRows, teamUserRepoPerms. apply List.in_flat_map.
    exists (mkTeamRepoPerm (tr_name repoPerm) teamSlug (true_flags (tr_permissions repoPerm))).
    split.
    - unfold teamRepoPerms_of. apply List.in_flat_map. exists teamSlug.
      split; [exact Hteam|].
      apply (in_map (fun repoPerm => mkTeamRepoPerm (tr_name repoPerm) teamSlug
                                       (true_flags (tr_permissions repoPerm)))).
      exact Hrepo.
    - cbn [trp_repo trp_team trp_permission]. apply List.in_flat_map.
      exists (mkTeamMember teamSlug user). split.
      + apply filter_In. split; [|apply ps_eq_refl].
        unfold teamMembers_of. apply List.in_flat_map. exists teamSlug.
        split; [exact Hteam|]. apply in_map. exact Huser.
      + cbn [tm_login].
        apply (in_map (fun perm => mkRow (tr_name repoPerm) user "" (PSString "") ""
                                     (permissionDisplay perm) Org (PSString "") teamSlug)).
        apply In_true_flags. exact Hflag. }
  destruct (merge_spec direct teamRows) as [_ [_ [Hdom _]]].
  destruct (Hdom t Ht) as [row [Hrow Hle]].
  exists row. split; [exact Hrow|exact Hle].
Qed.
End MergeByKey.

(** [alice] writes to [web] directly; team [B] reads and triages it. *)
Lemma lower_team_grants_leave_direct_row_witness :
  Report.merge Report.example_direct
    (Report.teamUserRepoPerms "acme"
       [Report.mkTeamRepoPerm "web" "B" [Perm.key_pull; Perm.key_triage]]
       Report.example_teamMembers)
  !! Report.key_of "web" "alice"
  = Some (Report.mkRow "web" "alice" "Alice" (Report.PSString "") "" Perm.write "acme"
            (Report.PSString "MEMBER") "").
Proof.
  refine (proj1 (lower_team_grants_leave_direct_row Report.example_direct
                   (Report.teamUserRepoPerms "acme"
                      [Report.mkTeamRepoPerm "web" "B" [Perm.key_pull; Perm.key_triage]]
                      Report.example_teamMembers)
                   (Report.mkRow "web" "alice" "Alice" (Report.PSString "") "" Perm.write
                      "acme" (Report.PSString "MEMBER") "")
                   _ _ _)).
  - vm_compute. constructor; [intros []|constructor].
  - left. reflexivity.
  - intros t Hin _. vm_compute in Hin. each_member Hin ltac:(reflexivity).
Defined.

(** Team [B] has the flags of write access on [web], and [bob] is in it. *)
Lemma team_member_has_team_level_witness :
  exists row,
    Report.merge []
      (Report.teamUserRepoPerms "acme"
         (Report.teamRepoPerms_of ["B"]
            (fun _ => [Report.mkTeamRepo "web" (Perm.mkPermissions true true false false true)]))
         (Report.teamMembers_of ["B"] (fun _ => ["bob"])))
    !! Report.key_of "web" "bob" = Some row
    /\ (Perm.IndexOf Perm.write <= Perm.IndexOf (Report.permission row))%Z.
Proof.
  refine (team_member_has_team_level "acme" [] ["B"]
            (fun _ => [Report.mkTeamRepo "web" (Perm.mkPermissions true true false false true)])
            (fun _ => ["bob"]) "B" "bob"
            (Report.mkTeamRepo "web" (Perm.mkPermissions true true false false true))
            Perm.write _ _ _ _).
  - left. reflexivity.
  - left. reflexivity.
  - left. reflexivity.
  - reflexivity.
Defined.

(** ** Names in the report *)

Section ReportNames.
Import Perm Report.

Lemma teamUserRepoPerms_name Org teamRepoPerms teamMembers t :
  In t (teamUserRepoPerms Org teamRepoPerms teamMembers) -> name t = "".
Proof.
  unfold teamUserRepoPerms. rewrite List.in_flat_map. intros [trp [_ Hin]].
  apply List.in_flat_map in Hin. destruct Hin as [member [_ Hin]].
  apply in_map_iff in Hin. destruct Hin as [perm [<- _]]. reflexivity.
Qed.

(** X18. With or without [-FetchNames], step 11 asks for the name of
    every row that reaches it without one: a row of the report has an
    empty name only when the profile has none, and a row whose key has no
    direct grant, coming from teams alone, has the name of the profile. *)
Theorem unnamed_rows_get_the_profile_name
    (Org Permission : string) (FetchNames : bool) (Keys : list PermKey)
    (collaborators : string -> list Collab) (Get_GitHubUserName : string -> string)
    (verifiedEmails : list (string * string)) (repos : list string)
    (emailArray : list Paging.SsoEmail) (memberArray : list Paging.Member)
    (teamRepoPerms : list TeamRepoPerm) (teamMembers : list TeamMember) :
  Forall (fun row =>
            (name row = "" -> Get_GitHubUserName (login row) = "")
            /\ ((forall c,
                   In c (collabsArray Org Permission FetchNames Keys collaborators
                           Get_GitHubUserName repos emailArray memberArray) ->
                   rowKey c <> rowKey row) ->
                name row = Get_GitHubUserName (login row)))
    (report Org Permission FetchNames Keys collaborators Get_GitHubUserName verifiedEmails
       repos emailArray memberArray teamRepoPerms teamMembers).
Proof.
  apply List.Forall_forall. intros row Hrow.
  apply In_filter_rows in Hrow. destruct Hrow as [Hrow _].
  apply in_map_iff in Hrow. destruct Hrow as [row0 [<- Hrow0]].
  change (rowKey (enrich Get_GitHubUserName verifiedEmails emailArray memberArray row0))
    with (rowKey row0).
  cbn [enrich login name]. split.
  - destruct (bool_decide (name row0 = "")) eqn:Hname; [auto|].
    apply bool_decide_eq_false in Hname. intros Hempty. contradiction.
  - intros Hteam. apply In_Values in Hrow0. destruct Hrow0 as [k Hk].
    destruct (merge_spec
                (collabsArray Org Permission FetchNames Keys collaborators
                   Get_GitHubUserName repos emailArray memberArray)
                (teamUserRepoPerms Org teamRepoPerms teamMembers))
      as [_ [Hfrom _]].
    destruct (Hfrom k row0 Hk) as [g [Hg Hsame]].
    apply in_app_iff in Hg. destruct Hg as [Hg|Hg].
    + exfalso. apply (Hteam g Hg). apply same_grant_key. exact Hsame.
    + apply teamUserRepoPerms_name in Hg.
      destruct Hsame as [_ [_ [Hname _]]]. rewrite <- Hname, Hg. reflexivity.
Qed.
End ReportNames.

(** ** The action, from the repositories to the rows *)

Section ActionPipeline.
Import Paging Action ActionRows.

(** X19. The action from end to end, as the file has it. Whatever the
    organisation holds and whatever [collabRole] would do, [repoNames]
    ends in its [catch] with [collabsArray] still empty, the orchestrator
    goes on, and [mergeArrays] makes no row: the report that is written
    has a header only, and the failure is given to [core.setFailed]. Had
    rows been collected, the visibility of their repository would not be
    carried into the rows of the report. *)
Theorem action_report_has_no_rows
    (listForOrg : Z -> Z -> nat -> Retry.Outcome (list RepoInfo) Retry.JsError)
    (collabRole_ : RepoInfo -> list Collab -> list Collab)
    (emailArray : list SsoEmail) (memberArray : list Member) (fuel : nat) :
  mergeArray_of listForOrg collabRole_ emailArray memberArray (S fuel) = Some []
  /\ (exists error,
        option_map setFailed (repoNames listForOrg collabRole_ (S fuel) [])
        = Some (Some (Thrown error)))
  /\ (forall collab visibility_,
        ssoCollab_of emailArray memberArray
          (mkCollab (orgRepo collab) (login collab) (name collab) (verifiedEmail collab)
             (permission collab) visibility_ (org collab))
        = ssoCollab_of emailArray memberArray collab).
Proof.
  destruct (repoNames_while_caught listForOrg collabRole_ fuel 1%Z []) as [error Hrun].
  split; [|split].
  - unfold mergeArray_of, repoNames. rewrite Hrun. reflexivity.
  - exists error. unfold repoNames. rewrite Hrun. reflexivity.
  - intros collab visibility_. reflexivity.
Qed.
End ActionPipeline.

(** ** The action's [collabRole] when a request fails *)

Section CaughtErrors.
Import Paging Action ActionRows.

Lemma collabRole_caught_answered {C} rolePermission org_
    (graphql : option C -> Connection RoleEdge C) repo failures :
  forall fuel cursor collabsArray,
    collabRole_caught rolePermission org_ (fun c => Sso.Answered (graphql c))
      fuel repo cursor failures collabsArray
    = match cursor_do_while graphql (collabRole_body rolePermission org_ repo)
              fuel cursor collabsArray with
      | Some (_, out) => Some (failures, out)
      | None => None
      end.
Proof.
  induction fuel as [|fuel IH]; intros cursor collabsArray; [reflexivity|].
  cbn [collabRole_caught cursor_do_while].
  destruct (hasNextPage (graphql cursor)); [|reflexivity].
  rewrite IH.
  destruct (cursor_do_while graphql (collabRole_body rolePermission org_ repo) fuel _ _)
    as [[asked out]|]; reflexivity.
Qed.

Lemma collabRole_caught_then_error rolePermission org_ repo pages message failures :
  Forall (fun page : list RoleEdge => page <> []) pages ->
  forall r cursor collabsArray fuel,
    (length pages - cursor_index cursor <= r)%nat ->
    (r < fuel)%nat ->
    collabRole_caught rolePermission org_ (pages_then_error pages message)
      fuel repo cursor failures collabsArray
    = Some (failures ++ [message],
            fold_left (fun a role => collabRole_body rolePermission org_ repo role a)
              (concat (skipn (cursor_index cursor) pages)) collabsArray).
Proof.
  intros Hne. induction r as [|r IH]; intros cursor collabsArray fuel Hr Hfuel;
    (destruct fuel as [|fuel]; [lia|]); cbn [collabRole_caught];
    unfold pages_then_error at 1; cbn zeta;
    destruct (nth_error pages (cursor_index cursor)) as [page|] eqn:Hpage;
    try (apply List.nth_error_None in Hpage; rewrite skipn_all2 by exact Hpage;
         reflexivity);
    assert (Hlt : (cursor_index cursor < length pages)%nat)
      by (apply List.nth_error_Some; congruence).
  - lia.
  - cbn [edges hasNextPage]. rewrite fold_item_turn. cbn [fst snd hasNextPage endCursor].
    assert (Hpage' : page <> []).
    { apply (proj1 (List.Forall_forall _ pages) Hne). eapply nth_error_In. exact Hpage. }
    destruct page as [|role page]; [contradiction|].
    rewrite IH by (cbn [cursor_index]; lia). cbn [cursor_index].
    rewrite (concat_from pages (cursor_index cursor)), fold_left_app.
    rewrite (nth_error_nth _ _ [] Hpage). reflexivity.
Qed.

(** X20. [collabRole] never throws. When every request is answered it
    is the cursor loop, and no failure is recorded. When the request
    after some pages fails for good, the message goes to
    [core.setFailed] and the rows of the pages before stay in
    [collabsArray]: the caller goes on with a partial list. *)
Theorem collabRole_keeps_rows_before_an_error
    (rolePermission org_ : string) (repo : RepoInfo) (pages : list (list RoleEdge))
    (message : string) (failures : list string) (collabsArray : list Collab) :
  Forall (fun page => page <> []) pages ->
  collabRole_caught rolePermission org_ (pages_then_error pages message)
    (S (length pages)) repo None failures collabsArray
  = Some (failures ++ [message],
          collabsArray
          ++ map (collab_of org_ repo)
               (List.filter (passes rolePermission) (concat pages)))
  /\ forall C (graphql : option C -> Connection RoleEdge C) fuel,
       collabRole_caught rolePermission org_ (fun c => Sso.Answered (graphql c))
         fuel repo None failures collabsArray
       = match collabRole rolePermission org_ graphql fuel repo collabsArray with
         | Some (_, out) => Some (failures, out)
         | None => None
         end.
Proof.
  intros Hne. split.
  - rewrite (collabRole_caught_then_error rolePermission org_ repo pages message failures
               Hne (length pages)); [|cbn [cursor_index]; lia..].
    cbn [cursor_index]. rewrite skipn_O, fold_collabRole_body. reflexivity.
  - intros C graphql fuel. apply collabRole_caught_answered.
Qed.
End CaughtErrors.

(** The first page of [web] is answered, the second request fails. *)
Lemma collabRole_keeps_rows_before_an_error_witness :
  ActionRows.collabRole_caught "ADMIN" "acme"
    (ActionRows.pages_then_error
       [[Action.mkRoleEdge "ada" (Some "Ada") None "ADMIN";
         Action.mkRoleEdge "bob" None None "WRITE"]]
       "Bad credentials")
    2 (Action.mkRepoInfo "web" "PRIVATE") None [] []
  = Some (["Bad credentials"],
          [Action.mkCollab "web" "ada" "Ada" "" "ADMIN" "PRIVATE" "acme"]).
Proof.
  refine (proj1 (collabRole_keeps_rows_before_an_error "ADMIN" "acme"
                   (Action.mkRepoInfo "web" "PRIVATE")
                   [[Action.mkRoleEdge "ada" (Some "Ada") None "ADMIN";
                     Action.mkRoleEdge "bob" None None "WRITE"]]
                   "Bad credentials" [] [] _)).
  constructor; [discriminate|constructor].
Defined.

(** ** Waiting for the rate limit *)

Section RateLimitWaits.
Import RateLimit.

(** X21. Before each attempt, [Wait-IfRateLimited] sleeps only when
    fewer than 5 requests remain and the reset lies ahead, and then as
    long as it takes to reach the reset. When the rate-limit query itself
    fails, it sleeps what is left of 60 seconds since the failure: at
    most 60 seconds, the clock not running backwards. *)
Theorem rate_limit_wait_ends_at_the_reset
    (resp : Sso.Answer RateInfo) (Message : string) (now now' : Z) :
  (now <= now')%Z ->
  match Wait_IfRateLimited resp now now' with
  | Some waitSeconds =>
      (0 < waitSeconds)%Z
      /\ (now' + waitSeconds = reset (Get_RateLimit resp now))%Z
      /\ (remaining (Get_RateLimit resp now) < 5)%Z
  | None =>
      (5 <= remaining (Get_RateLimit resp now))%Z
      \/ (reset (Get_RateLimit resp now) <= now')%Z
  end
  /\ match Wait_IfRateLimited (Sso.Failed Message) now now' with
     | Some waitSeconds => (waitSeconds = 60 - (now' - now))%Z /\ (0 < waitSeconds <= 60)%Z
     | None => (60 <= now' - now)%Z
     end.
Proof.
  intros Hclock. split.
  - unfold Wait_IfRateLimited. cbn zeta.
    destruct (Z.ltb_spec (remaining (Get_RateLimit resp now)) 5) as [Hlow|Hhigh];
      [|left; exact Hhigh].
    destruct (Z.gtb_spec (reset (Get_RateLimit resp now) - now') 0) as [Hahead|Hpast].
    + repeat split; lia.
    + right. lia.
  - unfold Wait_IfRateLimited, Get_RateLimit. cbn [remaining reset].
    change (0 <? 5)%Z with true. cbn iota zeta.
    destruct (Z.gtb_spec (now + 60 - now') 0) as [Hahead|Hpast]; lia.
Qed.
End RateLimitWaits.

(** Two requests remain and the reset is at 1030: read at 1002, the wait
    is 28 seconds. The query failing at 1000, it is 58. *)
Lemma rate_limit_wait_ends_at_the_reset_witness :
  let resp := Sso.Answered (RateLimit.mkRateInfo 2 1030) in
  match RateLimit.Wait_IfRateLimited resp 1000 1002 with
  | Some waitSeconds =>
      (0 < waitSeconds)%Z
      /\ (1002 + waitSeconds = RateLimit.reset (RateLimit.Get_RateLimit resp 1000))%Z
      /\ (RateLimit.remaining (RateLimit.Get_RateLimit resp 1000) < 5)%Z
  | None =>
      (5 <= RateLimit.remaining (RateLimit.Get_RateLimit resp 1000))%Z
      \/ (RateLimit.reset (RateLimit.Get_RateLimit resp 1000) <= 1002)%Z
  end
  /\ match RateLimit.Wait_IfRateLimited (Sso.Failed "timeout") 1000 1002 with
     | Some waitSeconds => (waitSeconds = 60 - (1002 - 1000))%Z /\ (0 < waitSeconds <= 60)%Z
     | None => (60 <= 1002 - 1000)%Z
     end.
Proof.
  apply (rate_limit_wait_ends_at_the_reset
           (Sso.Answered (RateLimit.mkRateInfo 2 1030)) "timeout" 1000 1002).
  lia.
Defined.
